(** * evio_unix.go: the per-loop connection state machine of evio

    A shallow embedding of [src/evio_unix.go].  One readiness dispatch of a
    loop is a function on an explicit world (the loops of the server, the
    shared accept counter, the heap of [conn] objects and the log of
    callbacks and system calls made so far).  System-call results are inputs
    of a dispatch (an [oracle]); application callbacks are fields of the
    [Events] record. *)

From Stdlib Require Import ZArith Lia.
From stdpp Require Import base option list gmap.

Local Open Scope Z_scope.

Abbreviation bytes := (list Byte.byte).

(** ** Data model *)

(** Modelled from the spec: the [Action] type is declared outside
    [evio_unix.go]; the spec lists its values as None, Close, Shutdown and
    Detach.  [ActNone] stands for Go's [None]. *)
Inductive Action := ActNone | Detach | Close | Shutdown.

(** Modelled from the spec: the load-balance modes (declared outside
    [evio_unix.go]). *)
Inductive LoadBalance := Random | RoundRobin | LeastConnections.

(** Go [error] values seen by the loop: the closing sentinel and the
    [syscall.Errno] numbers.  A nil [error] is [None : option error]. *)
Inductive error := errClosing | Errno (e : Z).

(** [syscall.EAGAIN] (its Linux value). *)
Definition EAGAIN : Z := 11.

#[global] Instance Action_eq_dec : EqDecision Action.
Proof. solve_decision. Defined.
#[global] Instance LoadBalance_eq_dec : EqDecision LoadBalance.
Proof. solve_decision. Defined.
#[global] Instance error_eq_dec : EqDecision error.
Proof. solve_decision. Defined.

(** [syscall.Sockaddr]: the two inet shapes the UDP path inspects, and the
    unix one. *)
Inductive Sockaddr :=
| SockaddrInet4 (Port : Z) (Addr : Byte.byte * Byte.byte * Byte.byte * Byte.byte)
| SockaddrInet6 (Port : Z) (ZoneId : Z) (Addr : bytes)
| SockaddrUnix (Name : bytes).

(** [net.Addr] values are kept symbolic: [SockaddrToAddr sa] is the result
    of [internal.SockaddrToAddr] (a function of another package) on [sa],
    [NetAddr] an address made by the [net] package for a listener. *)
Inductive Addr :=
| AddrNil
| NetAddr (network name : bytes)
| SockaddrToAddr (sa : option Sockaddr).

(** Modelled from the spec: the [listener] struct is declared outside
    [evio_unix.go].  Per the spec a listener is a listening socket file
    descriptor, its network family and its bound address.  [ln.pconn != nil]
    holds for the datagram family, the type assertion of [ln.ln] to a TCP
    listener succeeds for the TCP one. *)
Inductive network := TCP | Unix | UDP.

Record listener := {
  ln_fd : Z;
  ln_network : network;
  lnaddr : Addr;
}.

Definition has_pconn (ln : listener) : bool :=
  match ln_network ln with UDP => true | _ => false end.

Definition is_TCPListener (ln : listener) : bool :=
  match ln_network ln with TCP => true | _ => false end.

(** [type conn struct].  [cloop] is the [loop] field (the position of the
    owning loop in [s.loops], [None] for a nil pointer). *)
Record conn := {
  fd : Z;
  lnidx : Z;
  out : bytes;
  sa : option Sockaddr;
  reuse : bool;
  opened : bool;
  action : Action;
  ctx : option Z;
  addrIndex : Z;
  localAddr : Addr;
  remoteAddr : Addr;
  cloop : option nat;
}.

(** [&conn{}] *)
Definition conn_zero : conn :=
  {| fd := 0; lnidx := 0; out := []; sa := None; reuse := false;
     opened := false; action := ActNone; ctx := None; addrIndex := 0;
     localAddr := AddrNil; remoteAddr := AddrNil; cloop := None |}.

Definition set_out (v : bytes) (c : conn) : conn :=
  {| fd := fd c; lnidx := lnidx c; out := v; sa := sa c; reuse := reuse c;
     opened := opened c; action := action c; ctx := ctx c;
     addrIndex := addrIndex c; localAddr := localAddr c;
     remoteAddr := remoteAddr c; cloop := cloop c |}.

Definition set_reuse (v : bool) (c : conn) : conn :=
  {| fd := fd c; lnidx := lnidx c; out := out c; sa := sa c; reuse := v;
     opened := opened c; action := action c; ctx := ctx c;
     addrIndex := addrIndex c; localAddr := localAddr c;
     remoteAddr := remoteAddr c; cloop := cloop c |}.

Definition set_opened (v : bool) (c : conn) : conn :=
  {| fd := fd c; lnidx := lnidx c; out := out c; sa := sa c; reuse := reuse c;
     opened := v; action := action c; ctx := ctx c;
     addrIndex := addrIndex c; localAddr := localAddr c;
     remoteAddr := remoteAddr c; cloop := cloop c |}.

Definition set_action (v : Action) (c : conn) : conn :=
  {| fd := fd c; lnidx := lnidx c; out := out c; sa := sa c; reuse := reuse c;
     opened := opened c; action := v; ctx := ctx c;
     addrIndex := addrIndex c; localAddr := localAddr c;
     remoteAddr := remoteAddr c; cloop := cloop c |}.

Definition set_addrs (i : Z) (la ra : Addr) (c : conn) : conn :=
  {| fd := fd c; lnidx := lnidx c; out := out c; sa := sa c; reuse := reuse c;
     opened := opened c; action := action c; ctx := ctx c;
     addrIndex := i; localAddr := la; remoteAddr := ra; cloop := cloop c |}.

(** Addresses of [conn] objects: a [*conn] is a key of the heap. *)
Abbreviation ptr := positive.

(** Modelled from the spec: the poller ([internal.Poll]) is code of another
    package.  Per the spec's contract it keeps, for each registered fd, the
    event mask asked for: [add_read]/[add_read_write] register an fd,
    [mod_read]/[mod_read_write] change the mask of a registered fd and
    [mod_detach] removes the fd. *)
Inductive interest := ReadOnly | ReadWrite.

#[global] Instance interest_eq_dec : EqDecision interest.
Proof. solve_decision. Defined.

Abbreviation Poll := (gmap Z interest).

Definition AddRead (fd : Z) (p : Poll) : Poll := <[fd := ReadOnly]> p.
Definition AddReadWrite (fd : Z) (p : Poll) : Poll := <[fd := ReadWrite]> p.
Definition ModRead (fd : Z) (p : Poll) : Poll := alter (λ _, ReadOnly) fd p.
Definition ModReadWrite (fd : Z) (p : Poll) : Poll := alter (λ _, ReadWrite) fd p.
Definition ModDetach (fd : Z) (p : Poll) : Poll := delete fd p.

(** [type loop struct] *)
Record loop := {
  idx : Z;
  poll : Poll;
  packet : bytes;
  fdconns : gmap Z ptr;
  count : Z;
}.

Definition set_poll (f : Poll → Poll) (l : loop) : loop :=
  {| idx := idx l; poll := f (poll l); packet := packet l;
     fdconns := fdconns l; count := count l |}.

Definition set_packet (v : bytes) (l : loop) : loop :=
  {| idx := idx l; poll := poll l; packet := v;
     fdconns := fdconns l; count := count l |}.

Definition set_fdconns (f : gmap Z ptr → gmap Z ptr) (l : loop) : loop :=
  {| idx := idx l; poll := poll l; packet := packet l;
     fdconns := f (fdconns l); count := count l |}.

Definition set_count (f : Z → Z) (l : loop) : loop :=
  {| idx := idx l; poll := poll l; packet := packet l;
     fdconns := fdconns l; count := f (count l) |}.

(** Modelled from the spec: the [Options] returned by [Opened] (declared
    outside [evio_unix.go]): [reuse_input_buffer] and [tcp_keepalive], a
    [time.Duration] in nanoseconds. *)
Record Options := {
  ReuseInputBuffer : bool;
  TCPKeepAlive : Z;
}.

(** Modelled from the spec: the event vector (declared outside
    [evio_unix.go]).  A nil callback is [None].  A callback sees the
    connection it is called on and gives back what the Go callback
    returns. *)
Record Events := {
  Opened : option (conn → bytes * Options * Action);
  Closed : option (conn → option error → Action);
  Detached : option (conn → Z → Action);
  PreWrite : option unit;
  Data : option (conn → bytes → bytes * Action);
  Tick : option (Z * Action);
}.

(** The parts of [type server struct] that never change once the loops run. *)
Record server := {
  events : Events;
  lns : list listener;
  balance : LoadBalance;
}.

(** What a dispatch does to the outside: callbacks invoked and system calls
    made, in order.  [CallData p input shared] records whether [input]
    aliases the loop's [packet] buffer ([shared = true]) or is a copy. *)
Inductive event :=
| CallOpened (p : ptr)
| CallData (p : ptr) (input : bytes) (shared : bool)
| CallClosed (p : ptr) (err : option error)
| CallDetached (p : ptr) (fd : Z)
| CallPreWrite
| CallTick
| SendTch (delay : Z)
| SysAccept (fd : Z)
| SysSetNonblock (fd : Z) (nonblocking : bool)
| SysClose (fd : Z)
| SysRead (fd : Z)
| SysWrite (fd : Z) (b : bytes)
| SysRecvfrom (fd : Z)
| SysSendto (fd : Z) (b : bytes) (to : option Sockaddr)
| SetKeepAlive (fd : Z) (secs : Z).

(** The mutable world of a running server: [s.loops] by position,
    [s.accepted], the [conn] objects, and the log. *)
Record World := {
  loops : list loop;
  accepted : Z;
  heap : gmap ptr conn;
  trace : list event;
}.

Definition set_loops (f : list loop → list loop) (w : World) : World :=
  {| loops := f (loops w); accepted := accepted w; heap := heap w;
     trace := trace w |}.

Definition set_accepted (f : Z → Z) (w : World) : World :=
  {| loops := loops w; accepted := f (accepted w); heap := heap w;
     trace := trace w |}.

Definition set_heap (f : gmap ptr conn → gmap ptr conn) (w : World) : World :=
  {| loops := loops w; accepted := accepted w; heap := f (heap w);
     trace := trace w |}.

Definition set_trace (f : list event → list event) (w : World) : World :=
  {| loops := loops w; accepted := accepted w; heap := heap w;
     trace := f (trace w) |}.

(** ** Machine integers *)

(** [int32] wrap-around of [atomic.AddInt32]. *)
Definition wrap32 (z : Z) : Z := (z + 2 ^ 31) mod 2 ^ 32 - 2 ^ 31.

(** [uintptr] and [int] are 64 bits wide on the targets modelled. *)
Definition wrap_uintptr (z : Z) : Z := z mod 2 ^ 64.

(** [int(x)] for [x : uintptr]. *)
Definition int_of_uintptr (z : Z) : Z :=
  if z <? 2 ^ 63 then z else z - 2 ^ 64.

(** ** System calls *)

Inductive write_result := WriteOk (k : nat) | WriteErr (e : Z).
Inductive read_result := ReadOk (data : bytes) | ReadErr (e : Z).
Inductive accept_result := AcceptOk (nfd : Z) (sa : Sockaddr) | AcceptErr (e : Z).
Inductive recvfrom_result :=
| RecvOk (data : bytes) (from : option Sockaddr)
| RecvErr (e : Z).

(** What the kernel answers to the system calls of one dispatch. *)
Record oracle := {
  o_accept : accept_result;
  o_setnonblock : option error;
  o_recvfrom : recvfrom_result;
  o_write : write_result;
  o_read : read_result;
}.

(** [n, err := syscall.Write(fd, p)]: the kernel takes at most [len(p)]
    bytes. *)
Definition sys_write (p : bytes) (r : write_result) : Z * option error :=
  match r with
  | WriteOk k => (Z.of_nat (Nat.min k (length p)), None)
  | WriteErr e => (-1, Some (Errno e))
  end.

(** [n, err := syscall.Read(fd, p)]: at most [len(p)] bytes are stored at
    the front of [p]; the third component is [p] afterwards. *)
Definition sys_read (p : bytes) (r : read_result) : Z * option error * bytes :=
  match r with
  | ReadOk data =>
      let d := take (length p) data in
      (Z.of_nat (length d), None, d ++ drop (length d) p)
  | ReadErr e => (-1, Some (Errno e), p)
  end.

(** [n, sa, err := syscall.Recvfrom(fd, p, 0)] *)
Definition sys_recvfrom (p : bytes) (r : recvfrom_result)
  : Z * option Sockaddr * option error * bytes :=
  match r with
  | RecvOk data from =>
      let d := take (length p) data in
      (Z.of_nat (length d), from, None, d ++ drop (length d) p)
  | RecvErr e => (-1, None, Some (Errno e), p)
  end.

(** ** The monad of a dispatch: state passing over [World]; [None] is a Go
    run-time panic (nil dereference, index out of range). *)
Definition M (A : Type) : Type := World → option (A * World).

Definition ret {A} (a : A) : M A := λ w, Some (a, w).

Definition bind {A B} (m : M A) (k : A → M B) : M B :=
  λ w, match m w with
       | Some (a, w') => k a w'
       | None => None
       end.

Notation "x <- m ;; k" := (bind m (λ x, k))
  (at level 100, m at next level, right associativity).
Notation "m ;;; k" := (bind m (λ _, k))
  (at level 100, right associativity).

Definition panic {A} : M A := λ _, None.

Definition emit (e : event) : M unit :=
  λ w, Some (tt, set_trace (λ t, t ++ [e]) w).

(** [*l] for the loop at position [l] of [s.loops]. *)
Definition get_loop (l : nat) : M loop :=
  λ w, match loops w !! l with
       | Some lp => Some (lp, w)
       | None => None
       end.

Definition upd_loop (l : nat) (f : loop → loop) : M unit :=
  λ w, match loops w !! l with
       | Some _ => Some (tt, set_loops (alter f l) w)
       | None => None
       end.

(** [*c] and [c.field = v] *)
Definition load (c : ptr) : M conn :=
  λ w, match heap w !! c with
       | Some v => Some (v, w)
       | None => None
       end.

Definition store (c : ptr) (f : conn → conn) : M unit :=
  λ w, match heap w !! c with
       | Some _ => Some (tt, set_heap (alter f c) w)
       | None => None
       end.

(** [&conn{...}] *)
Definition alloc (v : conn) : M ptr :=
  λ w, let p := fresh (dom (heap w)) in
       Some (p, set_heap <[p := v]> w).

(** [xs[i]] for an [int] index. *)
Definition index {A} (xs : list A) (i : Z) : M A :=
  λ w, if i <? 0 then None
       else match xs !! Z.to_nat i with
            | Some x => Some (x, w)
            | None => None
            end.

Definition len {A} (xs : list A) : Z := Z.of_nat (length xs).

(** [xs[:n]] and [xs[n:]]; out of range is a panic. *)
Definition slice_to {A} (xs : list A) (n : Z) : M (list A) :=
  if (n <? 0) || (len xs <? n) then panic else ret (take (Z.to_nat n) xs).

Definition slice_from {A} (xs : list A) (n : Z) : M (list A) :=
  if (n <? 0) || (len xs <? n) then panic else ret (drop (Z.to_nat n) xs).

Definition when (b : bool) (m : M unit) : M unit := if b then m else ret tt.

(** [len(c.out) == 0 && c.action == None] *)
Definition idle (c : conn) : bool :=
  (len (out c) =? 0) && bool_decide (action c = ActNone).

(** [len(c.out) != 0 || c.action != None] *)
Definition busy (c : conn) : bool :=
  negb (len (out c) =? 0) || negb (bool_decide (action c = ActNone)).

(** ** The functions of [evio_unix.go] *)

Definition loopCloseConn (s : server) (l : nat) (c : ptr) (err : option error)
  : M (option error) :=
  upd_loop l (set_count (λ n, wrap32 (n + -1))) ;;;
  cv <- load c ;;
  upd_loop l (set_fdconns (delete (fd cv))) ;;;
  emit (SysClose (fd cv)) ;;;
  match Closed (events s) with
  | Some f =>
      emit (CallClosed c err) ;;;
      cv <- load c ;;
      match f cv err with
      | Shutdown => ret (Some errClosing)
      | _ => ret None
      end
  | None => ret None
  end.

Definition loopDetachConn (s : server) (l : nat) (c : ptr) (err : option error)
    (o : oracle) : M (option error) :=
  match Detached (events s) with
  | None => loopCloseConn s l c err
  | Some f =>
      cv <- load c ;;
      upd_loop l (set_poll (ModDetach (fd cv))) ;;;
      upd_loop l (set_count (λ n, wrap32 (n + -1))) ;;;
      upd_loop l (set_fdconns (delete (fd cv))) ;;;
      emit (SysSetNonblock (fd cv) false) ;;;
      match o_setnonblock o with
      | Some e => ret (Some e)
      | None =>
          emit (CallDetached c (fd cv)) ;;;
          cv <- load c ;;
          match f cv (fd cv) with
          | Shutdown => ret (Some errClosing)
          | _ => ret None
          end
      end
  end.

Definition loopWake (s : server) (l : nat) (c : ptr) : M (option error) :=
  match Data (events s) with
  | None => ret None
  | Some f =>
      cv <- load c ;;
      emit (CallData c [] false) ;;;
      let '(out', action') := f cv [] in
      store c (set_action action') ;;;
      when (0 <? len out') (store c (set_out out')) ;;;
      cv <- load c ;;
      when (busy cv) (upd_loop l (set_poll (ModReadWrite (fd cv)))) ;;;
      ret None
  end.

(** The three shapes of a note handed to [Trigger], and any other value. *)
Inductive note :=
| NoteDuration (d : Z)
| NoteError (e : error)
| NoteConn (c : ptr)
| NoteOther.

Definition loopNote (s : server) (l : nat) (n : note) : M (option error) :=
  match n with
  | NoteDuration _ =>
      match Tick (events s) with
      | None => panic
      | Some (delay, action') =>
          emit CallTick ;;;
          emit (SendTch delay) ;;;
          match action' with
          | Shutdown => ret (Some errClosing)
          | _ => ret None
          end
      end
  | NoteError v => ret (Some v)
  | NoteConn v =>
      cv <- load v ;;
      lp <- get_loop l ;;
      if bool_decide (fdconns lp !! fd cv ≠ Some v) then ret None
      else loopWake s l v
  | NoteOther => ret None
  end.

(** [sa6] as [loopUDPRead] fills it from the sender's address. *)
Definition udp_sa6 (from : option Sockaddr) : Sockaddr :=
  match from with
  | Some (SockaddrInet4 port (a0, a1, a2, a3)) =>
      SockaddrInet6 port 0 (repeat Byte.x00 12 ++ [a0; a1; a2; a3])
  | Some (SockaddrInet6 port zone addr) => SockaddrInet6 port zone addr
  | _ => SockaddrInet6 0 0 (repeat Byte.x00 16)
  end.

Definition loopUDPRead (s : server) (l : nat) (lnidx : Z) (fd : Z) (o : oracle)
  : M (option error) :=
  lp <- get_loop l ;;
  emit (SysRecvfrom fd) ;;;
  let '(n, from, err, packet') := sys_recvfrom (packet lp) (o_recvfrom o) in
  upd_loop l (set_packet packet') ;;;
  if bool_decide (err ≠ None) || (n =? 0) then ret None
  else
    match Data (events s) with
    | None => ret None
    | Some f =>
        c <- alloc conn_zero ;;
        ln <- index (lns s) lnidx ;;
        store c (set_addrs lnidx (lnaddr ln) (SockaddrToAddr (Some (udp_sa6 from)))) ;;;
        input <- slice_to packet' n ;;
        cv <- load c ;;
        emit (CallData c input false) ;;;
        let '(out', action') := f cv input in
        when (0 <? len out')
          (when (bool_decide (PreWrite (events s) ≠ None)) (emit CallPreWrite) ;;;
           emit (SysSendto fd out' from)) ;;;
        match action' with
        | Shutdown => ret (Some errClosing)
        | _ => ret None
        end
    end.

(** The first listener of [s.lns] whose fd is [fd], with its position. *)
Fixpoint find_listener (fd : Z) (i : nat) (ls : list listener)
  : option (nat * listener) :=
  match ls with
  | [] => None
  | ln :: rest =>
      if ln_fd ln =? fd then Some (i, ln) else find_listener fd (S i) rest
  end.

(** [loopAccept] from [if ln.pconn != nil] on: the datagram path, or one
    [accept] and the registration of the new connection. *)
Definition loopAccept_take (s : server) (l : nat) (i : nat) (ln : listener)
    (fd : Z) (o : oracle) : M (option error) :=
  if has_pconn ln then loopUDPRead s l (Z.of_nat i) fd o
  else
    emit (SysAccept fd) ;;;
    match o_accept o with
    | AcceptErr e =>
        if bool_decide (e = EAGAIN) then ret None else ret (Some (Errno e))
    | AcceptOk nfd sa =>
        emit (SysSetNonblock nfd true) ;;;
        match o_setnonblock o with
        | Some e => ret (Some e)
        | None =>
            c <- alloc {| fd := nfd; lnidx := Z.of_nat i; out := []; sa := Some sa;
                          reuse := false; opened := false; action := ActNone;
                          ctx := None; addrIndex := 0; localAddr := AddrNil;
                          remoteAddr := AddrNil; cloop := Some l |} ;;
            upd_loop l (set_fdconns <[nfd := c]>) ;;;
            upd_loop l (set_poll (AddReadWrite nfd)) ;;;
            upd_loop l (set_count (λ n, wrap32 (n + 1))) ;;;
            ret None
        end
    end.

Definition loopAccept (s : server) (l : nat) (fd : Z) (o : oracle)
  : M (option error) :=
  match find_listener fd 0 (lns s) with
  | None => ret None
  | Some (i, ln) =>
      lp <- get_loop l ;;
      λ w,
        if 1 <? len (loops w) then
          match balance s with
          | LeastConnections =>
              let n := count lp in
              if existsb (λ lp', negb (idx lp' =? idx lp) && (count lp' <? n))
                   (loops w)
              then ret None w
              else loopAccept_take s l i ln fd o w
          | RoundRobin =>
              let idx' := Z.rem (int_of_uintptr (accepted w)) (len (loops w)) in
              if negb (idx' =? idx lp) then ret None w
              else loopAccept_take s l i ln fd o
                     (set_accepted (λ a, wrap_uintptr (a + 1)) w)
          | Random => loopAccept_take s l i ln fd o w
          end
        else loopAccept_take s l i ln fd o w
  end.

Definition loopOpened (s : server) (l : nat) (c : ptr) : M (option error) :=
  store c (set_opened true) ;;;
  cv <- load c ;;
  ln <- index (lns s) (lnidx cv) ;;
  store c (set_addrs (lnidx cv) (lnaddr ln) (SockaddrToAddr (sa cv))) ;;;
  match Opened (events s) with
  | Some f =>
      cv <- load c ;;
      emit (CallOpened c) ;;;
      let '(out', opts, action') := f cv in
      when (0 <? len out') (store c (set_out out')) ;;;
      store c (set_action action') ;;;
      store c (set_reuse (ReuseInputBuffer opts)) ;;;
      when (0 <? TCPKeepAlive opts)
        (when (is_TCPListener ln)
           (emit (SetKeepAlive (fd cv) (TCPKeepAlive opts ÷ 1000000000))))
  | None => ret tt
  end ;;;
  cv <- load c ;;
  when (idle cv) (upd_loop l (set_poll (ModRead (fd cv)))) ;;;
  ret None.

Definition loopWrite (s : server) (l : nat) (c : ptr) (o : oracle)
  : M (option error) :=
  when (bool_decide (PreWrite (events s) ≠ None)) (emit CallPreWrite) ;;;
  cv <- load c ;;
  emit (SysWrite (fd cv) (out cv)) ;;;
  let '(n, err) := sys_write (out cv) (o_write o) in
  match err with
  | Some e =>
      if bool_decide (e = Errno EAGAIN) then ret None
      else loopCloseConn s l c (Some e)
  | None =>
      (if n =? len (out cv) then store c (set_out [])
       else (rest <- slice_from (out cv) n ;; store c (set_out rest))) ;;;
      cv <- load c ;;
      when (idle cv) (upd_loop l (set_poll (ModRead (fd cv)))) ;;;
      ret None
  end.

Definition loopAction (s : server) (l : nat) (c : ptr) (o : oracle)
  : M (option error) :=
  cv <- load c ;;
  match action cv with
  | Close => loopCloseConn s l c None
  | Shutdown => ret (Some errClosing)
  | Detach => loopDetachConn s l c None o
  | ActNone =>
      store c (set_action ActNone) ;;;
      cv <- load c ;;
      when (idle cv) (upd_loop l (set_poll (ModRead (fd cv)))) ;;;
      ret None
  end.

Definition loopRead (s : server) (l : nat) (c : ptr) (o : oracle)
  : M (option error) :=
  cv <- load c ;;
  lp <- get_loop l ;;
  emit (SysRead (fd cv)) ;;;
  let '(n, err, packet') := sys_read (packet lp) (o_read o) in
  upd_loop l (set_packet packet') ;;;
  if (n =? 0) || bool_decide (err ≠ None) then
    if bool_decide (err = Some (Errno EAGAIN)) then ret None
    else loopCloseConn s l c err
  else
    input <- slice_to packet' n ;;
    match Data (events s) with
    | Some f =>
        emit (CallData c input (reuse cv)) ;;;
        let '(out', action') := f cv input in
        store c (set_action action') ;;;
        when (0 <? len out') (store c (set_out out'))
    | None => ret tt
    end ;;;
    cv <- load c ;;
    when (busy cv) (upd_loop l (set_poll (ModReadWrite (fd cv)))) ;;;
    ret None.

(** The function [loopRun] hands to [l.poll.Wait]: one readiness dispatch. *)
Definition dispatch (s : server) (l : nat) (fd : Z) (n : note) (o : oracle)
  : M (option error) :=
  if fd =? 0 then loopNote s l n
  else
    lp <- get_loop l ;;
    match fdconns lp !! fd with
    | None => loopAccept s l fd o
    | Some c =>
        cv <- load c ;;
        if negb (opened cv) then loopOpened s l c
        else if 0 <? len (out cv) then loopWrite s l c o
        else if negb (bool_decide (action cv = ActNone)) then loopAction s l c o
        else loopRead s l c o
    end.

(** ** [serve]: the loops as they are created, before they run *)

Definition new_loop (s : server) (i : nat) : loop :=
  {| idx := Z.of_nat i;
     poll := foldl (λ p ln, AddRead (ln_fd ln) p) ∅ (lns s);
     packet := replicate (Z.to_nat 0xFFFF) Byte.x00;
     fdconns := ∅;
     count := 0 |}.

Definition serve (s : server) (numLoops : nat) : World :=
  {| loops := new_loop s <$> seq 0 numLoops;
     accepted := 0; heap := ∅; trace := [] |}.

(** ** Observations used in the statements *)

(** The [Closed] call made by [loopCloseConn], when the callback is set. *)
Definition closed_call (s : server) (c : ptr) (err : option error) : list event :=
  match Closed (events s) with
  | Some _ => [CallClosed c err]
  | None => []
  end.

(** The [PreWrite] call made before a write, when the callback is set. *)
Definition prewrite_call (s : server) : list event :=
  match PreWrite (events s) with
  | Some _ => [CallPreWrite]
  | None => []
  end.

(** The connection object mapped for [fd] on loop [l]. *)
Definition mapped (w : World) (l : nat) (fd : Z) : option ptr :=
  lp ← loops w !! l; fdconns lp !! fd.

(** The event mask registered for [fd] on the poller of loop [l]. *)
Definition mask (w : World) (l : nat) (fd : Z) : option interest :=
  lp ← loops w !! l; poll lp !! fd.

(** ** Effects and invariants named in the statements *)

(** [c] after [c.action = action] and, for a non-empty [out], [c.out = out]. *)
Definition installed (r : bytes * Action) (cv : conn) : conn :=
  if 0 <? len r.1 then set_out r.1 (set_action r.2 cv) else set_action r.2 cv.

(** [c] as [loopOpened] leaves it, for the listener [ln] that accepted it. *)
Definition opened_conn (s : server) (ln : listener) (cv : conn) : conn :=
  let c1 := set_addrs (lnidx cv) (lnaddr ln) (SockaddrToAddr (sa cv))
              (set_opened true cv) in
  match Opened (events s) with
  | Some f =>
      let '(out', opts, action') := f c1 in
      set_reuse (ReuseInputBuffer opts)
        (set_action action' (if 0 <? len out' then set_out out' c1 else c1))
  | None => c1
  end.

(** What [loopOpened] adds to the log. *)
Definition opened_calls (s : server) (ln : listener) (c : ptr) (cv : conn)
  : list event :=
  let c1 := set_addrs (lnidx cv) (lnaddr ln) (SockaddrToAddr (sa cv))
              (set_opened true cv) in
  match Opened (events s) with
  | Some f =>
      let '(_, opts, _) := f c1 in
      CallOpened c ::
      (if (0 <? TCPKeepAlive opts) && is_TCPListener ln
       then [SetKeepAlive (fd cv) (TCPKeepAlive opts ÷ 1000000000)] else [])
  | None => []
  end.

(** Every entry of every [fdconns] is keyed by the fd of the object it maps
    to, a positive C int. *)
Definition conns_wf (w : World) : Prop :=
  ∀ l lp k p, loops w !! l = Some lp → fdconns lp !! k = Some p →
    0 < k < 2 ^ 31 ∧ ∃ cv, heap w !! p = Some cv ∧ fd cv = k.

(** What the kernel guarantees of [accept]: the new descriptor is a positive
    C int and is not the descriptor of a connection the loop still holds. *)
Definition accept_ok (w : World) (l : nat) (o : oracle) : Prop :=
  ∀ nfd sa lp, o_accept o = AcceptOk nfd sa → loops w !! l = Some lp →
    0 < nfd < 2 ^ 31 ∧ fdconns lp !! nfd = None.

(** The worlds a server goes through: as [serve] creates the loops, after
    any dispatch of any loop, and while [serve] closes what is left at
    shutdown. *)
Inductive reachable (s : server) (numLoops : nat) : World → Prop :=
| reach_serve : reachable s numLoops (serve s numLoops)
| reach_dispatch w l fd n o r w' :
    reachable s numLoops w →
    accept_ok w l o →
    dispatch s l fd n o w = Some (r, w') →
    reachable s numLoops w'
| reach_shutdown w l lp fd c r w' :
    reachable s numLoops w →
    loops w !! l = Some lp →
    fdconns lp !! fd = Some c →
    loopCloseConn s l c None w = Some (r, w') →
    reachable s numLoops w'.

(** How one step may change the loop it runs on: not at all as far as
    [fdconns] and [count] go, by removing a mapped fd, or by adding a fresh
    one for an object of the heap. *)
Inductive loop_change (h' : gmap ptr conn) (lp lp' : loop) : Prop :=
| change_none :
    fdconns lp' = fdconns lp → count lp' = count lp → loop_change h' lp lp'
| change_remove k :
    is_Some (fdconns lp !! k) →
    fdconns lp' = delete k (fdconns lp) →
    count lp' = wrap32 (count lp + -1) →
    loop_change h' lp lp'
| change_add k p cv :
    fdconns lp !! k = None → 0 < k < 2 ^ 31 →
    h' !! p = Some cv → fd cv = k →
    fdconns lp' = <[k := p]> (fdconns lp) →
    count lp' = wrap32 (count lp + 1) →
    loop_change h' lp lp'.

(** Objects stay where they are and keep their fd. *)
Definition heap_ext (h h' : gmap ptr conn) : Prop :=
  ∀ p cv, h !! p = Some cv → ∃ cv', h' !! p = Some cv' ∧ fd cv' = fd cv.

Definition footprint (l : nat) (lp : loop) (w w' : World) : Prop :=
  ∃ lp', loops w' = <[l := lp']> (loops w) ∧
         heap_ext (heap w) (heap w') ∧
         loop_change (heap w') lp lp'.

Definition count_inv (w : World) : Prop :=
  ∀ l lp, loops w !! l = Some lp → count lp = Z.of_nat (size (fdconns lp)).

(** The world [m] leaves when run from [w] ([w] itself after a panic). *)
Definition run_from (w : World) (m : M (option error)) : World :=
  match m w with
  | Some (_, w') => w'
  | None => w
  end.

Definition returns (w : World) (m : M (option error)) : bool :=
  match m w with
  | Some _ => true
  | None => false
  end.

(** ** Evaluation points *)

Definition ex_listeners : list listener :=
  [ {| ln_fd := 3; ln_network := TCP; lnaddr := NetAddr [] [] |};
    {| ln_fd := 4; ln_network := UDP; lnaddr := NetAddr [] [] |} ].

(** An application that answers ["q"] with [Close], echoes any other input,
    and has nothing to say on a wake. *)
Definition ex_events : Events :=
  {| Opened := Some (λ _, ([], {| ReuseInputBuffer := false; TCPKeepAlive := 0 |},
                           ActNone));
     Closed := Some (λ _ _, ActNone);
     Detached := None;
     PreWrite := None;
     Data := Some (λ _ input,
                     match input with
                     | [] => ([], ActNone)
                     | [Byte.x71] => ([], Close)
                     | _ => (input, ActNone)
                     end);
     Tick := None |}.

Definition ex_server (b : LoadBalance) : server :=
  {| events := ex_events; lns := ex_listeners; balance := b |}.

(** An open connection on fd 5, at address 1 of the heap. *)
Definition ex_conn (o : bytes) (a : Action) : conn :=
  {| fd := 5; lnidx := 0; out := o;
     sa := Some (SockaddrInet4 4242 (Byte.x7f, Byte.x00, Byte.x00, Byte.x01));
     reuse := false; opened := true; action := a; ctx := None; addrIndex := 0;
     localAddr := NetAddr [] [];
     remoteAddr := SockaddrToAddr
       (Some (SockaddrInet4 4242 (Byte.x7f, Byte.x00, Byte.x00, Byte.x01)));
     cloop := Some 0%nat |}.

Definition ex_loop (i : Z) (m : interest) : loop :=
  {| idx := i;
     poll := <[5 := m]> (<[4 := ReadOnly]> (<[3 := ReadOnly]> ∅));
     packet := replicate 8 Byte.x00;
     fdconns := {[5 := 1%positive]};
     count := 1 |}.

Definition ex_world (o : bytes) (a : Action) (m : interest) : World :=
  {| loops := [ex_loop 0 m]; accepted := 0;
     heap := {[1%positive := ex_conn o a]}; trace := [] |}.

Definition ex_oracle (wr : write_result) (rd : read_result) : oracle :=
  {| o_accept := AcceptOk 6 (SockaddrInet4 4243 (Byte.x7f, Byte.x00, Byte.x00, Byte.x01));
     o_setnonblock := None;
     o_recvfrom := RecvOk [Byte.x68; Byte.x69]
       (Some (SockaddrInet4 4244 (Byte.x7f, Byte.x00, Byte.x00, Byte.x01)));
     o_write := wr;
     o_read := rd |}.

(** Answers for a dispatch on a connection: nothing to accept. *)
Definition ex_io_oracle (wr : write_result) (rd : read_result) : oracle :=
  {| o_accept := AcceptErr EAGAIN; o_setnonblock := None;
     o_recvfrom := RecvErr EAGAIN; o_write := wr; o_read := rd |}.

(** The listener is readable, but [accept] finds nothing to take. *)
Definition ex_eagain_oracle : oracle :=
  {| o_accept := AcceptErr EAGAIN; o_setnonblock := None;
     o_recvfrom := RecvErr EAGAIN; o_write := WriteErr EAGAIN;
     o_read := ReadErr EAGAIN |}.

(** A world in which fd 5 was closed and accepted again: object 2 is the
    old connection, object 1 the one now mapped for fd 5. *)
Definition ex_stale_world : World :=
  set_heap <[2%positive := ex_conn [] ActNone]> (ex_world [] ActNone ReadOnly).

(** Two loops in round-robin mode, no connection yet. *)
Definition ex_rr_world : World :=
  {| loops := [ {| idx := 0; poll := <[3 := ReadOnly]> ∅;
                   packet := replicate 8 Byte.x00; fdconns := ∅; count := 0 |};
                {| idx := 1; poll := <[3 := ReadOnly]> ∅;
                   packet := replicate 8 Byte.x00; fdconns := ∅; count := 0 |} ];
     accepted := 0; heap := ∅; trace := [] |}.

(** The world after loop 0 of a one-loop server has accepted fd 6 on
    listener 3. *)
Definition ex_accepted_world : World :=
  run_from (serve (ex_server Random) 1)
    (dispatch (ex_server Random) 0 3 NoteOther
       (ex_oracle (WriteOk 0) (ReadOk []))).

(** On [ex_accepted_world]: the first readiness of fd 6 opens the
    connection. *)
Definition ex_opened_world : World :=
  run_from ex_accepted_world
    (dispatch (ex_server Random) 0 6 NoteOther
       (ex_io_oracle (WriteOk 0) (ReadOk []))).

(** Then ["q"] arrives: [Data] asks for [Close]. *)
Definition ex_quit_world : World :=
  run_from ex_opened_world
    (dispatch (ex_server Random) 0 6 NoteOther
       (ex_io_oracle (WriteOk 0) (ReadOk [Byte.x71]))).

(** Then a wake posted earlier for the connection is dispatched, before the
    fd is dispatched again. *)
Definition ex_woken_world : World :=
  run_from ex_quit_world
    (dispatch (ex_server Random) 0 0 (NoteConn 1%positive)
       (ex_io_oracle (WriteOk 0) (ReadOk []))).

(** ** [detachedConn]: the blocking stream handed to [Detached] *)

(** Errors a [detachedConn] method returns: [io.EOF], or the error of the
    system call. *)
Inductive stream_error := EOF | StreamErr (e : error).

(** [func (c *detachedConn) Close() error].  [r] is what [syscall.Close]
    answers (nil or an errno); the result is [c.fd] afterwards, the error
    returned and the system call made. *)
Definition detachedConn_Close (dfd : Z) (r : option Z)
  : Z * option stream_error * list event :=
  match r with
  | Some e => (dfd, Some (StreamErr (Errno e)), [SysClose dfd])
  | None => (-1, None, [SysClose dfd])
  end.

(** [func (c *detachedConn) Read(p []byte) (n int, err error)]; the last
    components are [p] afterwards and the system call made. *)
Definition detachedConn_Read (dfd : Z) (p : bytes) (r : read_result)
  : Z * option stream_error * bytes * list event :=
  let '(n, err, p') := sys_read p r in
  match err with
  | Some e => (n, Some (StreamErr e), p', [SysRead dfd])
  | None =>
      if n =? 0 then
        if len p =? 0 then (0, None, p', [SysRead dfd])
        else (0, Some EOF, p', [SysRead dfd])
      else (n, None, p', [SysRead dfd])
  end.

(** The loop of [detachedConn.Write]: one [write] of what is left of [p] per
    round, while something is left.  [rs] holds the kernel's answers, one per
    call; [None] when the answers run out before the loop ends. *)
Fixpoint detachedConn_Write_loop (dfd : Z) (p : bytes) (rs : list write_result)
  : option (option stream_error * list event) :=
  if 0 <? len p then
    match rs with
    | [] => None
    | r :: rs' =>
        match sys_write p r with
        | (_, Some e) => Some (Some (StreamErr e), [SysWrite dfd p])
        | (nn, None) =>
            match detachedConn_Write_loop dfd (drop (Z.to_nat nn) p) rs' with
            | Some (err, calls) => Some (err, SysWrite dfd p :: calls)
            | None => None
            end
        end
    end
  else Some (None, []).

(** [func (c *detachedConn) Write(p []byte) (n int, err error)] *)
Definition detachedConn_Write (dfd : Z) (p : bytes) (rs : list write_result)
  : option (Z * option stream_error * list event) :=
  let n := len p in
  match detachedConn_Write_loop dfd p rs with
  | Some (err, calls) => Some (n, err, calls)
  | None => None
  end.

(** The calls an application makes on a detached stream, with the kernel's
    answers. *)
Inductive stream_op :=
| OpClose (r : option Z)
| OpRead (p : bytes) (r : read_result)
| OpWrite (p : bytes) (rs : list write_result).

(** [c.fd] after one call, and the system calls the call makes. *)
Definition stream_step (dfd : Z) (op : stream_op) : Z * list event :=
  match op with
  | OpClose r => let '(dfd', _, calls) := detachedConn_Close dfd r in (dfd', calls)
  | OpRead p r => let '(_, _, _, calls) := detachedConn_Read dfd p r in (dfd, calls)
  | OpWrite p rs =>
      match detachedConn_Write dfd p rs with
      | Some (_, _, calls) => (dfd, calls)
      | None => (dfd, [])
      end
  end.

Fixpoint stream_run (dfd : Z) (ops : list stream_op) : Z * list event :=
  match ops with
  | [] => (dfd, [])
  | op :: rest =>
      let '(dfd1, calls1) := stream_step dfd op in
      let '(dfd2, calls2) := stream_run dfd1 rest in
      (dfd2, calls1 ++ calls2)
  end.

(** The fd a system call of the log is made on. *)
Definition syscall_fd (e : event) : option Z :=
  match e with
  | SysAccept k | SysSetNonblock k _ | SysClose k | SysRead k | SysWrite k _
  | SysRecvfrom k | SysSendto k _ _ | SetKeepAlive k _ => Some k
  | _ => None
  end.

(** The bytes the kernel takes from [p] over a run of [write] calls, each
    made on what the calls before it left: up to the first error. *)
Fixpoint taken (p : bytes) (rs : list write_result) : bytes :=
  match rs with
  | WriteOk k :: rs' => take k p ++ taken (drop k p) rs'
  | _ => []
  end.

(** ** The life of a connection, as the log shows it *)

(** The connection object a callback of the log is called on. *)
Definition callback_ptr (e : event) : option ptr :=
  match e with
  | CallOpened p | CallData p _ _ | CallClosed p _ | CallDetached p _ => Some p
  | _ => None
  end.

(** A stretch of the log without a callback on a connection. *)
Definition quiet (t : list event) : Prop :=
  ∀ e, e ∈ t → callback_ptr e = None.

(** [e] is the [Closed] or [Detached] call on [p]. *)
Definition ends (p : ptr) (e : event) : Prop :=
  (∃ err, e = CallClosed p err) ∨ (∃ k, e = CallDetached p k).

(** A monitor of the log: the objects [Opened] has been called on and the
    objects [Closed] or [Detached] has been called on, or [None] once a
    callback comes after the end of its object or [Opened] a second time. *)
Definition life_step (st : gset ptr * gset ptr) (e : event)
  : option (gset ptr * gset ptr) :=
  match e with
  | CallOpened p =>
      if bool_decide (p ∈ st.2) || bool_decide (p ∈ st.1) then None
      else Some ({[p]} ∪ st.1, st.2)
  | CallData p _ _ =>
      if bool_decide (p ∈ st.2) then None else Some st
  | CallClosed p _ | CallDetached p _ =>
      if bool_decide (p ∈ st.2) then None else Some (st.1, {[p]} ∪ st.2)
  | _ => Some st
  end.

Fixpoint life_run (st : gset ptr * gset ptr) (t : list event)
  : option (gset ptr * gset ptr) :=
  match t with
  | [] => Some st
  | e :: t' =>
      match life_step st e with
      | Some st' => life_run st' t'
      | None => None
      end
  end.

(** Every mapped connection names, in its [loop] field, the loop whose
    [fdconns] maps it. *)
Definition owner_inv (w : World) : Prop :=
  ∀ l lp k p cv, loops w !! l = Some lp → fdconns lp !! k = Some p →
    heap w !! p = Some cv → cloop cv = Some l.

(** Work is left for the loop on [c]: [Opened] is still to be called, or
    there is output to write or an action to apply. *)
Definition pending (c : conn) : Prop := opened c = false ∨ idle c = false.

(** What one step of loop [l] does to the world, by kind: nothing to any
    connection; an update of one mapped connection, with at most one callback
    on it; the removal of a mapped connection, ending with at most one
    [Closed] or [Detached] call; a new connection; or a datagram served on a
    new unmapped object. *)
Inductive step_shape (s : server) (l : nat) (lp : loop) (w w' : World)
  : Prop :=
| shape_quiet lp' t :
    loops w' = <[l := lp']> (loops w) → heap w' = heap w →
    trace w' = trace w ++ t → quiet t →
    idx lp' = idx lp → fdconns lp' = fdconns lp → count lp' = count lp →
    poll lp' = poll lp →
    step_shape s l lp w w'
| shape_conn lp' c cv cv' q1 cb q2 :
    loops w' = <[l := lp']> (loops w) →
    heap w !! c = Some cv → fdconns lp !! fd cv = Some c →
    heap w' = <[c := cv']> (heap w) →
    trace w' = trace w ++ q1 ++ cb ++ q2 → quiet q1 → quiet q2 →
    (cb = [] ∨
     (cb = [CallOpened c] ∧ opened cv = false ∧ opened cv' = true) ∨
     (∃ input shared, cb = [CallData c input shared])) →
    idx lp' = idx lp → fdconns lp' = fdconns lp → count lp' = count lp →
    fd cv' = fd cv → cloop cv' = cloop cv → lnidx cv' = lnidx cv →
    (opened cv = true → opened cv' = true) →
    ((poll lp' = poll lp ∧ (pending cv' → pending cv)) ∨
     (poll lp' = ModRead (fd cv) (poll lp) ∧ ¬ pending cv') ∨
     poll lp' = ModReadWrite (fd cv) (poll lp)) →
    step_shape s l lp w w'
| shape_gone lp' c cv q tl :
    loops w' = <[l := lp']> (loops w) →
    heap w !! c = Some cv → fdconns lp !! fd cv = Some c →
    heap w' = heap w →
    trace w' = trace w ++ q ++ tl → quiet q →
    (tl = [] ∨ (∃ err, tl = [CallClosed c err]) ∨ tl = [CallDetached c (fd cv)]) →
    idx lp' = idx lp →
    fdconns lp' = delete (fd cv) (fdconns lp) →
    count lp' = wrap32 (count lp + -1) →
    (∀ k, k ≠ fd cv → poll lp' !! k = poll lp !! k) →
    step_shape s l lp w w'
| shape_accept lp' p cvn t :
    loops w' = <[l := lp']> (loops w) →
    heap w !! p = None → heap w' = <[p := cvn]> (heap w) →
    trace w' = trace w ++ t → quiet t →
    idx lp' = idx lp →
    fdconns lp !! fd cvn = None → 0 < fd cvn < 2 ^ 31 →
    fdconns lp' = <[fd cvn := p]> (fdconns lp) →
    count lp' = wrap32 (count lp + 1) →
    cloop cvn = Some l → opened cvn = false →
    (∃ i ln, lnidx cvn = Z.of_nat i ∧ lns s !! i = Some ln) →
    poll lp' = AddReadWrite (fd cvn) (poll lp) →
    step_shape s l lp w w'
| shape_udp lp' p cvu q1 input q2 :
    loops w' = <[l := lp']> (loops w) →
    heap w !! p = None → heap w' = <[p := cvu]> (heap w) →
    trace w' = trace w ++ q1 ++ [CallData p input false] ++ q2 →
    quiet q1 → quiet q2 →
    idx lp' = idx lp → fdconns lp' = fdconns lp → count lp' = count lp →
    poll lp' = poll lp →
    step_shape s l lp w w'.

(** What holds of the log and the connections between steps: the monitor has
    accepted the log, [Opened] has been called only on objects whose [opened]
    flag is set, and an object [Closed] or [Detached] has been called on is
    mapped by no loop. *)
Definition life_inv (w : World) : Prop :=
  owner_inv w ∧
  ∃ O E, life_run (∅, ∅) (trace w) = Some (O, E) ∧
    (∀ p, p ∈ O → ∃ cv, heap w !! p = Some cv ∧ opened cv = true) ∧
    (∀ p, p ∈ E → is_Some (heap w !! p) ∧
                  ∀ l lp k, loops w !! l = Some lp → fdconns lp !! k ≠ Some p).

(** [func (c *conn) Wake()]: the loop whose poller is triggered and the note
    it is given, if any; [None] for a nil receiver. *)
Definition Wake (c : ptr) (w : World) : option (option (nat * note)) :=
  match heap w !! c with
  | None => None
  | Some cv =>
      Some (match cloop cv with
            | Some l => Some (l, NoteConn c)
            | None => None
            end)
  end.

(** [l.idx] is the position of [l] in [s.loops]. *)
Definition idx_inv (w : World) : Prop :=
  ∀ l lp, loops w !! l = Some lp → idx lp = Z.of_nat l.

(** Then the connection is closed: the pending [Close] is applied. *)
Definition ex_closed_world : World :=
  run_from ex_quit_world
    (dispatch (ex_server Random) 0 6 NoteOther
       (ex_io_oracle (WriteOk 0) (ReadOk []))).

(** Then the kernel hands out fd 6 again: a second connection is accepted
    and opened under the number of the first. *)
Definition ex_reused_world : World :=
  run_from
    (run_from ex_closed_world
       (dispatch (ex_server Random) 0 3 NoteOther
          (ex_oracle (WriteOk 0) (ReadOk []))))
    (dispatch (ex_server Random) 0 6 NoteOther
       (ex_io_oracle (WriteOk 0) (ReadOk []))).

(** Every mapped connection carries the position of a listener of
    [s.lns]. *)
Definition listed_inv (s : server) (w : World) : Prop :=
  ∀ l lp k p cv, loops w !! l = Some lp → fdconns lp !! k = Some p →
    heap w !! p = Some cv →
    ∃ i ln, lnidx cv = Z.of_nat i ∧ lns s !! i = Some ln.

(** The notes the program itself posts: a duration only from [loopTicker],
    which runs only when [Tick] is set, and a connection only from [Wake],
    on an object that exists. *)
Definition note_ok (s : server) (w : World) (n : note) : Prop :=
  match n with
  | NoteDuration _ => Tick (events s) ≠ None
  | NoteConn v => is_Some (heap w !! v)
  | _ => True
  end.

(** The number of connections loop [l] maps. *)
Definition load_of (w : World) (l : nat) : option nat :=
  lp ← loops w !! l; Some (size (fdconns lp)).

(** The connections loop [l] maps, in the order of the map's list. *)
Definition conns_of (w : World) (l : nat) : list ptr :=
  match loops w !! l with
  | Some lp => (map_to_list (fdconns lp)).*2
  | None => []
  end.

(** The inner loop of the function [serve] defers, for loop [l]:
    [for _, c := range l.fdconns { loopCloseConn(s, l, c, nil) }], the
    results dropped.  [cs] is the order in which the range produces the
    connections. *)
Fixpoint serve_close_conns (s : server) (l : nat) (cs : list ptr) : M unit :=
  match cs with
  | [] => ret tt
  | c :: cs' => loopCloseConn s l c None ;;; serve_close_conns s l cs'
  end.

(** What closing [c] adds to the log. *)
Definition close_log (s : server) (h : gmap ptr conn) (c : ptr)
  : list event :=
  match h !! c with
  | Some cv => SysClose (fd cv) :: closed_call s c None
  | None => []
  end.

(** Two loops balancing by least connections, after loop 0 has accepted
    fd 6. *)
Definition ex_lc_world : World :=
  run_from (serve (ex_server LeastConnections) 2)
    (dispatch (ex_server LeastConnections) 0 3 NoteOther
       (ex_oracle (WriteOk 0) (ReadOk []))).

(** As [ex_events], with a [Detached] callback. *)
Definition ex_detach_events : Events :=
  {| Opened := Opened ex_events; Closed := Closed ex_events;
     Detached := Some (λ _ _, ActNone);
     PreWrite := None; Data := Data ex_events; Tick := None |}.

Definition ex_detach_server : server :=
  {| events := ex_detach_events; lns := ex_listeners; balance := Random |}.

(** The system refuses to make an fd blocking again. *)
Definition ex_ebadf_oracle : oracle :=
  {| o_accept := AcceptErr EAGAIN; o_setnonblock := Some (Errno 9);
     o_recvfrom := RecvErr EAGAIN; o_write := WriteErr EAGAIN;
     o_read := ReadErr EAGAIN |}.

(** Whatever [m] returns satisfies [P]. *)
Definition returns_only {A} (P : A → Prop) (m : M A) : Prop :=
  ∀ w a w', m w = Some (a, w') → P a.

(** The errors a step on a connection may return: the closing sentinel, and
    what [SetNonblock] answered. *)
Definition conn_result (o : oracle) (r : option error) : Prop :=
  r = None ∨ r = Some errClosing ∨ (∃ e, r = Some e ∧ o_setnonblock o = Some e).

(** The errors a step on a listener may return: those of [conn_result], and
    the error of [accept] when it is not [EAGAIN]. *)
Definition accept_result_ok (o : oracle) (r : option error) : Prop :=
  conn_result o r ∨
  ∃ z, o_accept o = AcceptErr z ∧ z ≠ EAGAIN ∧ r = Some (Errno z).

(** Every mapped fd is registered with the poller of its loop, for reading
    and writing as long as work is left on its connection. *)
Definition sched_inv (w : World) : Prop :=
  ∀ l lp k c cv, loops w !! l = Some lp → fdconns lp !! k = Some c →
    heap w !! c = Some cv →
    ∃ m, poll lp !! k = Some m ∧ (pending cv → m = ReadWrite).

(** [accept] hands out fd 7. *)
Definition ex_second_oracle : oracle :=
  {| o_accept := AcceptOk 7 (SockaddrInet4 4245 (Byte.x7f, Byte.x00, Byte.x00, Byte.x01));
     o_setnonblock := None; o_recvfrom := RecvErr EAGAIN;
     o_write := WriteErr EAGAIN; o_read := ReadErr EAGAIN |}.

(** Two loops in round-robin mode.  A first connection arrives and the
    listener wakes both loops: loop 0 takes it as fd 6. *)
Definition ex_rr_first_world : World :=
  run_from (serve (ex_server RoundRobin) 2)
    (dispatch (ex_server RoundRobin) 0 3 NoteOther
       (ex_oracle (WriteOk 0) (ReadOk []))).

(** Loop 1, woken for the same connection, finds nothing left to accept. *)
Definition ex_rr_missed_world : World :=
  run_from ex_rr_first_world
    (dispatch (ex_server RoundRobin) 1 3 NoteOther ex_eagain_oracle).

(** A second connection arrives and loop 0 is woken first. *)
Definition ex_rr_second_world : World :=
  run_from ex_rr_missed_world
    (dispatch (ex_server RoundRobin) 0 3 NoteOther ex_second_oracle).


(** ** Running the monad *)

Arguments wrap32 : simpl never.
Arguments wrap_uintptr : simpl never.
Arguments int_of_uintptr : simpl never.
Arguments len : simpl never.

Lemma bind_load {B} c cv (k : conn → M B) w :
  heap w !! c = Some cv → bind (load c) k w = k cv w.
Proof. intros H. unfold bind, load. by rewrite H. Qed.

Lemma bind_store {B} c cv f (k : unit → M B) w :
  heap w !! c = Some cv →
  bind (store c f) k w = k tt (set_heap (alter f c) w).
Proof. intros H. unfold bind, store. by rewrite H. Qed.

Lemma bind_get_loop {B} l lp (k : loop → M B) w :
  loops w !! l = Some lp → bind (get_loop l) k w = k lp w.
Proof. intros H. unfold bind, get_loop. by rewrite H. Qed.

Lemma bind_upd_loop {B} l lp f (k : unit → M B) w :
  loops w !! l = Some lp →
  bind (upd_loop l f) k w = k tt (set_loops (alter f l) w).
Proof. intros H. unfold bind, upd_loop. by rewrite H. Qed.

Lemma bind_emit {B} e (k : unit → M B) w :
  bind (emit e) k w = k tt (set_trace (λ t, t ++ [e]) w).
Proof. reflexivity. Qed.

Lemma bind_alloc {B} v (k : ptr → M B) w :
  bind (alloc v) k w
  = k (fresh (dom (heap w))) (set_heap <[fresh (dom (heap w)) := v]> w).
Proof. reflexivity. Qed.

Lemma bind_ret {A B} (a : A) (k : A → M B) w : bind (ret a) k w = k a w.
Proof. reflexivity. Qed.

Lemma bind_bind {A B C} (m : M A) (f : A → M B) (g : B → M C) w :
  bind (bind m f) g w = bind m (λ a, bind (f a) g) w.
Proof. unfold bind. destruct (m w) as [[a w1]|]; reflexivity. Qed.

Lemma bind_when {B} (b : bool) (m : M unit) (k : unit → M B) w :
  bind (when b m) k w = if b then bind m k w else k tt w.
Proof. destruct b; reflexivity. Qed.

(** Lookups through the updates a dispatch leaves behind. *)
Ltac lookups :=
  cbn [heap loops accepted trace set_heap set_loops set_trace set_accepted];
  rewrite ?lookup_alter_eq, ?list_lookup_alter_eq, ?lookup_insert_eq;
  repeat match goal with
         | H : _ !! _ = Some _ |- _ => rewrite H
         end;
  try reflexivity.

(** One step of symbolic execution of a monadic term. *)
Ltac mstep :=
  first
    [ rewrite bind_ret
    | rewrite bind_emit
    | rewrite bind_alloc
    | rewrite bind_when
    | rewrite bind_bind
    | erewrite bind_load by lookups
    | erewrite bind_store by lookups
    | erewrite bind_get_loop by lookups
    | erewrite bind_upd_loop by lookups ];
  cbn [fmap option_fmap option_map].

Ltac mrun := repeat mstep.

(** ** Normal forms of the updates *)

(** Updates in place written as the value stored. *)
Lemma list_alter_Some {A} (f : A → A) (l : nat) (ls : list A) (x : A) :
  ls !! l = Some x → alter f l ls = <[l := f x]> ls.
Proof.
  intros H. apply list_eq. intros i. destruct (decide (i = l)) as [->|Hne].
  - rewrite list_lookup_alter_eq, H, list_lookup_insert_eq; [done|].
    by eapply lookup_lt_Some.
  - by rewrite list_lookup_alter_ne, list_lookup_insert_ne.
Qed.

Lemma list_alter_insert_eq {A} (f : A → A) (l : nat) (ls : list A) (y : A) :
  alter f l (<[l := y]> ls) = <[l := f y]> ls.
Proof.
  destruct (decide (l < length ls)%nat) as [Hlt|Hge].
  - destruct (lookup_lt_is_Some_2 ls l Hlt) as [x Hx].
    erewrite list_alter_Some by (apply list_lookup_insert_eq; done).
    by rewrite list_insert_insert_eq.
  - rewrite !list_insert_ge by lia. apply list_eq. intros i.
    destruct (decide (i = l)) as [->|Hne].
    + rewrite list_lookup_alter_eq. rewrite lookup_ge_None_2 by lia. done.
    + by rewrite list_lookup_alter_ne.
Qed.

Lemma map_alter_Some {A} (f : A → A) (c : ptr) (h : gmap ptr A) (v : A) :
  h !! c = Some v → alter f c h = <[c := f v]> h.
Proof.
  intros H. apply map_eq. intros i. destruct (decide (i = c)) as [->|Hne].
  - by rewrite lookup_alter_eq, H, lookup_insert_eq.
  - by rewrite lookup_alter_ne, lookup_insert_ne.
Qed.

Ltac normw :=
  unfold set_heap, set_loops, set_trace, set_accepted;
  cbn [heap loops accepted trace];
  repeat match goal with
         | H : ?ls !! ?l = Some ?x |- context [alter ?f ?l ?ls] =>
             rewrite (list_alter_Some f l ls x H)
         | H : ?h !! ?c = Some ?v |- context [alter ?f ?c ?h] =>
             rewrite (map_alter_Some f c h v H)
         | |- _ => rewrite list_alter_insert_eq
         | |- _ => rewrite alter_insert_eq
         end;
  rewrite <- ?app_assoc; cbn [app].

(** ** The close and detach paths *)

Lemma loopCloseConn_run s l c err w lp cv :
  loops w !! l = Some lp →
  heap w !! c = Some cv →
  ∃ r w',
    loopCloseConn s l c err w = Some (r, w') ∧
    loops w' = <[l := set_fdconns (delete (fd cv))
                        (set_count (λ n, wrap32 (n + -1)) lp)]> (loops w) ∧
    heap w' = heap w ∧
    accepted w' = accepted w ∧
    trace w' = trace w ++ [SysClose (fd cv)] ++ closed_call s c err.
Proof.
  intros Hl Hc. unfold loopCloseConn, closed_call. mrun.
  destruct (Closed (events s)) as [f|].
  - mrun. destruct (f cv err); eexists _, _; (split; [reflexivity|]);
      normw; done.
  - eexists _, _. split; [reflexivity|]. normw. done.
Qed.

Lemma loopDetachConn_run s l c err o w lp cv f :
  Detached (events s) = Some f →
  loops w !! l = Some lp →
  heap w !! c = Some cv →
  ∃ r w',
    loopDetachConn s l c err o w = Some (r, w') ∧
    loops w' = <[l := set_fdconns (delete (fd cv))
                        (set_count (λ n, wrap32 (n + -1))
                           (set_poll (ModDetach (fd cv)) lp))]> (loops w) ∧
    heap w' = heap w ∧
    accepted w' = accepted w ∧
    trace w' = trace w ++ [SysSetNonblock (fd cv) false] ++
               match o_setnonblock o with
               | Some _ => []
               | None => [CallDetached c (fd cv)]
               end.
Proof.
  intros Hd Hl Hc. unfold loopDetachConn. rewrite Hd. mrun.
  destruct (o_setnonblock o) as [e|].
  - eexists _, _. split; [reflexivity|]. normw. done.
  - mrun. destruct (f cv (fd cv)); eexists _, _; (split; [reflexivity|]);
      normw; done.
Qed.

(** No assignment of the loop changes [c.fd]. *)
Lemma fd_set_out v c : fd (set_out v c) = fd c.
Proof. reflexivity. Qed.
Lemma fd_set_reuse v c : fd (set_reuse v c) = fd c.
Proof. reflexivity. Qed.
Lemma fd_set_opened v c : fd (set_opened v c) = fd c.
Proof. reflexivity. Qed.
Lemma fd_set_action v c : fd (set_action v c) = fd c.
Proof. reflexivity. Qed.
Lemma fd_set_addrs i la ra c : fd (set_addrs i la ra c) = fd c.
Proof. reflexivity. Qed.

Ltac fdsimpl :=
  rewrite ?fd_set_out, ?fd_set_reuse, ?fd_set_opened, ?fd_set_action,
    ?fd_set_addrs.

(** Closes a goal [m w = Some (r, w')] once [m] has run. *)
Ltac wfinish :=
  unfold ret; normw; fdsimpl;
  repeat match goal with
         | H : ?ls !! ?l = Some ?x |- context [<[?l := ?x]> ?ls] =>
             rewrite (list_insert_id ls l x H)
         end;
  try reflexivity.

Lemma fd_installed r cv : fd (installed r cv) = fd cv.
Proof. unfold installed. by destruct (0 <? len r.1). Qed.

Lemma loopWake_run s l c w lp cv f :
  Data (events s) = Some f →
  loops w !! l = Some lp →
  heap w !! c = Some cv →
  let cv' := installed (f cv []) cv in
  loopWake s l c w =
    Some (None,
          {| loops := <[l := if busy cv' then set_poll (ModReadWrite (fd cv)) lp
                             else lp]> (loops w);
             accepted := accepted w;
             heap := <[c := cv']> (heap w);
             trace := trace w ++ [CallData c [] false] |}).
Proof.
  intros Hd Hl Hc. unfold loopWake, installed. rewrite Hd. mrun.
  destruct (f cv []) as [o' a'] eqn:Hf. cbn [fst snd]. mrun.
  destruct (0 <? len o'); mrun;
    match goal with |- context [busy ?x] => destruct (busy x) end; mrun;
    wfinish.
Qed.

Lemma set_packet_same lp : set_packet (packet lp) lp = lp.
Proof. by destruct lp. Qed.

(** The bytes a successful [read] or [recvfrom] leaves at the front of the
    buffer are the slice [packet[:n]]. *)
Lemma slice_to_front {A} (d rest : list A) (w : World) :
  slice_to (d ++ rest) (Z.of_nat (length d)) w = Some (d, w).
Proof.
  unfold slice_to, len, panic, ret. rewrite length_app.
  destruct (Z.ltb_spec (Z.of_nat (length d)) 0); [lia|].
  destruct (Z.ltb_spec (Z.of_nat (length d + length rest))
              (Z.of_nat (length d))); [lia|].
  cbn [orb]. rewrite Nat2Z.id. by rewrite take_app_length.
Qed.

Lemma bind_slice_to_front {A B} (d rest : list A) (k : list A → M B) w :
  bind (slice_to (d ++ rest) (Z.of_nat (length d))) k w = k d w.
Proof. unfold bind. by rewrite slice_to_front. Qed.

(** ** The read path *)

Lemma loopRead_err s l c o w lp cv e :
  loops w !! l = Some lp →
  heap w !! c = Some cv →
  o_read o = ReadErr e →
  if decide (e = EAGAIN) then
    loopRead s l c o w =
      Some (None, {| loops := loops w; accepted := accepted w; heap := heap w;
                     trace := trace w ++ [SysRead (fd cv)] |})
  else
    ∃ r, loopRead s l c o w =
      Some (r, {| loops := <[l := set_fdconns (delete (fd cv))
                                  (set_count (λ n, wrap32 (n + -1)) lp)]> (loops w);
                  accepted := accepted w; heap := heap w;
                  trace := trace w ++ [SysRead (fd cv); SysClose (fd cv)] ++
                           closed_call s c (Some (Errno e)) |}).
Proof.
  intros Hl Hc Ho. unfold loopRead. mrun. rewrite Ho. cbn [sys_read]. mrun.
  replace (-1 =? 0) with false by done. cbn [orb].
  rewrite bool_decide_eq_true_2 by done.
  destruct (decide (e = EAGAIN)) as [->|Hne].
  - rewrite bool_decide_eq_true_2 by done. wfinish.
    rewrite set_packet_same. wfinish.
  - rewrite bool_decide_eq_false_2 by congruence.
    unfold loopCloseConn, closed_call. mrun.
    destruct (Closed (events s)) as [f|]; mrun.
    + destruct (f cv (Some (Errno e))); eexists; wfinish;
        rewrite set_packet_same; reflexivity.
    + eexists; wfinish; rewrite set_packet_same; reflexivity.
Qed.

Lemma loopRead_eof s l c o w lp cv data :
  loops w !! l = Some lp →
  heap w !! c = Some cv →
  o_read o = ReadOk data →
  take (length (packet lp)) data = [] →
  ∃ r, loopRead s l c o w =
    Some (r, {| loops := <[l := set_fdconns (delete (fd cv))
                                (set_count (λ n, wrap32 (n + -1)) lp)]> (loops w);
                accepted := accepted w; heap := heap w;
                trace := trace w ++ [SysRead (fd cv); SysClose (fd cv)] ++
                         closed_call s c None |}).
Proof.
  intros Hl Hc Ho Hd. unfold loopRead. mrun. rewrite Ho. cbn [sys_read].
  rewrite Hd. cbn [length app drop]. mrun.
  change (Z.of_nat 0 =? 0) with true. cbn [orb].
  rewrite bool_decide_eq_false_2 by done.
  unfold loopCloseConn, closed_call. mrun.
  destruct (Closed (events s)) as [f|]; mrun.
  - destruct (f cv None); eexists; wfinish;
      rewrite set_packet_same; reflexivity.
  - eexists; wfinish; rewrite set_packet_same; reflexivity.
Qed.

Lemma loopRead_data s l c o w lp cv data :
  loops w !! l = Some lp →
  heap w !! c = Some cv →
  o_read o = ReadOk data →
  let d := take (length (packet lp)) data in
  let lp1 := set_packet (d ++ drop (length d) (packet lp)) lp in
  d ≠ [] →
  loopRead s l c o w =
    match Data (events s) with
    | Some f =>
        let cv' := installed (f cv d) cv in
        Some (None,
              {| loops := <[l := if busy cv'
                                 then set_poll (ModReadWrite (fd cv)) lp1
                                 else lp1]> (loops w);
                 accepted := accepted w;
                 heap := <[c := cv']> (heap w);
                 trace := trace w ++ [SysRead (fd cv); CallData c d (reuse cv)] |})
    | None =>
        Some (None,
              {| loops := <[l := if busy cv
                                 then set_poll (ModReadWrite (fd cv)) lp1
                                 else lp1]> (loops w);
                 accepted := accepted w;
                 heap := heap w;
                 trace := trace w ++ [SysRead (fd cv)] |})
    end.
Proof.
  intros Hl Hc Ho d lp1 Hd. subst lp1. unfold loopRead. mrun. rewrite Ho.
  cbn [sys_read]. fold d. mrun.
  destruct (Z.eqb_spec (Z.of_nat (length d)) 0) as [Hz|_];
    [destruct d; [done | cbn [length] in Hz; lia]|].
  rewrite bool_decide_eq_false_2 by (intros H; by apply H).
  cbn [orb]. rewrite bind_slice_to_front.
  destruct (Data (events s)) as [f|]; mrun.
  - unfold installed. destruct (f cv d) as [o' a']. cbn [fst snd]. mrun.
    destruct (0 <? len o'); mrun;
      match goal with |- context [busy ?x] => destruct (busy x) end; mrun;
      wfinish.
  - destruct (busy cv); mrun; wfinish.
Qed.

(** ** The write path *)

Lemma bind_prewrite {B} s (k : unit → M B) w :
  bind (when (bool_decide (PreWrite (events s) ≠ None)) (emit CallPreWrite)) k w
  = k tt (set_trace (λ t, t ++ prewrite_call s) w).
Proof.
  unfold prewrite_call. destruct (PreWrite (events s)) as [u|].
  - rewrite bool_decide_eq_true_2 by done. reflexivity.
  - rewrite bool_decide_eq_false_2 by (intros H; by apply H).
    cbn [when]. rewrite bind_ret. unfold set_trace. destruct w; cbn.
    by rewrite app_nil_r.
Qed.

Lemma loopWrite_err s l c o w lp cv e :
  loops w !! l = Some lp →
  heap w !! c = Some cv →
  o_write o = WriteErr e →
  if decide (e = EAGAIN) then
    loopWrite s l c o w =
      Some (None, {| loops := loops w; accepted := accepted w; heap := heap w;
                     trace := trace w ++ prewrite_call s ++
                              [SysWrite (fd cv) (out cv)] |})
  else
    ∃ r, loopWrite s l c o w =
      Some (r, {| loops := <[l := set_fdconns (delete (fd cv))
                                  (set_count (λ n, wrap32 (n + -1)) lp)]> (loops w);
                  accepted := accepted w; heap := heap w;
                  trace := trace w ++ prewrite_call s ++
                           [SysWrite (fd cv) (out cv); SysClose (fd cv)] ++
                           closed_call s c (Some (Errno e)) |}).
Proof.
  intros Hl Hc Ho. unfold loopWrite. rewrite bind_prewrite. mrun. rewrite Ho.
  cbn [sys_write]. destruct (decide (e = EAGAIN)) as [->|Hne].
  - rewrite bool_decide_eq_true_2 by done. wfinish.
  - rewrite bool_decide_eq_false_2 by congruence.
    unfold loopCloseConn, closed_call. mrun.
    destruct (Closed (events s)) as [f|]; mrun.
    + destruct (f cv (Some (Errno e))); eexists; wfinish.
    + eexists; wfinish.
Qed.

Lemma loopWrite_ok s l c o w lp cv k :
  loops w !! l = Some lp →
  heap w !! c = Some cv →
  o_write o = WriteOk k →
  let cv' := set_out (drop k (out cv)) cv in
  loopWrite s l c o w =
    Some (None,
          {| loops := <[l := if idle cv' then set_poll (ModRead (fd cv)) lp
                             else lp]> (loops w);
             accepted := accepted w;
             heap := <[c := cv']> (heap w);
             trace := trace w ++ prewrite_call s ++ [SysWrite (fd cv) (out cv)] |}).
Proof.
  intros Hl Hc Ho. unfold loopWrite. rewrite bind_prewrite. mrun. rewrite Ho.
  cbn [sys_write]. unfold len.
  destruct (Z.eqb_spec (Z.of_nat (k `min` length (out cv)))
              (Z.of_nat (length (out cv)))) as [Heq|Hne].
  - mrun. rewrite (drop_ge (out cv) k) by lia.
    destruct (idle (set_out [] cv)) eqn:Hi; mrun; wfinish.
  - unfold slice_from, len, panic.
    destruct (Z.ltb_spec (Z.of_nat (k `min` length (out cv))) 0); [lia|].
    destruct (Z.ltb_spec (Z.of_nat (length (out cv)))
                (Z.of_nat (k `min` length (out cv)))); [lia|].
    cbn [orb]. mrun. rewrite Nat2Z.id.
    replace (k `min` length (out cv))%nat with k by lia.
    destruct (idle (set_out (drop k (out cv)) cv)) eqn:Hi; mrun; wfinish.
Qed.

(** ** The open path *)

Lemma fd_opened_conn s ln cv : fd (opened_conn s ln cv) = fd cv.
Proof.
  unfold opened_conn. destruct (Opened (events s)) as [f|]; [|done].
  destruct (f _) as [[o' opts] a']. by destruct (0 <? len o').
Qed.

Lemma bind_index {A B} (xs : list A) (i : Z) (x : A) (k : A → M B) w :
  0 ≤ i → xs !! Z.to_nat i = Some x → bind (index xs i) k w = k x w.
Proof.
  intros Hi Hx. unfold bind, index.
  destruct (Z.ltb_spec i 0); [lia|]. by rewrite Hx.
Qed.

Lemma loopOpened_run s l c w lp cv ln :
  loops w !! l = Some lp →
  heap w !! c = Some cv →
  0 ≤ lnidx cv →
  lns s !! Z.to_nat (lnidx cv) = Some ln →
  let cv' := opened_conn s ln cv in
  loopOpened s l c w =
    Some (None,
          {| loops := <[l := if idle cv' then set_poll (ModRead (fd cv)) lp
                             else lp]> (loops w);
             accepted := accepted w;
             heap := <[c := cv']> (heap w);
             trace := trace w ++ opened_calls s ln c cv |}).
Proof.
  intros Hl Hc Hi Hln. unfold loopOpened, opened_conn, opened_calls. mrun.
  change (lnidx (set_opened true cv)) with (lnidx cv).
  change (sa (set_opened true cv)) with (sa cv).
  erewrite bind_index by eassumption. mrun.
  destruct (Opened (events s)) as [f|]; mrun.
  - destruct (f _) as [[o' opts] a']. mrun.
    destruct (0 <? len o'), (0 <? TCPKeepAlive opts), (is_TCPListener ln);
      cbn [andb]; mrun; fdsimpl;
      match goal with |- context [idle ?x] => destruct (idle x) end; mrun;
      wfinish.
  - fdsimpl.
    match goal with |- context [idle ?x] => destruct (idle x) end; mrun;
      wfinish; by rewrite app_nil_r.
Qed.

(** ** The action path *)

Lemma loopAction_none s l c o w lp cv :
  loops w !! l = Some lp →
  heap w !! c = Some cv →
  action cv = ActNone →
  let cv' := set_action ActNone cv in
  loopAction s l c o w =
    Some (None,
          {| loops := <[l := if idle cv' then set_poll (ModRead (fd cv)) lp
                             else lp]> (loops w);
             accepted := accepted w;
             heap := <[c := cv']> (heap w);
             trace := trace w |}).
Proof.
  intros Hl Hc Ha. unfold loopAction. mrun. rewrite Ha. mrun.
  destruct (idle (set_action ActNone cv)); mrun; wfinish.
Qed.

(** ** The accept path *)

Lemma fresh_ptr_unused (h : gmap ptr conn) : h !! fresh (dom h) = None.
Proof. apply not_elem_of_dom. apply is_fresh. Qed.

Lemma loopAccept_take_conn s l i ln fd o w lp nfd sa :
  has_pconn ln = false →
  loops w !! l = Some lp →
  o_accept o = AcceptOk nfd sa →
  o_setnonblock o = None →
  let p := fresh (dom (heap w)) in
  loopAccept_take s l i ln fd o w =
    Some (None,
          {| loops := <[l := set_count (λ n, wrap32 (n + 1))
                              (set_poll (AddReadWrite nfd)
                                 (set_fdconns <[nfd := p]> lp))]> (loops w);
             accepted := accepted w;
             heap := <[p := {| fd := nfd; lnidx := Z.of_nat i; out := [];
                               sa := Some sa; reuse := false; opened := false;
                               action := ActNone; ctx := None; addrIndex := 0;
                               localAddr := AddrNil; remoteAddr := AddrNil;
                               cloop := Some l |}]> (heap w);
             trace := trace w ++ [SysAccept fd; SysSetNonblock nfd true] |}).
Proof.
  intros Hu Hl Ha Hn. unfold loopAccept_take. rewrite Hu, Ha, Hn. mrun.
  wfinish.
Qed.

Lemma loopAccept_take_fail s l i ln fd o w :
  has_pconn ln = false →
  (∀ nfd sa, o_accept o = AcceptOk nfd sa → o_setnonblock o ≠ None) →
  ∃ r t, loopAccept_take s l i ln fd o w =
    Some (r, {| loops := loops w; accepted := accepted w; heap := heap w;
                trace := trace w ++ t |}).
Proof.
  intros Hu Hf. unfold loopAccept_take. rewrite Hu. mrun.
  destruct (o_accept o) as [nfd sa|e] eqn:Ha.
  - specialize (Hf nfd sa eq_refl). mrun.
    destruct (o_setnonblock o) as [e|]; [|done].
    eexists _, _. wfinish.
  - destruct (bool_decide (e = EAGAIN)); eexists _, _; wfinish.
Qed.

(** ** The datagram path *)

Lemma loopUDPRead_frame s l lnidx fd o w lp r w' :
  loops w !! l = Some lp →
  loopUDPRead s l lnidx fd o w = Some (r, w') →
  ∃ pk t,
    loops w' = <[l := set_packet pk lp]> (loops w) ∧
    accepted w' = accepted w ∧
    trace w' = trace w ++ t ∧
    (heap w' = heap w ∨
     ∃ cvu, heap w' = <[fresh (dom (heap w)) := cvu]> (heap w)).
Proof.
  intros Hl. unfold loopUDPRead. mrun.
  destruct (sys_recvfrom (packet lp) (o_recvfrom o)) as [[[n from] err] pk].
  mrun.
  destruct (bool_decide (err ≠ None) || (n =? 0)).
  { intros [= <- <-]. eexists pk, _. normw. eauto. }
  destruct (Data (events s)) as [f|].
  2:{ intros [= <- <-]. eexists pk, _. normw. eauto. }
  mrun. unfold index. unfold bind at 1.
  destruct (lnidx <? 0); [done|].
  destruct (lns s !! Z.to_nat lnidx) as [ln|]; [|done].
  mrun. unfold slice_to. destruct ((n <? 0) || (len pk <? n)); [done|].
  mrun.
  match goal with |- context [f ?a ?b] => destruct (f a b) as [o' a'] end.
  destruct (0 <? len o').
  - cbn [when]. rewrite bind_bind, bind_prewrite. mrun.
    intros H. eexists pk, _.
    destruct a'; injection H as <- <-; normw; eauto 10.
  - mrun. intros H. eexists pk, _.
    destruct a'; injection H as <- <-; normw; eauto 10.
Qed.

(** ** Detach without a [Detached] callback (C10) *)

(** C10: when the application has set no [Detached] callback, a pending
    [Detach] action takes the close path: the action step is the close step,
    the connection leaves [fdconns] (and [count] drops by one), the fd is
    closed and not detached from the poller, and [Closed] is called; no
    [Detached] call is made. *)
Theorem detach_without_callback_closes s l c o w lp cv :
  Detached (events s) = None →
  loops w !! l = Some lp →
  heap w !! c = Some cv →
  action cv = Detach →
  loopAction s l c o w = loopCloseConn s l c None w ∧
  ∃ r w' lp',
    loopAction s l c o w = Some (r, w') ∧
    loops w' !! l = Some lp' ∧
    fdconns lp' = delete (fd cv) (fdconns lp) ∧
    mapped w' l (fd cv) = None ∧
    count lp' = wrap32 (count lp - 1) ∧
    poll lp' = poll lp ∧
    trace w' = trace w ++ [SysClose (fd cv)] ++ closed_call s c None.
Proof.
  intros Hd Hl Hc Ha.
  assert (Heq : loopAction s l c o w = loopCloseConn s l c None w).
  { unfold loopAction. mrun. rewrite Ha. unfold loopDetachConn. by rewrite Hd. }
  split; [exact Heq|]. rewrite Heq.
  destruct (loopCloseConn_run s l c None w lp cv Hl Hc)
    as (r & w' & Hrun & Hloops & _ & _ & Htr).
  exists r, w', (set_fdconns (delete (fd cv))
                   (set_count (λ n, wrap32 (n + -1)) lp)).
  assert (Hl' : loops w' !! l = Some (set_fdconns (delete (fd cv))
                   (set_count (λ n, wrap32 (n + -1)) lp))).
  { rewrite Hloops. apply list_lookup_insert_eq. by eapply lookup_lt_Some. }
  repeat split; try done.
  unfold mapped. rewrite Hl'. cbn. apply lookup_delete_eq.
Qed.

Lemma detach_without_callback_closes_witness :
  Detached (events (ex_server Random)) = None ∧
  loops (ex_world [] Detach ReadWrite) !! 0%nat = Some (ex_loop 0 ReadWrite) ∧
  heap (ex_world [] Detach ReadWrite) !! 1%positive = Some (ex_conn [] Detach) ∧
  action (ex_conn [] Detach) = Detach ∧
  loopAction (ex_server Random) 0 1%positive (ex_oracle (WriteOk 0) (ReadOk []))
    (ex_world [] Detach ReadWrite)
  = loopCloseConn (ex_server Random) 0 1%positive None
      (ex_world [] Detach ReadWrite).
Proof.
  do 4 (split; [reflexivity|]).
  apply (detach_without_callback_closes (ex_server Random) 0 1%positive
           (ex_oracle (WriteOk 0) (ReadOk [])) (ex_world [] Detach ReadWrite)
           (ex_loop 0 ReadWrite) (ex_conn [] Detach)); reflexivity.
Defined.

(** ** Stale wakes (C8) *)

(** C8: a wake note for the connection object [v] is dispatched with the
    sentinel fd 0.  If [fdconns] does not map [v]'s fd to [v] itself (no
    entry, or another object), the dispatch returns nil and leaves the world
    as it was: no callback, no state change.  If it does, and [Data] is set,
    the dispatch makes exactly the call [Data(v, empty)]. *)
Theorem stale_wake_dropped s l v o w lp cv :
  loops w !! l = Some lp →
  heap w !! v = Some cv →
  (fdconns lp !! fd cv ≠ Some v →
     dispatch s l 0 (NoteConn v) o w = Some (None, w)) ∧
  (fdconns lp !! fd cv = Some v →
     ∃ w', dispatch s l 0 (NoteConn v) o w = Some (None, w') ∧
           trace w' = trace w ++
                      match Data (events s) with
                      | Some _ => [CallData v [] false]
                      | None => []
                      end) ∧
  (∀ r w' p input shared,
     dispatch s l 0 (NoteConn v) o w = Some (r, w') →
     CallData p input shared ∈ trace w' →
     CallData p input shared ∉ trace w →
     fdconns lp !! fd cv = Some v ∧ p = v ∧ input = []).
Proof.
  intros Hl Hc.
  assert (Hstale : fdconns lp !! fd cv ≠ Some v →
                   dispatch s l 0 (NoteConn v) o w = Some (None, w)).
  { intros Hne. unfold dispatch. cbn [Z.eqb]. unfold loopNote. mrun.
    by rewrite bool_decide_eq_true_2. }
  assert (Hlive : fdconns lp !! fd cv = Some v →
     ∃ w', dispatch s l 0 (NoteConn v) o w = Some (None, w') ∧
           trace w' = trace w ++
                      match Data (events s) with
                      | Some _ => [CallData v [] false]
                      | None => []
                      end).
  { intros Heq. unfold dispatch. cbn [Z.eqb]. unfold loopNote. mrun.
    rewrite bool_decide_eq_false_2 by (intros H; by apply H).
    destruct (Data (events s)) as [f|] eqn:Hd.
    - rewrite (loopWake_run s l v w lp cv f Hd Hl Hc). eexists. split; done.
    - unfold loopWake. rewrite Hd. exists w. split; [done|].
      by rewrite app_nil_r. }
  split; [exact Hstale|]. split; [exact Hlive|].
  intros r w' p input shared Hrun Hin Hnin.
  destruct (decide (fdconns lp !! fd cv = Some v)) as [Heq|Hne].
  - destruct (Hlive Heq) as (w2 & Hrun2 & Htr). rewrite Hrun2 in Hrun.
    injection Hrun as <- <-. rewrite Htr in Hin.
    apply elem_of_app in Hin as [Hin|Hin]; [done|].
    destruct (Data (events s)); [|by apply elem_of_nil in Hin].
    apply list_elem_of_singleton in Hin. by injection Hin as -> -> ->.
  - rewrite (Hstale Hne) in Hrun. by injection Hrun as <- <-.
Qed.

Lemma stale_wake_dropped_witness :
  loops ex_stale_world !! 0%nat = Some (ex_loop 0 ReadOnly) ∧
  heap ex_stale_world !! 2%positive = Some (ex_conn [] ActNone) ∧
  fdconns (ex_loop 0 ReadOnly) !! fd (ex_conn [] ActNone) ≠ Some 2%positive ∧
  dispatch (ex_server Random) 0 0 (NoteConn 2%positive)
    (ex_oracle (WriteOk 0) (ReadOk [])) ex_stale_world
  = Some (None, ex_stale_world).
Proof.
  split; [reflexivity|]. split; [reflexivity|].
  assert (Hne : fdconns (ex_loop 0 ReadOnly) !! fd (ex_conn [] ActNone)
                ≠ Some 2%positive) by (vm_compute; congruence).
  split; [exact Hne|].
  exact (proj1 (stale_wake_dropped (ex_server Random) 0 2%positive
                  (ex_oracle (WriteOk 0) (ReadOk [])) ex_stale_world
                  (ex_loop 0 ReadOnly) (ex_conn [] ActNone)
                  eq_refl eq_refl) Hne).
Defined.

Lemma lookup_loop_insert (ls : list loop) (l : nat) (lp lp' : loop) :
  ls !! l = Some lp → <[l := lp']> ls !! l = Some lp'.
Proof. intros H. apply list_lookup_insert_eq. by eapply lookup_lt_Some. Qed.

Lemma mapped_insert w w' l lp lp' k :
  loops w !! l = Some lp →
  loops w' = <[l := lp']> (loops w) →
  mapped w' l k = fdconns lp' !! k.
Proof.
  intros Hl Hw. unfold mapped. rewrite Hw.
  by rewrite (lookup_loop_insert _ _ _ _ Hl).
Qed.

Lemma out_installed_nonempty o' a' cv :
  o' ≠ [] → out (installed (o', a') cv) = o'.
Proof.
  intros Hne. unfold installed, len. cbn [fst snd].
  destruct (Z.ltb_spec 0 (Z.of_nat (length o'))) as [_|Hle]; [done|].
  destruct o'; [done | cbn [length] in Hle; lia].
Qed.

Lemma out_installed_from_empty r cv :
  out cv = [] → out (installed r cv) = r.1.
Proof.
  intros He. unfold installed, len.
  destruct (Z.ltb_spec 0 (Z.of_nat (length r.1))) as [_|Hle]; [done|].
  cbn. rewrite He. destruct r.1; [done | cbn [length] in Hle; lia].
Qed.

Lemma action_installed r cv : action (installed r cv) = r.2.
Proof. unfold installed. by destruct (0 <? len r.1). Qed.

Lemma app_not_suffix_self {A} (xs ys : list A) : xs ≠ [] → ys ≠ xs ++ ys.
Proof.
  intros Hne Heq. apply (f_equal length) in Heq. rewrite length_app in Heq.
  destruct xs; [done | cbn [length] in Heq; lia].
Qed.

(** ** New output over an unwritten tail (C9) *)

(** C9: for a connection whose [out] still holds bytes (such as the tail a
    partial write has left), a [Data] call that returns non-empty bytes, made
    by the wake path or by the read path, leaves [out] equal to the returned
    bytes alone: the bytes that were pending are dropped, not kept in front
    of the new ones. *)
Theorem data_output_replaces_unwritten_tail s l c o w lp cv f :
  Data (events s) = Some f →
  loops w !! l = Some lp →
  heap w !! c = Some cv →
  out cv ≠ [] →
  (∀ out' a',
     f cv [] = (out', a') → out' ≠ [] →
     ∃ w' cv',
       loopWake s l c w = Some (None, w') ∧
       heap w' !! c = Some cv' ∧
       out cv' = out' ∧ out cv' ≠ out cv ++ out') ∧
  (∀ data out' a',
     o_read o = ReadOk data →
     take (length (packet lp)) data ≠ [] →
     f cv (take (length (packet lp)) data) = (out', a') → out' ≠ [] →
     ∃ w' cv',
       loopRead s l c o w = Some (None, w') ∧
       heap w' !! c = Some cv' ∧
       out cv' = out' ∧ out cv' ≠ out cv ++ out').
Proof.
  intros Hd Hl Hc Hout. split.
  - intros out' a' Hf Hne.
    rewrite (loopWake_run s l c w lp cv f Hd Hl Hc). rewrite Hf.
    eexists _, _. split; [reflexivity|]. cbn [heap].
    rewrite lookup_insert_eq. split; [reflexivity|].
    rewrite out_installed_nonempty by done.
    split; [done|]. by apply app_not_suffix_self.
  - intros data out' a' Ho Hdata Hf Hne.
    rewrite (loopRead_data s l c o w lp cv data Hl Hc Ho Hdata).
    rewrite Hd, Hf. eexists _, _. split; [reflexivity|]. cbn [heap].
    rewrite lookup_insert_eq. split; [reflexivity|].
    rewrite out_installed_nonempty by done.
    split; [done|]. by apply app_not_suffix_self.
Qed.

Lemma data_output_replaces_unwritten_tail_witness :
  ∃ w' cv',
    loopRead (ex_server Random) 0 1%positive
      (ex_oracle (WriteOk 0) (ReadOk [Byte.x68; Byte.x69]))
      (ex_world [Byte.x6c; Byte.x6f] ActNone ReadWrite) = Some (None, w') ∧
    heap w' !! 1%positive = Some cv' ∧
    out cv' = [Byte.x68; Byte.x69] ∧
    out cv' ≠ [Byte.x6c; Byte.x6f] ++ [Byte.x68; Byte.x69].
Proof.
  destruct (data_output_replaces_unwritten_tail (ex_server Random) 0 1%positive
              (ex_oracle (WriteOk 0) (ReadOk [Byte.x68; Byte.x69]))
              (ex_world [Byte.x6c; Byte.x6f] ActNone ReadWrite)
              (ex_loop 0 ReadWrite) (ex_conn [Byte.x6c; Byte.x6f] ActNone)
              _ eq_refl eq_refl eq_refl ltac:(discriminate)) as [_ Hread].
  apply (Hread [Byte.x68; Byte.x69] [Byte.x68; Byte.x69] ActNone);
    [reflexivity | discriminate | reflexivity | discriminate].
Defined.

(** ** Outcomes of the write path (C4) *)

(** C4: the write path makes one [write] of all of [c.out] (after
    [PreWrite], when set).  If the kernel took [k] bytes, [out] becomes empty
    when [k] covers it and is the unwritten tail [out[k:]] otherwise, and the
    connection stays mapped.  On [EAGAIN] nothing but the log changes.  On
    any other error the connection leaves [fdconns], its fd is closed and
    [Closed] is called with that error. *)
Theorem loopWrite_outcomes s l c o w lp cv :
  loops w !! l = Some lp →
  heap w !! c = Some cv →
  out cv ≠ [] →
  match o_write o with
  | WriteOk k =>
      ∃ w' cv',
        loopWrite s l c o w = Some (None, w') ∧
        trace w' = trace w ++ prewrite_call s ++ [SysWrite (fd cv) (out cv)] ∧
        heap w' !! c = Some cv' ∧
        ((length (out cv) ≤ k)%nat → out cv' = []) ∧
        ((k < length (out cv))%nat → out cv' = drop k (out cv)) ∧
        mapped w' l (fd cv) = mapped w l (fd cv)
  | WriteErr e =>
      if decide (e = EAGAIN) then
        ∃ w',
          loopWrite s l c o w = Some (None, w') ∧
          trace w' = trace w ++ prewrite_call s ++ [SysWrite (fd cv) (out cv)] ∧
          heap w' = heap w ∧ loops w' = loops w
      else
        ∃ r w',
          loopWrite s l c o w = Some (r, w') ∧
          mapped w' l (fd cv) = None ∧
          trace w' = trace w ++ prewrite_call s ++
                     [SysWrite (fd cv) (out cv); SysClose (fd cv)] ++
                     closed_call s c (Some (Errno e))
  end.
Proof.
  intros Hl Hc Hout. destruct (o_write o) as [k|e] eqn:Ho.
  - rewrite (loopWrite_ok s l c o w lp cv k Hl Hc Ho).
    eexists _, _. split; [reflexivity|]. cbn [trace heap].
    split; [reflexivity|]. rewrite lookup_insert_eq. split; [reflexivity|].
    cbn [out set_out]. split; [|split; [done|]].
    + intros Hk. by apply drop_ge.
    + erewrite mapped_insert by (try eassumption; reflexivity).
      unfold mapped. rewrite Hl. cbn.
      by destruct (idle _).
  - pose proof (loopWrite_err s l c o w lp cv e Hl Hc Ho) as H.
    destruct (decide (e = EAGAIN)).
    + rewrite H. eexists. by split.
    + destruct H as [r H]. rewrite H. eexists _, _. split; [reflexivity|].
      split; [|done].
      erewrite mapped_insert by (try eassumption; reflexivity).
      cbn. apply lookup_delete_eq.
Qed.

Lemma loopWrite_outcomes_witness :
  ∃ w' cv',
    loopWrite (ex_server Random) 0 1%positive
      (ex_oracle (WriteOk 1) (ReadOk []))
      (ex_world [Byte.x68; Byte.x69] ActNone ReadWrite) = Some (None, w') ∧
    heap w' !! 1%positive = Some cv' ∧
    out cv' = [Byte.x69].
Proof.
  destruct (loopWrite_outcomes (ex_server Random) 0 1%positive
              (ex_oracle (WriteOk 1) (ReadOk []))
              (ex_world [Byte.x68; Byte.x69] ActNone ReadWrite)
              (ex_loop 0 ReadWrite) (ex_conn [Byte.x68; Byte.x69] ActNone)
              eq_refl eq_refl ltac:(discriminate))
    as (w' & cv' & Hrun & _ & Hh & _ & Htail & _).
  exists w', cv'. split; [exact Hrun|]. split; [exact Hh|].
  apply Htail. cbn. lia.
Defined.

(** ** Outcomes of the read path (C6) *)

(** C6: for a connection that reaches the read path (its [out] is empty),
    the loop makes one [read] into its [packet] buffer.  On [EAGAIN] nothing
    but the log changes.  On another error, or when no byte was read, the
    connection leaves [fdconns], its fd is closed and [Closed] is called (with
    the error, or nil at end of stream).  When [n > 0] bytes were read they
    are the front of [packet]; [Data] is called with them, sharing the buffer
    exactly when [c.reuse] is set, and the bytes and action it returns become
    [c.out] and [c.action]. *)
Theorem loopRead_outcomes s l c o w lp cv :
  loops w !! l = Some lp →
  heap w !! c = Some cv →
  out cv = [] →
  match o_read o with
  | ReadErr e =>
      if decide (e = EAGAIN) then
        ∃ w',
          loopRead s l c o w = Some (None, w') ∧
          trace w' = trace w ++ [SysRead (fd cv)] ∧
          heap w' = heap w ∧ loops w' = loops w
      else
        ∃ r w',
          loopRead s l c o w = Some (r, w') ∧
          mapped w' l (fd cv) = None ∧
          trace w' = trace w ++ [SysRead (fd cv); SysClose (fd cv)] ++
                     closed_call s c (Some (Errno e))
  | ReadOk data =>
      let d := take (length (packet lp)) data in
      if decide (d = []) then
        ∃ r w',
          loopRead s l c o w = Some (r, w') ∧
          mapped w' l (fd cv) = None ∧
          trace w' = trace w ++ [SysRead (fd cv); SysClose (fd cv)] ++
                     closed_call s c None
      else
        ∃ w' lp',
          loopRead s l c o w = Some (None, w') ∧
          loops w' !! l = Some lp' ∧
          take (length d) (packet lp') = d ∧
          fdconns lp' = fdconns lp ∧
          match Data (events s) with
          | Some f =>
              trace w' = trace w ++ [SysRead (fd cv); CallData c d (reuse cv)] ∧
              ∃ cv', heap w' !! c = Some cv' ∧
                     out cv' = (f cv d).1 ∧ action cv' = (f cv d).2
          | None =>
              trace w' = trace w ++ [SysRead (fd cv)] ∧ heap w' = heap w
          end
  end.
Proof.
  intros Hl Hc Hout. destruct (o_read o) as [data|e] eqn:Ho.
  - cbn zeta. destruct (decide (take (length (packet lp)) data = [])) as [Hd|Hd].
    + destruct (loopRead_eof s l c o w lp cv data Hl Hc Ho Hd) as [r H].
      rewrite H. eexists _, _. split; [reflexivity|]. split; [|done].
      erewrite mapped_insert by (try eassumption; reflexivity).
      cbn. apply lookup_delete_eq.
    + rewrite (loopRead_data s l c o w lp cv data Hl Hc Ho Hd).
      set (d := take (length (packet lp)) data) in *.
      destruct (Data (events s)) as [f|].
      * eexists _, _. split; [reflexivity|]. cbn [loops trace heap].
        split; [by eapply lookup_loop_insert|].
        split; [by destruct (busy _); cbn; rewrite take_app_length|].
        split; [by destruct (busy _)|]. split; [done|].
        eexists. rewrite lookup_insert_eq. split; [reflexivity|].
        by rewrite out_installed_from_empty, action_installed.
      * eexists _, _. split; [reflexivity|]. cbn [loops trace heap].
        split; [by eapply lookup_loop_insert|].
        split; [by destruct (busy _); cbn; rewrite take_app_length|].
        split; [by destruct (busy _)|]. done.
  - pose proof (loopRead_err s l c o w lp cv e Hl Hc Ho) as H.
    destruct (decide (e = EAGAIN)).
    + rewrite H. eexists. by split.
    + destruct H as [r H]. rewrite H. eexists _, _. split; [reflexivity|].
      split; [|done].
      erewrite mapped_insert by (try eassumption; reflexivity).
      cbn. apply lookup_delete_eq.
Qed.

Lemma loopRead_outcomes_witness :
  ∃ w' lp',
    loopRead (ex_server Random) 0 1%positive
      (ex_oracle (WriteOk 0) (ReadOk [Byte.x68; Byte.x69]))
      (ex_world [] ActNone ReadOnly) = Some (None, w') ∧
    loops w' !! 0%nat = Some lp' ∧
    take 2 (packet lp') = [Byte.x68; Byte.x69] ∧
    trace w' = [SysRead 5; CallData 1%positive [Byte.x68; Byte.x69] false] ∧
    ∃ cv', heap w' !! 1%positive = Some cv' ∧
           out cv' = [Byte.x68; Byte.x69] ∧ action cv' = ActNone.
Proof.
  destruct (loopRead_outcomes (ex_server Random) 0 1%positive
              (ex_oracle (WriteOk 0) (ReadOk [Byte.x68; Byte.x69]))
              (ex_world [] ActNone ReadOnly)
              (ex_loop 0 ReadOnly) (ex_conn [] ActNone)
              eq_refl eq_refl eq_refl)
    as (w' & lp' & Hrun & Hl & Hpk & _ & Htr & Hcv).
  exists w', lp'. repeat split; assumption.
Defined.

(** ** Datagrams *)

(** When [recvfrom] on a datagram listener delivers a non-empty datagram
    [d] from the address [from] and [Data] is set, the loop allocates a new
    connection object whose local address is the listener's and whose remote
    address is made from [from] (as it is for an inet6 sender; an inet4
    sender's four bytes and port are put in an inet6 address), calls [Data]
    once on it with a copy of [d], and, when [Data] returns bytes, sends them
    with one [sendto] to [from].  [fdconns] and [count] of every loop are
    unchanged. *)
Theorem loopUDPRead_datagram s l i fd o w lp ln f data from :
  Data (events s) = Some f →
  loops w !! l = Some lp →
  lns s !! i = Some ln →
  o_recvfrom o = RecvOk data from →
  take (length (packet lp)) data ≠ [] →
  let d := take (length (packet lp)) data in
  let c := fresh (dom (heap w)) in
  let cv := set_addrs (Z.of_nat i) (lnaddr ln)
              (SockaddrToAddr (Some (udp_sa6 from))) conn_zero in
  ∃ r w' lp',
    loopUDPRead s l (Z.of_nat i) fd o w = Some (r, w') ∧
    heap w !! c = None ∧
    heap w' = <[c := cv]> (heap w) ∧
    localAddr cv = lnaddr ln ∧
    remoteAddr cv = SockaddrToAddr (Some (udp_sa6 from)) ∧
    (∀ port zone addr, from = Some (SockaddrInet6 port zone addr) →
       remoteAddr cv = SockaddrToAddr from) ∧
    (∀ port a0 a1 a2 a3, from = Some (SockaddrInet4 port (a0, a1, a2, a3)) →
       remoteAddr cv = SockaddrToAddr
         (Some (SockaddrInet6 port 0 (repeat Byte.x00 12 ++ [a0; a1; a2; a3])))) ∧
    trace w' = trace w ++ [SysRecvfrom fd; CallData c d false] ++
               (if decide ((f cv d).1 = []) then []
                else prewrite_call s ++ [SysSendto fd (f cv d).1 from]) ∧
    loops w' !! l = Some lp' ∧
    fdconns lp' = fdconns lp ∧
    count lp' = count lp ∧
    (∀ l', l' ≠ l → loops w' !! l' = loops w !! l').
Proof.
  intros Hd Hl Hln Ho Hne d c cv.
  assert (Hfresh : heap w !! c = None) by apply fresh_ptr_unused.
  assert (Hrun : ∃ r, loopUDPRead s l (Z.of_nat i) fd o w =
    Some (r, {| loops := <[l := set_packet (d ++ drop (length d) (packet lp)) lp]>
                           (loops w);
                accepted := accepted w;
                heap := <[c := cv]> (heap w);
                trace := trace w ++ [SysRecvfrom fd; CallData c d false] ++
                         (if decide ((f cv d).1 = []) then []
                          else prewrite_call s ++
                               [SysSendto fd (f cv d).1 from]) |})).
  { unfold loopUDPRead. mrun. rewrite Ho. cbn [sys_recvfrom]. fold d. mrun.
    rewrite bool_decide_eq_false_2 by (intros H; by apply H).
    assert (Hlen : length d ≠ 0%nat)
      by (intros H0; apply Hne; by apply nil_length_inv).
    destruct (Z.eqb_spec (Z.of_nat (length d)) 0) as [Hz|_]; [lia|].
    cbn [orb]. rewrite Hd. mrun.
    erewrite bind_index by (try lia; rewrite Nat2Z.id; eassumption).
    mrun. rewrite bind_slice_to_front. mrun. normw. fold c. fold cv.
    destruct (f cv d) as [o' a'] eqn:Hf. cbn [fst snd].
    unfold len. destruct o' as [|b o'].
    - cbn [length Z.of_nat Z.ltb Z.compare when]. mrun.
      destruct (decide ([] = [])); [|done].
      destruct a'; eexists; unfold ret; normw; reflexivity.
    - destruct (Z.ltb_spec 0 (Z.of_nat (length (b :: o')))) as [_|Hle];
        [|cbn [length] in Hle; lia].
      cbn [when]. rewrite bind_bind, bind_prewrite. mrun.
      destruct (decide (b :: o' = [])); [done|].
      destruct a'; eexists; unfold ret; normw; reflexivity. }
  destruct Hrun as [r Hrun]. rewrite Hrun.
  eexists r, _, _. split; [reflexivity|]. cbn [loops heap trace].
  split; [exact Hfresh|]. split; [reflexivity|].
  split; [reflexivity|]. split; [reflexivity|].
  split; [by intros port zone addr ->|].
  split; [by intros port a0 a1 a2 a3 ->|].
  split; [reflexivity|].
  split; [by eapply lookup_loop_insert|].
  split; [reflexivity|]. split; [reflexivity|].
  intros l' Hl'. by rewrite list_lookup_insert_ne.
Qed.

Lemma loopUDPRead_datagram_witness :
  ∃ r w',
    loopUDPRead (ex_server Random) 0 1 4 (ex_oracle (WriteOk 0) (ReadOk []))
      (ex_world [] ActNone ReadOnly) = Some (r, w') ∧
    trace w' =
      [SysRecvfrom 4; CallData 2%positive [Byte.x68; Byte.x69] false;
       SysSendto 4 [Byte.x68; Byte.x69]
         (Some (SockaddrInet4 4244 (Byte.x7f, Byte.x00, Byte.x00, Byte.x01)))].
Proof.
  destruct (loopUDPRead_datagram (ex_server Random) 0 1 4
              (ex_oracle (WriteOk 0) (ReadOk []))
              (ex_world [] ActNone ReadOnly) (ex_loop 0 ReadOnly)
              {| ln_fd := 4; ln_network := UDP; lnaddr := NetAddr [] [] |}
              _ [Byte.x68; Byte.x69]
              (Some (SockaddrInet4 4244 (Byte.x7f, Byte.x00, Byte.x00, Byte.x01)))
              eq_refl eq_refl eq_refl eq_refl ltac:(discriminate))
    as (r & w' & lp' & Hrun & _ & _ & _ & _ & _ & _ & Htr & _).
  exists r, w'. split; [exact Hrun|]. exact Htr.
Defined.

(** ** The order of the dispatch (C2) *)

(** C2: a dispatch for an fd other than the sentinel 0 takes the first of
    these that applies: with no connection mapped for the fd, the accept
    path; with a connection not yet opened, the open path; with a non-empty
    [out], the write path; with an action other than [None] pending, the
    action path; and the read path otherwise. *)
Theorem dispatch_order s l fd n o w lp :
  fd ≠ 0 →
  loops w !! l = Some lp →
  (fdconns lp !! fd = None →
     dispatch s l fd n o w = loopAccept s l fd o w) ∧
  (∀ c cv,
     fdconns lp !! fd = Some c → heap w !! c = Some cv →
     (opened cv = false →
        dispatch s l fd n o w = loopOpened s l c w) ∧
     (opened cv = true → out cv ≠ [] →
        dispatch s l fd n o w = loopWrite s l c o w) ∧
     (opened cv = true → out cv = [] → action cv ≠ ActNone →
        dispatch s l fd n o w = loopAction s l c o w) ∧
     (opened cv = true → out cv = [] → action cv = ActNone →
        dispatch s l fd n o w = loopRead s l c o w)).
Proof.
  intros Hfd Hl. unfold dispatch.
  destruct (Z.eqb_spec fd 0) as [|_]; [done|]. mrun. split.
  - by intros ->.
  - intros c cv -> Hc. mrun. unfold len. repeat split.
    + by intros ->.
    + intros -> Hout. cbn [negb].
      destruct (Z.ltb_spec 0 (Z.of_nat (length (out cv)))) as [_|Hle]; [done|].
      destruct (out cv); [done | cbn [length] in Hle; lia].
    + intros -> -> Ha. cbn [negb length]. change (0 <? Z.of_nat 0) with false.
      cbn match. by rewrite bool_decide_eq_false_2.
    + intros -> -> Ha. cbn [negb length]. change (0 <? Z.of_nat 0) with false.
      cbn match. by rewrite bool_decide_eq_true_2.
Qed.

Lemma dispatch_order_witness :
  dispatch (ex_server Random) 0 5 NoteOther (ex_oracle (WriteOk 1) (ReadOk []))
    (ex_world [Byte.x68] Close ReadWrite)
  = loopWrite (ex_server Random) 0 1%positive (ex_oracle (WriteOk 1) (ReadOk []))
      (ex_world [Byte.x68] Close ReadWrite).
Proof.
  destruct (dispatch_order (ex_server Random) 0 5 NoteOther
              (ex_oracle (WriteOk 1) (ReadOk []))
              (ex_world [Byte.x68] Close ReadWrite) (ex_loop 0 ReadWrite)
              ltac:(discriminate) eq_refl) as [_ H].
  destruct (H 1%positive (ex_conn [Byte.x68] Close) eq_refl eq_refl)
    as (_ & Hw & _).
  apply Hw; [reflexivity | discriminate].
Defined.

(** ** Round-robin accepts *)

Lemma loopAccept_take_accepted s l i ln fd o w lp r w' :
  loops w !! l = Some lp →
  loopAccept_take s l i ln fd o w = Some (r, w') →
  accepted w' = accepted w.
Proof.
  intros Hl. destruct (has_pconn ln) eqn:Hu.
  - unfold loopAccept_take. rewrite Hu. intros H.
    by destruct (loopUDPRead_frame _ _ _ _ _ _ _ _ _ Hl H) as (? & ? & ? & ? & ?).
  - destruct (o_accept o) as [nfd sa|e] eqn:Ha.
    + destruct (o_setnonblock o) as [e|] eqn:Hn.
      * destruct (loopAccept_take_fail s l i ln fd o w Hu) as (r1 & t & H1).
        { intros ? ? _. by rewrite Hn. }
        rewrite H1. by intros [= <- <-].
      * rewrite (loopAccept_take_conn s l i ln fd o w lp nfd sa Hu Hl Ha Hn).
        by intros [= <- <-].
    + destruct (loopAccept_take_fail s l i ln fd o w Hu) as (r1 & t & H1).
      { intros ? ? H. by rewrite Ha in H. }
      rewrite H1. by intros [= <- <-].
Qed.

Lemma find_listener_lookup fd j ls i ln :
  find_listener fd j ls = Some (i, ln) →
  (j ≤ i)%nat ∧ ls !! (i - j)%nat = Some ln.
Proof.
  revert j. induction ls as [|x ls IH]; intros j; cbn [find_listener]; [done|].
  destruct (ln_fd x =? fd).
  - intros [= <- <-]. split; [lia|]. by rewrite Nat.sub_diag.
  - intros H. destruct (IH _ H) as [Hle Hl]. split; [lia|].
    replace (i - j)%nat with (S (i - S j)) by lia. done.
Qed.

Lemma loopUDPRead_total s l i fd o w lp ln :
  loops w !! l = Some lp →
  lns s !! i = Some ln →
  ∃ r w', loopUDPRead s l (Z.of_nat i) fd o w = Some (r, w').
Proof.
  intros Hl Hln. unfold loopUDPRead. mrun.
  destruct (o_recvfrom o) as [data from|e]; cbn [sys_recvfrom]; mrun.
  2:{ rewrite bool_decide_eq_true_2 by done. cbn [orb]. eauto. }
  rewrite bool_decide_eq_false_2 by (intros H; by apply H). cbn [orb].
  destruct (Z.of_nat (length (take (length (packet lp)) data)) =? 0); [eauto|].
  destruct (Data (events s)) as [f|]; [|eauto]. mrun.
  erewrite bind_index by (try lia; rewrite Nat2Z.id; eassumption).
  mrun. rewrite bind_slice_to_front. mrun.
  match goal with |- context [f ?a ?b] => destruct (f a b) as [o' a'] end.
  destruct (0 <? len o').
  - cbn [when]. rewrite bind_bind, bind_prewrite. mrun. destruct a'; eauto.
  - mrun. destruct a'; eauto.
Qed.

Lemma loopAccept_take_total s l i ln fd o w lp :
  loops w !! l = Some lp →
  lns s !! i = Some ln →
  ∃ r w', loopAccept_take s l i ln fd o w = Some (r, w').
Proof.
  intros Hl Hln. destruct (has_pconn ln) eqn:Hu.
  { unfold loopAccept_take. rewrite Hu. by eapply loopUDPRead_total. }
  destruct (o_accept o) as [nfd sa|e] eqn:Ha.
  - destruct (o_setnonblock o) as [e|] eqn:Hn.
    + destruct (loopAccept_take_fail s l i ln fd o w Hu) as (r1 & t & H1).
      { intros ? ? _. by rewrite Hn. }
      eauto.
    + rewrite (loopAccept_take_conn s l i ln fd o w lp nfd sa Hu Hl Ha Hn).
      eauto.
  - destruct (loopAccept_take_fail s l i ln fd o w Hu) as (r1 & t & H1).
    { intros ? ? H. by rewrite Ha in H. }
    eauto.
Qed.

(** The round-robin branch of [loopAccept], for a counter below [2^63]. *)
Lemma loopAccept_round_robin s l fd o w lp i ln :
  balance s = RoundRobin →
  (1 < length (loops w))%nat →
  loops w !! l = Some lp →
  find_listener fd 0 (lns s) = Some (i, ln) →
  0 ≤ accepted w < 2 ^ 63 →
  loopAccept s l fd o w =
    if decide (accepted w mod Z.of_nat (length (loops w)) = idx lp)
    then loopAccept_take s l i ln fd o (set_accepted (λ a, a + 1) w)
    else Some (None, w).
Proof.
  intros Hb Hn Hl Hfd Hacc. unfold loopAccept. rewrite Hfd. mrun. rewrite Hb.
  unfold len. destruct (Z.ltb_spec 1 (Z.of_nat (length (loops w)))); [|lia].
  unfold int_of_uintptr.
  destruct (Z.ltb_spec (accepted w) (2 ^ 63)); [|lia].
  rewrite Z.rem_mod_nonneg by lia.
  destruct (decide (accepted w mod Z.of_nat (length (loops w)) = idx lp))
    as [Heq|Hne].
  - rewrite Heq, Z.eqb_refl. cbn [negb]. f_equal. unfold set_accepted.
    f_equal. unfold wrap_uintptr. apply Z.mod_small. lia.
  - destruct (Z.eqb_spec (accepted w mod Z.of_nat (length (loops w))) (idx lp));
      [done|]. reflexivity.
Qed.

(** The round-robin branch, for a counter below [2^63]: with more than one
    loop, a readable listener on loop [i] is left alone, and the counter with
    it, unless [accepted mod N = i]; when [accepted mod N = i] the dispatch
    returns with the counter incremented once: the increment comes before
    the [accept] (or [recvfrom]) is attempted, so whatever the attempt gives,
    a connection, [EAGAIN] or an error.  The world changes only on the loop
    whose turn it is. *)
Theorem round_robin_counts_attempts s l fd o w lp i ln :
  balance s = RoundRobin →
  (1 < length (loops w))%nat →
  loops w !! l = Some lp →
  find_listener fd 0 (lns s) = Some (i, ln) →
  0 ≤ accepted w < 2 ^ 63 →
  let N := Z.of_nat (length (loops w)) in
  (accepted w mod N ≠ idx lp → loopAccept s l fd o w = Some (None, w)) ∧
  (accepted w mod N = idx lp →
     ∃ r w', loopAccept s l fd o w = Some (r, w') ∧
             accepted w' = accepted w + 1) ∧
  (∀ r w', loopAccept s l fd o w = Some (r, w') → w' ≠ w →
           accepted w mod N = idx lp).
Proof.
  intros Hb Hn Hl Hfd Hacc N.
  pose proof (loopAccept_round_robin s l fd o w lp i ln Hb Hn Hl Hfd Hacc) as H.
  fold N in H. destruct (decide (accepted w mod N = idx lp)) as [Heq|Hne].
  - split; [done|]. split; [|done]. intros _. rewrite H.
    destruct (find_listener_lookup _ _ _ _ _ Hfd) as [_ Hln].
    rewrite Nat.sub_0_r in Hln.
    destruct (loopAccept_take_total s l i ln fd o
                (set_accepted (λ a, a + 1) w) lp Hl Hln) as (r & w' & Hrun).
    exists r, w'. split; [exact Hrun|].
    by rewrite (loopAccept_take_accepted _ _ _ _ _ _
                  (set_accepted (λ a, a + 1) w) lp _ _ Hl Hrun).
  - split; [done|]. split; [done|]. intros r w' Hrun Hw'.
    rewrite H in Hrun. by injection Hrun as <- <-.
Qed.

Lemma round_robin_counts_attempts_witness :
  ∃ r w',
    loopAccept (ex_server RoundRobin) 0 3 ex_eagain_oracle ex_rr_world
    = Some (r, w') ∧ accepted w' = 1.
Proof.
  destruct (round_robin_counts_attempts (ex_server RoundRobin) 0 3
              ex_eagain_oracle ex_rr_world _ 0%nat _
              eq_refl ltac:(cbn; lia) eq_refl eq_refl ltac:(cbn; lia))
    as (_ & H & _).
  exact (H eq_refl).
Defined.

(** The counter does not stay put when the accept attempt adds no
    connection.  With two loops and the counter at 0, loop 0 is woken for
    listener 3 and [accept] answers [EAGAIN]: no connection is added, and
    the counter is 1 afterwards. *)
Lemma round_robin_counter_not_per_connection :
  ¬ (∀ s l fd o w r w',
       balance s = RoundRobin →
       (1 < length (loops w))%nat →
       loopAccept s l fd o w = Some (r, w') →
       (fdconns <$> loops w') = (fdconns <$> loops w) →
       accepted w' = accepted w).
Proof.
  intros H.
  specialize (H (ex_server RoundRobin) 0%nat 3 ex_eagain_oracle ex_rr_world None
                (set_trace (λ t, t ++ [SysAccept 3])
                   (set_accepted (λ a, wrap_uintptr (a + 1)) ex_rr_world))
                eq_refl ltac:(cbn; lia) eq_refl eq_refl).
  vm_compute in H. discriminate H.
Qed.

(** ** [count] and [fdconns] (C3) *)

Lemma wrap32_small z : - 2 ^ 31 ≤ z < 2 ^ 31 → wrap32 z = z.
Proof. intros H. unfold wrap32. rewrite Z.mod_small; lia. Qed.

(** A map keyed by positive C ints has fewer than [2^31] entries. *)
Lemma fds_size_bound (m : gmap Z ptr) :
  (∀ k p, m !! k = Some p → 0 < k < 2 ^ 31) →
  Z.of_nat (size m) ≤ 2 ^ 31 - 1.
Proof.
  intros Hk.
  assert (Hsub : dom m ⊆ (list_to_set (seqZ 1 (2 ^ 31 - 1)) : gset Z)).
  { intros k Hin. apply elem_of_dom in Hin as [p Hp]. apply Hk in Hp.
    apply elem_of_list_to_set, elem_of_seqZ. lia. }
  apply subseteq_size in Hsub. rewrite size_dom in Hsub.
  rewrite size_list_to_set in Hsub by apply NoDup_seqZ.
  rewrite length_seqZ in Hsub. lia.
Qed.

Lemma footprint_inv l lp w w' :
  loops w !! l = Some lp →
  footprint l lp w w' →
  conns_wf w ∧ count_inv w →
  conns_wf w' ∧ count_inv w'.
Proof.
  intros Hl (lp' & Hloops & Hext & Hch) [Hwf Hcnt].
  assert (Hlt : (l < length (loops w))%nat) by by eapply lookup_lt_Some.
  assert (Hother : ∀ l1 lp1, loops w' !! l1 = Some lp1 → l1 ≠ l →
                             loops w !! l1 = Some lp1).
  { intros l1 lp1 H1 Hne. rewrite Hloops in H1.
    by rewrite list_lookup_insert_ne in H1. }
  assert (Hsame : ∀ lp1, loops w' !! l = Some lp1 → lp1 = lp').
  { intros lp1 H1. rewrite Hloops, list_lookup_insert_eq in H1 by done.
    by injection H1. }
  assert (Hwf_lp : ∀ k p, fdconns lp !! k = Some p → 0 < k < 2 ^ 31).
  { intros k p Hk. by destruct (Hwf l lp k p Hl Hk). }
  split.
  - intros l1 lp1 k p H1 Hk. destruct (decide (l1 = l)) as [->|Hne].
    + apply Hsame in H1 as ->.
      assert (Hold : ∀ k p, fdconns lp !! k = Some p →
                0 < k < 2 ^ 31 ∧ ∃ cv, heap w' !! p = Some cv ∧ fd cv = k).
      { intros k0 p0 Hk0. destruct (Hwf l lp k0 p0 Hl Hk0) as [? (cv & Hp & Hfd)].
        split; [done|]. destruct (Hext p0 cv Hp) as (cv' & ? & ?).
        exists cv'. split; [done | congruence]. }
      destruct Hch as [Hf _|k0 _ Hf _|k0 p0 cv0 _ Hr Hp0 Hfd0 Hf _];
        rewrite Hf in Hk.
      * by apply Hold.
      * apply lookup_delete_Some in Hk as [_ Hk]. by apply Hold.
      * apply lookup_insert_Some in Hk as [[<- <-]|[_ Hk]]; [eauto|].
        by apply Hold.
    + destruct (Hwf l1 lp1 k p (Hother _ _ H1 Hne) Hk) as [? (cv & Hp & Hfd)].
      split; [done|]. destruct (Hext p cv Hp) as (cv' & ? & ?).
      exists cv'. split; [done | congruence].
  - intros l1 lp1 H1. destruct (decide (l1 = l)) as [->|Hne].
    + apply Hsame in H1 as ->. pose proof (Hcnt l lp Hl) as Hc.
      pose proof (fds_size_bound (fdconns lp) Hwf_lp) as Hb.
      destruct Hch as [Hf Hn|k0 [p0 Hk0] Hf Hn|k0 p0 cv0 Hk0 Hr Hp0 Hfd0 Hf Hn];
        rewrite Hf, Hn.
      * done.
      * rewrite map_size_delete_Some by eauto.
        assert (size (fdconns lp) ≠ 0%nat).
        { intros Hz. apply map_size_empty_inv in Hz. rewrite Hz in Hk0.
          by rewrite lookup_empty in Hk0. }
        rewrite wrap32_small by lia. lia.
      * rewrite map_size_insert_None by done.
        assert (Hb' : Z.of_nat (size (<[k0 := p0]> (fdconns lp))) ≤ 2 ^ 31 - 1).
        { apply fds_size_bound. intros k p Hk.
          apply lookup_insert_Some in Hk as [[<- _]|[_ Hk]]; eauto. }
        rewrite map_size_insert_None in Hb' by done.
        rewrite wrap32_small by lia. lia.
    + apply (Hcnt l1). by apply Hother.
Qed.

Lemma heap_ext_refl h : heap_ext h h.
Proof. intros p cv H. eauto. Qed.

Lemma heap_ext_update h c cv cv' :
  h !! c = Some cv → fd cv' = fd cv → heap_ext h (<[c := cv']> h).
Proof.
  intros Hc Hfd p cv0 Hp. destruct (decide (p = c)) as [->|Hne].
  - rewrite lookup_insert_eq. exists cv'. split; [done | congruence].
  - rewrite lookup_insert_ne by done. eauto.
Qed.

Lemma heap_ext_fresh h p cv : h !! p = None → heap_ext h (<[p := cv]> h).
Proof.
  intros Hp q cv0 Hq. destruct (decide (q = p)) as [->|Hne]; [congruence|].
  rewrite lookup_insert_ne by done. eauto.
Qed.

Lemma footprint_same l lp w w' :
  loops w !! l = Some lp → loops w' = loops w → heap w' = heap w →
  footprint l lp w w'.
Proof.
  intros Hl Hloops Hheap. exists lp. rewrite Hloops, Hheap.
  split; [by rewrite list_insert_id|]. split; [apply heap_ext_refl|].
  by apply change_none.
Qed.

Lemma footprint_conn l lp lp' c cv cv' w w' :
  heap w !! c = Some cv → fd cv' = fd cv →
  loops w' = <[l := lp']> (loops w) →
  heap w' = <[c := cv']> (heap w) →
  fdconns lp' = fdconns lp → count lp' = count lp →
  footprint l lp w w'.
Proof.
  intros Hc Hfd Hloops Hheap Hf Hn. exists lp'. rewrite Hheap.
  split; [done|]. split; [by eapply heap_ext_update|]. by apply change_none.
Qed.

Lemma footprint_remove l lp lp' k w w' :
  is_Some (fdconns lp !! k) →
  loops w' = <[l := lp']> (loops w) →
  heap w' = heap w →
  fdconns lp' = delete k (fdconns lp) →
  count lp' = wrap32 (count lp + -1) →
  footprint l lp w w'.
Proof.
  intros Hk Hloops Hheap Hf Hn. exists lp'. rewrite Hheap.
  split; [done|]. split; [apply heap_ext_refl|]. by eapply change_remove.
Qed.

Lemma loopCloseConn_footprint s l c err w lp cv r w' :
  loops w !! l = Some lp →
  heap w !! c = Some cv →
  is_Some (fdconns lp !! fd cv) →
  loopCloseConn s l c err w = Some (r, w') →
  footprint l lp w w'.
Proof.
  intros Hl Hc Hk Hrun.
  destruct (loopCloseConn_run s l c err w lp cv Hl Hc)
    as (r1 & w1 & H1 & Hloops & Hheap & _).
  rewrite H1 in Hrun. injection Hrun as <- <-.
  by eapply footprint_remove.
Qed.

Lemma loopDetachConn_footprint s l c err o w lp cv r w' :
  loops w !! l = Some lp →
  heap w !! c = Some cv →
  is_Some (fdconns lp !! fd cv) →
  loopDetachConn s l c err o w = Some (r, w') →
  footprint l lp w w'.
Proof.
  intros Hl Hc Hk Hrun. destruct (Detached (events s)) as [f|] eqn:Hd.
  - destruct (loopDetachConn_run s l c err o w lp cv f Hd Hl Hc)
      as (r1 & w1 & H1 & Hloops & Hheap & _).
    rewrite H1 in Hrun. injection Hrun as <- <-.
    by eapply footprint_remove.
  - unfold loopDetachConn in Hrun. rewrite Hd in Hrun.
    by eapply loopCloseConn_footprint.
Qed.

Lemma loopWake_footprint s l c w lp cv r w' :
  loops w !! l = Some lp →
  heap w !! c = Some cv →
  loopWake s l c w = Some (r, w') →
  footprint l lp w w'.
Proof.
  intros Hl Hc Hrun. destruct (Data (events s)) as [f|] eqn:Hd.
  - rewrite (loopWake_run s l c w lp cv f Hd Hl Hc) in Hrun.
    injection Hrun as <- <-.
    eapply (footprint_conn l lp _ c cv (installed (f cv []) cv));
      cbn [loops heap]; try reflexivity; try done.
    + apply fd_installed.
    + by destruct (busy _).
    + by destruct (busy _).
  - unfold loopWake in Hrun. rewrite Hd in Hrun. injection Hrun as <- <-.
    by apply footprint_same.
Qed.

Lemma loopNote_footprint s l n w lp r w' :
  loops w !! l = Some lp →
  loopNote s l n w = Some (r, w') →
  footprint l lp w w'.
Proof.
  intros Hl. destruct n as [d|e|v|]; cbn [loopNote].
  - destruct (Tick (events s)) as [[delay a]|]; [|done]. mrun.
    destruct a; intros [= <- <-]; by apply footprint_same.
  - intros [= <- <-]. by apply footprint_same.
  - destruct (heap w !! v) as [cv|] eqn:Hv.
    + mrun. destruct (bool_decide _).
      * intros [= <- <-]. by apply footprint_same.
      * by eapply loopWake_footprint.
    + unfold bind, load. by rewrite Hv.
  - intros [= <- <-]. by apply footprint_same.
Qed.

Lemma loopAccept_take_footprint s l i ln fd o w lp r w' :
  loops w !! l = Some lp →
  accept_ok w l o →
  loopAccept_take s l i ln fd o w = Some (r, w') →
  footprint l lp w w'.
Proof.
  intros Hl Hok Hrun. destruct (has_pconn ln) eqn:Hu.
  - unfold loopAccept_take in Hrun. rewrite Hu in Hrun.
    destruct (loopUDPRead_frame _ _ _ _ _ _ _ _ _ Hl Hrun)
      as (pk & t & Hloops & _ & _ & Hheap).
    exists (set_packet pk lp). split; [done|]. split.
    + destruct Hheap as [->|[cvu ->]]; [apply heap_ext_refl|].
      apply heap_ext_fresh, fresh_ptr_unused.
    + by apply change_none.
  - destruct (o_accept o) as [nfd sa|e] eqn:Ha.
    + destruct (o_setnonblock o) as [e|] eqn:Hn.
      * destruct (loopAccept_take_fail s l i ln fd o w Hu) as (r1 & t & H1).
        { intros ? ? _. by rewrite Hn. }
        rewrite H1 in Hrun. injection Hrun as <- <-. by apply footprint_same.
      * rewrite (loopAccept_take_conn s l i ln fd o w lp nfd sa Hu Hl Ha Hn)
          in Hrun. injection Hrun as <- <-.
        destruct (Hok nfd sa lp Ha Hl) as [Hr Hfree].
        eexists. split; [reflexivity|]. cbn [heap]. split.
        -- apply heap_ext_fresh, fresh_ptr_unused.
        -- eapply (change_add _ _ _ nfd); try done.
           ++ apply lookup_insert_eq.
           ++ reflexivity.
    + destruct (loopAccept_take_fail s l i ln fd o w Hu) as (r1 & t & H1).
      { intros ? ? H. by rewrite Ha in H. }
      rewrite H1 in Hrun. injection Hrun as <- <-. by apply footprint_same.
Qed.

(** [loopAccept] leaves the world alone or takes from the listener, after
    having counted the attempt in round-robin mode. *)
Lemma loopAccept_cases s l fd o w lp r w' :
  loops w !! l = Some lp →
  loopAccept s l fd o w = Some (r, w') →
  (r = None ∧ w' = w) ∨
  ∃ i ln f, loopAccept_take s l i ln fd o (set_accepted f w) = Some (r, w').
Proof.
  intros Hl. unfold loopAccept.
  destruct (find_listener fd 0 (lns s)) as [[i ln]|].
  2:{ intros [= <- <-]. by left. }
  mrun.
  assert (Hid : set_accepted (λ a, a) w = w) by by destruct w.
  destruct (1 <? len (loops w)).
  - destruct (balance s).
    + intros H. right. exists i, ln, (λ a, a). by rewrite Hid.
    + destruct (negb _).
      * intros [= <- <-]. by left.
      * intros H. right. by exists i, ln, (λ a, wrap_uintptr (a + 1)).
    + destruct (existsb _ _).
      * intros [= <- <-]. by left.
      * intros H. right. exists i, ln, (λ a, a). by rewrite Hid.
  - intros H. right. exists i, ln, (λ a, a). by rewrite Hid.
Qed.

Lemma loopAccept_footprint s l fd o w lp r w' :
  loops w !! l = Some lp →
  accept_ok w l o →
  loopAccept s l fd o w = Some (r, w') →
  footprint l lp w w'.
Proof.
  intros Hl Hok Hrun.
  destruct (loopAccept_cases s l fd o w lp r w' Hl Hrun)
    as [[_ ->]|(i & ln & f & Htake)].
  - by apply footprint_same.
  - exact (loopAccept_take_footprint s l i ln fd o (set_accepted f w) lp r w'
             Hl Hok Htake).
Qed.

Lemma loopOpened_footprint s l c w lp cv r w' :
  loops w !! l = Some lp →
  heap w !! c = Some cv →
  loopOpened s l c w = Some (r, w') →
  footprint l lp w w'.
Proof.
  intros Hl Hc Hrun.
  destruct (decide (0 ≤ lnidx cv)) as [Hi|Hi].
  - destruct (lns s !! Z.to_nat (lnidx cv)) as [ln|] eqn:Hln.
    + rewrite (loopOpened_run s l c w lp cv ln Hl Hc Hi Hln) in Hrun.
      injection Hrun as <- <-.
      eapply (footprint_conn l lp _ c cv (opened_conn s ln cv));
        cbn [loops heap]; try reflexivity; try done.
      * apply fd_opened_conn.
      * by destruct (idle _).
      * by destruct (idle _).
    + exfalso. revert Hrun. unfold loopOpened. mrun.
      change (lnidx (set_opened true cv)) with (lnidx cv).
      unfold index. unfold bind at 1.
      destruct (lnidx cv <? 0); [done|]. by rewrite Hln.
  - exfalso. revert Hrun. unfold loopOpened. mrun.
    change (lnidx (set_opened true cv)) with (lnidx cv).
    unfold index. unfold bind at 1.
    destruct (Z.ltb_spec (lnidx cv) 0); [done | lia].
Qed.

Lemma loopWrite_footprint s l c o w lp cv r w' :
  loops w !! l = Some lp →
  heap w !! c = Some cv →
  is_Some (fdconns lp !! fd cv) →
  loopWrite s l c o w = Some (r, w') →
  footprint l lp w w'.
Proof.
  intros Hl Hc Hk Hrun. destruct (o_write o) as [k|e] eqn:Ho.
  - rewrite (loopWrite_ok s l c o w lp cv k Hl Hc Ho) in Hrun.
    injection Hrun as <- <-.
    eapply (footprint_conn l lp _ c cv (set_out (drop k (out cv)) cv));
      cbn [loops heap]; try reflexivity; try done.
    + by destruct (idle _).
    + by destruct (idle _).
  - pose proof (loopWrite_err s l c o w lp cv e Hl Hc Ho) as H.
    destruct (decide (e = EAGAIN)).
    + rewrite H in Hrun. injection Hrun as <- <-. by apply footprint_same.
    + destruct H as [r1 H]. rewrite H in Hrun. injection Hrun as <- <-.
      by eapply footprint_remove.
Qed.

Lemma loopAction_footprint s l c o w lp cv r w' :
  loops w !! l = Some lp →
  heap w !! c = Some cv →
  is_Some (fdconns lp !! fd cv) →
  loopAction s l c o w = Some (r, w') →
  footprint l lp w w'.
Proof.
  intros Hl Hc Hk Hrun. destruct (action cv) eqn:Ha.
  - rewrite (loopAction_none s l c o w lp cv Hl Hc Ha) in Hrun.
    injection Hrun as <- <-.
    eapply (footprint_conn l lp _ c cv (set_action ActNone cv));
      cbn [loops heap]; try reflexivity; try done.
    + by destruct (idle _).
    + by destruct (idle _).
  - unfold loopAction in Hrun. revert Hrun. mrun. rewrite Ha.
    by eapply loopDetachConn_footprint.
  - unfold loopAction in Hrun. revert Hrun. mrun. rewrite Ha.
    by eapply loopCloseConn_footprint.
  - unfold loopAction in Hrun. revert Hrun. mrun. rewrite Ha.
    intros [= <- <-]. by apply footprint_same.
Qed.

Lemma loopRead_footprint s l c o w lp cv r w' :
  loops w !! l = Some lp →
  heap w !! c = Some cv →
  is_Some (fdconns lp !! fd cv) →
  loopRead s l c o w = Some (r, w') →
  footprint l lp w w'.
Proof.
  intros Hl Hc Hk Hrun. destruct (o_read o) as [data|e] eqn:Ho.
  - destruct (decide (take (length (packet lp)) data = [])) as [Hd|Hd].
    + destruct (loopRead_eof s l c o w lp cv data Hl Hc Ho Hd) as [r1 H].
      rewrite H in Hrun. injection Hrun as <- <-. by eapply footprint_remove.
    + rewrite (loopRead_data s l c o w lp cv data Hl Hc Ho Hd) in Hrun.
      destruct (Data (events s)) as [f|]; injection Hrun as <- <-.
      * eapply (footprint_conn l lp _ c cv
                  (installed (f cv (take (length (packet lp)) data)) cv));
          cbn [loops heap]; try reflexivity; try done.
        -- apply fd_installed.
        -- by destruct (busy _).
        -- by destruct (busy _).
      * eexists. split; [reflexivity|]. cbn [heap].
        split; [apply heap_ext_refl|].
        apply change_none; by destruct (busy _).
  - pose proof (loopRead_err s l c o w lp cv e Hl Hc Ho) as H.
    destruct (decide (e = EAGAIN)).
    + rewrite H in Hrun. injection Hrun as <- <-. by apply footprint_same.
    + destruct H as [r1 H]. rewrite H in Hrun. injection Hrun as <- <-.
      by eapply footprint_remove.
Qed.

Lemma dispatch_footprint s l k n o w lp r w' :
  conns_wf w →
  loops w !! l = Some lp →
  accept_ok w l o →
  dispatch s l k n o w = Some (r, w') →
  footprint l lp w w'.
Proof.
  intros Hwf Hl Hok. unfold dispatch. destruct (k =? 0).
  { by apply loopNote_footprint. }
  mrun. destruct (fdconns lp !! k) as [c|] eqn:Hfd.
  2:{ by apply loopAccept_footprint. }
  destruct (Hwf l lp k c Hl Hfd) as [_ (cv & Hc & Hcfd)].
  assert (Hk : is_Some (fdconns lp !! fd cv)) by (rewrite Hcfd; eauto).
  mrun. destruct (negb (opened cv)).
  { by eapply loopOpened_footprint. }
  destruct (0 <? len (out cv)).
  { by eapply loopWrite_footprint. }
  destruct (negb _).
  { by eapply loopAction_footprint. }
  by eapply loopRead_footprint.
Qed.

Lemma serve_inv s numLoops :
  conns_wf (serve s numLoops) ∧ count_inv (serve s numLoops).
Proof.
  split.
  - intros l lp k p Hl Hk. cbn [serve loops] in Hl.
    apply list_lookup_fmap_Some in Hl as (i & -> & _).
    cbn [new_loop fdconns] in Hk. by rewrite lookup_empty in Hk.
  - intros l lp Hl. cbn [serve loops] in Hl.
    apply list_lookup_fmap_Some in Hl as (i & -> & _).
    cbn [new_loop fdconns count]. by rewrite map_size_empty.
Qed.

(** A dispatch for a loop the server does not have touches no loop and no
    connection. *)
Lemma dispatch_no_loop s l fd n o w r w' :
  loops w !! l = None →
  dispatch s l fd n o w = Some (r, w') →
  loops w' = loops w ∧ heap w' = heap w.
Proof.
  intros Hl. unfold dispatch. destruct (fd =? 0).
  - destruct n as [d|e|v|]; cbn [loopNote].
    + destruct (Tick (events s)) as [[delay a]|]; [|done]. mrun.
      by destruct a; intros [= <- <-].
    + by intros [= <- <-].
    + unfold bind, load, get_loop. destruct (heap w !! v); [|done].
      by rewrite Hl.
    + by intros [= <- <-].
  - unfold bind, get_loop. by rewrite Hl.
Qed.

Lemma reachable_inv s numLoops w :
  reachable s numLoops w → conns_wf w ∧ count_inv w.
Proof.
  induction 1 as [|w l fd n o r w' _ IH Hok Hrun
                   |w l lp fd c r w' _ IH Hl Hfd Hrun].
  - apply serve_inv.
  - destruct (loops w !! l) as [lp|] eqn:Hl.
    + eapply footprint_inv; [exact Hl | | exact IH].
      destruct IH as [Hwf _]. by eapply dispatch_footprint.
    + destruct (dispatch_no_loop s l fd n o w r w' Hl Hrun) as [Hloops Hheap].
      unfold conns_wf, count_inv. rewrite Hloops, Hheap. exact IH.
  - destruct IH as [Hwf Hcnt].
    destruct (Hwf l lp fd c Hl Hfd) as [_ (cv & Hc & Hcfd)].
    eapply footprint_inv; [exact Hl | | by split].
    eapply loopCloseConn_footprint; try done. rewrite Hcfd. eauto.
Qed.

Lemma inv_count_bounds w l lp :
  conns_wf w → count_inv w → loops w !! l = Some lp →
  0 ≤ count lp ≤ 2 ^ 31 - 1 ∧
  (∀ k p, fdconns lp !! k = Some p → 1 ≤ count lp) ∧
  (∀ k, 0 < k < 2 ^ 31 → fdconns lp !! k = None → count lp + 1 ≤ 2 ^ 31 - 1).
Proof.
  intros Hwf Hcnt Hl. rewrite (Hcnt l lp Hl).
  assert (Hr : ∀ k p, fdconns lp !! k = Some p → 0 < k < 2 ^ 31).
  { intros k p Hk. by destruct (Hwf l lp k p Hl Hk). }
  pose proof (fds_size_bound (fdconns lp) Hr) as Hb.
  split; [lia|]. split.
  - intros k p Hk.
    assert (size (fdconns lp) ≠ 0%nat); [|lia].
    intros Hz. apply map_size_empty_inv in Hz. rewrite Hz in Hk.
    by rewrite lookup_empty in Hk.
  - intros k Hk Hfree.
    assert (Hb' : Z.of_nat (size (<[k := 1%positive]> (fdconns lp))) ≤ 2 ^ 31 - 1).
    { apply fds_size_bound. intros k' p Hk'.
      apply lookup_insert_Some in Hk' as [[<- _]|[_ Hk']]; eauto. }
    rewrite map_size_insert_None in Hb' by done. lia.
Qed.

(** C3: in every world the server reaches (between dispatches, and while the
    remaining connections are closed at shutdown), [count] of every loop is
    the number of entries of its [fdconns].  There, an [accept] that gives a
    new fd adds one entry and one to [count]; the close path and the detach
    path, run on a mapped connection, each remove its entry and take one from
    [count]. *)
Theorem count_matches_fdconns s numLoops w l lp :
  reachable s numLoops w →
  loops w !! l = Some lp →
  count lp = Z.of_nat (size (fdconns lp)) ∧
  (∀ i ln k o nfd sa,
     has_pconn ln = false → o_accept o = AcceptOk nfd sa →
     o_setnonblock o = None → accept_ok w l o →
     ∃ w' lp' p,
       loopAccept_take s l i ln k o w = Some (None, w') ∧
       loops w' !! l = Some lp' ∧
       fdconns lp' = <[nfd := p]> (fdconns lp) ∧
       size (fdconns lp') = S (size (fdconns lp)) ∧
       count lp' = count lp + 1) ∧
  (∀ k c err,
     fdconns lp !! k = Some c →
     ∃ r w' lp',
       loopCloseConn s l c err w = Some (r, w') ∧
       loops w' !! l = Some lp' ∧
       fdconns lp' = delete k (fdconns lp) ∧
       S (size (fdconns lp')) = size (fdconns lp) ∧
       count lp' = count lp - 1) ∧
  (∀ k c err o f,
     Detached (events s) = Some f →
     fdconns lp !! k = Some c →
     ∃ r w' lp',
       loopDetachConn s l c err o w = Some (r, w') ∧
       loops w' !! l = Some lp' ∧
       fdconns lp' = delete k (fdconns lp) ∧
       S (size (fdconns lp')) = size (fdconns lp) ∧
       count lp' = count lp - 1).
Proof.
  intros Hreach Hl. destruct (reachable_inv _ _ _ Hreach) as [Hwf Hcnt].
  destruct (inv_count_bounds w l lp Hwf Hcnt Hl) as (Hb & Hpos & Hroom).
  split; [by apply (Hcnt l)|]. split; [|split].
  - intros i ln k o nfd sa Hu Ha Hn Hok.
    destruct (Hok nfd sa lp Ha Hl) as [Hr Hfree].
    rewrite (loopAccept_take_conn s l i ln k o w lp nfd sa Hu Hl Ha Hn).
    eexists _, _, _. split; [reflexivity|]. cbn [loops].
    split; [by eapply lookup_loop_insert|]. cbn.
    split; [reflexivity|]. split; [by apply map_size_insert_None|].
    apply wrap32_small. specialize (Hroom nfd Hr Hfree). lia.
  - intros k c err Hk. destruct (Hwf l lp k c Hl Hk) as [_ (cv & Hc & <-)].
    destruct (loopCloseConn_run s l c err w lp cv Hl Hc)
      as (r & w' & Hrun & Hloops & _).
    eexists r, w', _. split; [exact Hrun|]. rewrite Hloops.
    split; [by eapply lookup_loop_insert|]. cbn.
    split; [reflexivity|].
    split; [rewrite map_size_delete_Some by eauto; specialize (Hpos _ _ Hk);
            rewrite (Hcnt l lp Hl) in Hpos; lia|].
    specialize (Hpos _ _ Hk). rewrite wrap32_small by lia. lia.
  - intros k c err o f Hd Hk.
    destruct (Hwf l lp k c Hl Hk) as [_ (cv & Hc & <-)].
    destruct (loopDetachConn_run s l c err o w lp cv f Hd Hl Hc)
      as (r & w' & Hrun & Hloops & _).
    eexists r, w', _. split; [exact Hrun|]. rewrite Hloops.
    split; [by eapply lookup_loop_insert|]. cbn.
    split; [reflexivity|].
    split; [rewrite map_size_delete_Some by eauto; specialize (Hpos _ _ Hk);
            rewrite (Hcnt l lp Hl) in Hpos; lia|].
    specialize (Hpos _ _ Hk). rewrite wrap32_small by lia. lia.
Qed.

Lemma count_matches_fdconns_witness :
  ∃ lp,
    reachable (ex_server Random) 1 ex_accepted_world ∧
    loops ex_accepted_world !! 0%nat = Some lp ∧
    fdconns lp !! 6 = Some 1%positive ∧
    count lp = Z.of_nat (size (fdconns lp)).
Proof.
  assert (Hreach : reachable (ex_server Random) 1 ex_accepted_world).
  { apply (reach_dispatch _ _ (serve (ex_server Random) 1) 0%nat 3 NoteOther
             (ex_oracle (WriteOk 0) (ReadOk [])) None).
    - apply reach_serve.
    - intros nfd sa lp [= <- <-] [= <-]. split; [lia | reflexivity].
    - reflexivity. }
  eexists. split; [exact Hreach|].
  split; [reflexivity|]. split; [reflexivity|].
  refine (proj1 (count_matches_fdconns (ex_server Random) 1 ex_accepted_world
                   0%nat _ Hreach _)).
  reflexivity.
Defined.

(** ** The registered event mask (C1) *)

Lemma busy_idle cv : busy cv = negb (idle cv).
Proof. unfold busy, idle. by rewrite negb_andb. Qed.

Lemma mask_insert w w' l lp lp' k :
  loops w !! l = Some lp →
  loops w' = <[l := lp']> (loops w) →
  mask w' l k = poll lp' !! k.
Proof.
  intros Hl Hw. unfold mask. rewrite Hw.
  by rewrite (lookup_loop_insert _ _ _ _ Hl).
Qed.

Lemma mask_same w w' l lp k :
  loops w !! l = Some lp → loops w' = loops w → mask w' l k = poll lp !! k.
Proof. intros Hl Hw. unfold mask. by rewrite Hw, Hl. Qed.

Lemma mapped_same w w' l lp k :
  loops w !! l = Some lp → loops w' = loops w → mapped w' l k = fdconns lp !! k.
Proof. intros Hl Hw. unfold mapped. by rewrite Hw, Hl. Qed.

(** The open, write, action and read paths leave the mask of a connection
    that is still mapped as C1 has it: read-only exactly when [out] is empty
    and no action is pending.  Before the step the mask is read+write for a
    connection not yet opened (as [loopAccept] registers it) and as C1 has it
    for an opened one. *)
Lemma paths_restore_interest s l k n o w lp c cv m r w' :
  k ≠ 0 →
  loops w !! l = Some lp →
  fdconns lp !! k = Some c →
  heap w !! c = Some cv →
  fd cv = k →
  poll lp !! k = Some m →
  m = (if opened cv && idle cv then ReadOnly else ReadWrite) →
  dispatch s l k n o w = Some (r, w') →
  mapped w' l k = Some c →
  ∃ cv', heap w' !! c = Some cv' ∧
         mask w' l k = Some (if idle cv' then ReadOnly else ReadWrite).
Proof.
  intros Hk Hl Hfd Hc Hcfd Hm Hpre. unfold dispatch.
  destruct (Z.eqb_spec k 0) as [|_]; [done|]. mrun. rewrite Hfd. mrun.
  destruct (opened cv) eqn:Hop; cbn [negb andb] in *.
  2:{ (* open *)
    intros Hrun Hmap. subst m.
    destruct (decide (0 ≤ lnidx cv)) as [Hi|Hi].
    - destruct (lns s !! Z.to_nat (lnidx cv)) as [ln|] eqn:Hln.
      + rewrite (loopOpened_run s l c w lp cv ln Hl Hc Hi Hln) in Hrun.
        injection Hrun as <- <-. eexists. cbn [heap].
        rewrite lookup_insert_eq. split; [reflexivity|].
        erewrite mask_insert by (try eassumption; reflexivity).
        rewrite Hcfd. match goal with |- context [idle ?x] => destruct (idle x) end; cbn [poll set_poll]; [|done].
        unfold ModRead. by rewrite lookup_alter_eq, Hm.
      + exfalso. revert Hrun. unfold loopOpened. mrun.
        change (lnidx (set_opened true cv)) with (lnidx cv).
        unfold index. unfold bind at 1.
        destruct (lnidx cv <? 0); [done|]. by rewrite Hln.
    - exfalso. revert Hrun. unfold loopOpened. mrun.
      change (lnidx (set_opened true cv)) with (lnidx cv).
      unfold index. unfold bind at 1.
      destruct (Z.ltb_spec (lnidx cv) 0); [done | lia]. }
  destruct (0 <? len (out cv)) eqn:Hout.
  { (* write *)
    assert (Hidle : idle cv = false).
    { unfold idle. destruct (Z.eqb_spec (len (out cv)) 0) as [Hz|]; [|done].
      rewrite Hz in Hout. done. }
    rewrite Hidle in Hpre. cbn match in Hpre. subst m. intros Hrun Hmap.
    destruct (o_write o) as [j|e] eqn:Ho.
    - rewrite (loopWrite_ok s l c o w lp cv j Hl Hc Ho) in Hrun.
      injection Hrun as <- <-. eexists. cbn [heap].
      rewrite lookup_insert_eq. split; [reflexivity|].
      erewrite mask_insert by (try eassumption; reflexivity).
      rewrite Hcfd. match goal with |- context [idle ?x] => destruct (idle x) end; cbn [poll set_poll]; [|done].
      unfold ModRead. by rewrite lookup_alter_eq, Hm.
    - pose proof (loopWrite_err s l c o w lp cv e Hl Hc Ho) as H.
      destruct (decide (e = EAGAIN)).
      + rewrite H in Hrun. injection Hrun as <- <-. exists cv.
        split; [done|]. erewrite mask_same by (try eassumption; reflexivity).
        by rewrite Hidle.
      + destruct H as [r1 H]. rewrite H in Hrun. injection Hrun as <- <-.
        exfalso. revert Hmap.
        erewrite mapped_insert by (try eassumption; reflexivity).
        cbn. by rewrite Hcfd, lookup_delete_eq. }
  destruct (bool_decide (action cv = ActNone)) eqn:Hact; cbn [negb].
  - (* read *)
    apply bool_decide_eq_true_1 in Hact.
    assert (Hidle : idle cv = true).
    { unfold idle. rewrite bool_decide_eq_true_2 by done.
      destruct (Z.eqb_spec (len (out cv)) 0) as [|Hnz]; [done|].
      exfalso. unfold len in *. destruct (Z.ltb_spec 0 (Z.of_nat (length (out cv))));
        [done | lia]. }
    rewrite Hidle in Hpre. cbn match in Hpre. subst m. intros Hrun Hmap.
    destruct (o_read o) as [data|e] eqn:Ho.
    + destruct (decide (take (length (packet lp)) data = [])) as [Hd|Hd].
      * destruct (loopRead_eof s l c o w lp cv data Hl Hc Ho Hd) as [r1 H].
        rewrite H in Hrun. injection Hrun as <- <-. exfalso. revert Hmap.
        erewrite mapped_insert by (try eassumption; reflexivity).
        cbn. by rewrite Hcfd, lookup_delete_eq.
      * rewrite (loopRead_data s l c o w lp cv data Hl Hc Ho Hd) in Hrun.
        destruct (Data (events s)) as [f|]; injection Hrun as <- <-.
        -- eexists. cbn [heap]. rewrite lookup_insert_eq.
           split; [reflexivity|].
           erewrite mask_insert by (try eassumption; reflexivity).
           rewrite busy_idle, Hcfd. match goal with |- context [idle ?x] => destruct (idle x) end; cbn [negb poll set_poll set_packet]; [done|].
           unfold ModReadWrite. by rewrite lookup_alter_eq, Hm.
        -- exists cv. cbn [heap]. split; [done|].
           erewrite mask_insert by (try eassumption; reflexivity).
           by rewrite busy_idle, Hidle.
    + pose proof (loopRead_err s l c o w lp cv e Hl Hc Ho) as H.
      destruct (decide (e = EAGAIN)).
      * rewrite H in Hrun. injection Hrun as <- <-. exists cv.
        split; [done|]. erewrite mask_same by (try eassumption; reflexivity).
        by rewrite Hidle.
      * destruct H as [r1 H]. rewrite H in Hrun. injection Hrun as <- <-.
        exfalso. revert Hmap.
        erewrite mapped_insert by (try eassumption; reflexivity).
        cbn. by rewrite Hcfd, lookup_delete_eq.
  - (* action *)
    apply bool_decide_eq_false_1 in Hact.
    assert (Hidle : idle cv = false).
    { unfold idle. rewrite bool_decide_eq_false_2 by done. apply andb_false_r. }
    rewrite Hidle in Hpre. cbn match in Hpre. subst m. intros Hrun Hmap.
    assert (Hmapped : is_Some (fdconns lp !! fd cv)) by (rewrite Hcfd; eauto).
    destruct (action cv) eqn:Ha; [done| | |].
    + exfalso. unfold loopAction in Hrun. revert Hrun. mrun. rewrite Ha.
      intros Hrun. destruct (Detached (events s)) as [f|] eqn:Hd.
      * destruct (loopDetachConn_run s l c None o w lp cv f Hd Hl Hc)
          as (r1 & w1 & H1 & Hloops & _).
        rewrite H1 in Hrun. injection Hrun as <- <-. revert Hmap.
        erewrite mapped_insert by eassumption.
        cbn. by rewrite Hcfd, lookup_delete_eq.
      * unfold loopDetachConn in Hrun. rewrite Hd in Hrun.
        destruct (loopCloseConn_run s l c None w lp cv Hl Hc)
          as (r1 & w1 & H1 & Hloops & _).
        rewrite H1 in Hrun. injection Hrun as <- <-. revert Hmap.
        erewrite mapped_insert by eassumption.
        cbn. by rewrite Hcfd, lookup_delete_eq.
    + exfalso. unfold loopAction in Hrun. revert Hrun. mrun. rewrite Ha.
      intros Hrun.
      destruct (loopCloseConn_run s l c None w lp cv Hl Hc)
        as (r1 & w1 & H1 & Hloops & _).
      rewrite H1 in Hrun. injection Hrun as <- <-. revert Hmap.
      erewrite mapped_insert by eassumption.
      cbn. by rewrite Hcfd, lookup_delete_eq.
    + unfold loopAction in Hrun. revert Hrun. mrun. rewrite Ha.
      intros [= <- <-]. exists cv. split; [done|].
      unfold mask. rewrite Hl. cbn. by rewrite Hidle.
Qed.

Lemma run_from_spec w m :
  returns w m = true → ∃ r, m w = Some (r, run_from w m).
Proof.
  unfold returns, run_from. destruct (m w) as [[r w']|]; [eauto | done].
Qed.

Lemma ex_io_accept_ok w wr rd : accept_ok w 0 (ex_io_oracle wr rd).
Proof. intros nfd sa lp H. discriminate H. Qed.

Lemma ex_accepted_reachable : reachable (ex_server Random) 1 ex_accepted_world.
Proof.
  destruct (run_from_spec (serve (ex_server Random) 1)
              (dispatch (ex_server Random) 0 3 NoteOther
                 (ex_oracle (WriteOk 0) (ReadOk []))))
    as [r Hr]; [by vm_compute|].
  eapply reach_dispatch; [apply reach_serve | | exact Hr].
  intros nfd sa lp [= <- <-] [= <-]. split; [lia | done].
Qed.

Lemma ex_quit_reachable : reachable (ex_server Random) 1 ex_quit_world.
Proof.
  destruct (run_from_spec ex_accepted_world
              (dispatch (ex_server Random) 0 6 NoteOther
                 (ex_io_oracle (WriteOk 0) (ReadOk []))))
    as [r1 Hr1]; [by vm_compute|].
  destruct (run_from_spec ex_opened_world
              (dispatch (ex_server Random) 0 6 NoteOther
                 (ex_io_oracle (WriteOk 0) (ReadOk [Byte.x71]))))
    as [r2 Hr2]; [by vm_compute|].
  eapply reach_dispatch; [|apply ex_io_accept_ok | exact Hr2].
  eapply reach_dispatch; [|apply ex_io_accept_ok | exact Hr1].
  apply ex_accepted_reachable.
Qed.

(** The wake path never calls [ModRead]: whenever an action is pending on a
    connection with nothing to send (so its mask is read+write) and [Data]
    answers the wake with no bytes and [None], the connection is left with
    nothing pending and its fd registered read+write. *)
Lemma wake_keeps_write_interest s l c o w lp cv f :
  Data (events s) = Some f →
  loops w !! l = Some lp →
  heap w !! c = Some cv →
  fdconns lp !! fd cv = Some c →
  poll lp !! fd cv = Some ReadWrite →
  out cv = [] →
  f cv [] = ([], ActNone) →
  ∃ w' cv',
    dispatch s l 0 (NoteConn c) o w = Some (None, w') ∧
    mapped w' l (fd cv) = Some c ∧
    heap w' !! c = Some cv' ∧
    out cv' = [] ∧ action cv' = ActNone ∧
    mask w' l (fd cv) = Some ReadWrite.
Proof.
  intros Hd Hl Hc Hfd Hm Hout Hf. unfold dispatch. cbn [Z.eqb].
  unfold loopNote. mrun.
  rewrite bool_decide_eq_false_2 by (intros H; by apply H).
  rewrite (loopWake_run s l c w lp cv f Hd Hl Hc), Hf.
  assert (Hidle : busy (installed ([], ActNone) cv) = false).
  { rewrite busy_idle. unfold installed. cbn [fst snd].
    change (0 <? len []) with false. cbn match.
    unfold idle. cbn [out action set_action]. by rewrite Hout. }
  rewrite Hidle. eexists _, _. split; [reflexivity|].
  split; [by erewrite mapped_insert by (try eassumption; reflexivity)|].
  cbn [heap]. rewrite lookup_insert_eq. split; [reflexivity|].
  split; [exact Hout|]. split; [reflexivity|].
  by erewrite mask_insert by (try eassumption; reflexivity).
Qed.

(** C1 fails on the wake path.  A server with one loop accepts fd 6, opens
    it, and reads ["q"], for which [Data] returns [Close]: the action is
    pending and the mask is read+write.  A wake for the connection is then
    dispatched and [Data] returns no bytes and [None]: [loopWake] stores the
    action and, finding nothing pending, leaves the poller alone.  The
    connection is still mapped, its [out] is empty and its action is [None],
    and its fd is registered read+write, not read-only. *)
Theorem wake_leaves_write_interest :
  reachable (ex_server Random) 1 ex_quit_world ∧
  reachable (ex_server Random) 1 ex_woken_world ∧
  (action <$> heap ex_quit_world !! 1%positive) = Some Close ∧
  mask ex_quit_world 0 6 = Some ReadWrite ∧
  (fst <$> dispatch (ex_server Random) 0 0 (NoteConn 1%positive)
             (ex_io_oracle (WriteOk 0) (ReadOk [])) ex_quit_world) = Some None ∧
  mapped ex_woken_world 0 6 = Some 1%positive ∧
  (out <$> heap ex_woken_world !! 1%positive) = Some [] ∧
  (action <$> heap ex_woken_world !! 1%positive) = Some ActNone ∧
  mask ex_woken_world 0 6 = Some ReadWrite.
Proof.
  split; [apply ex_quit_reachable|]. split.
  { destruct (run_from_spec ex_quit_world
                (dispatch (ex_server Random) 0 0 (NoteConn 1%positive)
                   (ex_io_oracle (WriteOk 0) (ReadOk []))))
      as [r Hr]; [by vm_compute|].
    eapply reach_dispatch;
      [apply ex_quit_reachable | apply ex_io_accept_ok | exact Hr]. }
  repeat split; by vm_compute.
Qed.

(** ** The detached stream *)

Lemma len_pos_cons {A} (xs : list A) : (0 <? len xs) = true → xs ≠ [].
Proof. by intros H ->. Qed.

Lemma len_pos_iff {A} (xs : list A) : (0 <? len xs) = negb (bool_decide (xs = [])).
Proof.
  unfold len. destruct xs; [done|].
  rewrite bool_decide_eq_false_2 by done. cbn [length negb].
  apply Z.ltb_lt. lia.
Qed.

Lemma detachedConn_Write_loop_nil dfd rs :
  detachedConn_Write_loop dfd [] rs = Some (None, []).
Proof. by destruct rs. Qed.

Lemma detachedConn_Write_loop_cons dfd b p r rs :
  detachedConn_Write_loop dfd (b :: p) (r :: rs) =
    match sys_write (b :: p) r with
    | (_, Some e) => Some (Some (StreamErr e), [SysWrite dfd (b :: p)])
    | (nn, None) =>
        match detachedConn_Write_loop dfd (drop (Z.to_nat nn) (b :: p)) rs with
        | Some (err, calls) => Some (err, SysWrite dfd (b :: p) :: calls)
        | None => None
        end
    end.
Proof.
  cbn [detachedConn_Write_loop]. rewrite len_pos_iff.
  by rewrite bool_decide_eq_false_2.
Qed.

Lemma taken_nil rs : taken [] rs = [].
Proof.
  induction rs as [|[k|e] rs IH]; cbn [taken]; [done| |done].
  by rewrite take_nil, drop_nil, IH.
Qed.

(** The loop of [Write], when it ends: with a nil error the kernel has taken
    all of [p], in order; with an error it has taken a strict prefix of [p].
    Every call is made on a non-empty suffix of [p]. *)
Lemma detachedConn_Write_loop_taken dfd p rs err calls :
  detachedConn_Write_loop dfd p rs = Some (err, calls) →
  match err with
  | None => taken p rs = p
  | Some _ => ∃ rest, rest ≠ [] ∧ p = taken p rs ++ rest
  end ∧
  (∀ e, e ∈ calls → ∃ q, e = SysWrite dfd q ∧ q ≠ [] ∧ q `suffix_of` p) ∧
  (length calls ≤ length rs)%nat.
Proof.
  revert p err calls. induction rs as [|r rs IH]; intros p err calls.
  - destruct p as [|b p]; cbn; [|done]. intros [= <- <-].
    split; [done|]. split; [|done]. by intros e Hin%elem_of_nil.
  - destruct p as [|b p].
    { rewrite detachedConn_Write_loop_nil. intros [= <- <-].
      split; [apply taken_nil|].
      split; [|cbn; lia]. by intros e Hin%elem_of_nil. }
    rewrite detachedConn_Write_loop_cons.
    destruct r as [k|e]; cbn [sys_write taken].
    + rewrite Nat2Z.id.
      destruct (detachedConn_Write_loop dfd _ rs) as [[err1 calls1]|] eqn:Hrec;
        [|done].
      intros [= <- <-]. destruct (IH _ _ _ Hrec) as (Ht & Hc & Hn).
      assert (Hmin : drop (k `min` length (b :: p)) (b :: p) = drop k (b :: p)
                     ∧ take (k `min` length (b :: p)) (b :: p) = take k (b :: p)).
      { destruct (decide (k ≤ length (b :: p))%nat).
        - by rewrite Nat.min_l by done.
        - rewrite Nat.min_r by lia. rewrite !drop_ge, !take_ge by lia. done. }
      destruct Hmin as [Hd Htk]. rewrite Hd in Ht, Hc. split; [|split].
      * destruct err1.
        -- destruct Ht as (rest & Hne & Hr). exists rest. split; [done|].
           rewrite <- app_assoc, <- Hr. symmetry. apply take_drop.
        -- rewrite Ht. apply take_drop.
      * intros e [->|Hin]%elem_of_cons.
        -- exists (b :: p). done.
        -- destruct (Hc e Hin) as (q & -> & Hq & Hsuf). exists q.
           split; [done|]. split; [done|].
           etrans; [exact Hsuf|]. apply suffix_drop.
      * cbn [length]. lia.
    + intros [= <- <-]. split; [|split].
      * exists (b :: p). done.
      * intros e0 ->%list_elem_of_singleton. by exists (b :: p).
      * cbn [length]. lia.
Qed.

(** X1: a [Write] on a detached stream that returns reports [n = len(p)]
    whatever happened: with a nil error the kernel has taken all of [p], in
    order, over the calls made; with an error it has taken only a strict
    prefix of [p] (so fewer than the [n] reported).  Every [write] is made on
    a non-empty suffix of [p], on the stream's fd. *)
Theorem detachedConn_Write_result dfd p rs n err calls :
  detachedConn_Write dfd p rs = Some (n, err, calls) →
  n = len p ∧
  (err = None → taken p rs = p) ∧
  (err ≠ None → ∃ rest, rest ≠ [] ∧ p = taken p rs ++ rest ∧
                        len (taken p rs) < n) ∧
  (∀ e, e ∈ calls → ∃ q, e = SysWrite dfd q ∧ q ≠ [] ∧ q `suffix_of` p).
Proof.
  unfold detachedConn_Write.
  destruct (detachedConn_Write_loop dfd p rs) as [[err1 calls1]|] eqn:Hloop;
    [|done].
  intros [= <- <- <-].
  destruct (detachedConn_Write_loop_taken _ _ _ _ _ Hloop) as (Ht & Hc & _).
  split; [done|]. split; [|split; [|done]].
  - intros ->. exact Ht.
  - intros Hne. destruct err1 as [e|]; [|done].
    destruct Ht as (rest & Hrest & Hp). exists rest. split; [done|].
    split; [done|]. rewrite Hp at 2. unfold len. rewrite length_app.
    destruct rest; [done | cbn [length]; lia].
Qed.

Lemma detachedConn_Write_result_witness :
  detachedConn_Write 7 [Byte.x68; Byte.x69; Byte.x21] [WriteOk 2; WriteErr 32]
  = Some (3, Some (StreamErr (Errno 32)),
          [SysWrite 7 [Byte.x68; Byte.x69; Byte.x21]; SysWrite 7 [Byte.x21]]) ∧
  len (taken [Byte.x68; Byte.x69; Byte.x21] [WriteOk 2; WriteErr 32]) < 3.
Proof.
  split; [reflexivity|].
  destruct (detachedConn_Write_result 7 [Byte.x68; Byte.x69; Byte.x21]
              [WriteOk 2; WriteErr 32] 3 (Some (StreamErr (Errno 32)))
              [SysWrite 7 [Byte.x68; Byte.x69; Byte.x21]; SysWrite 7 [Byte.x21]]
              eq_refl) as (_ & _ & H & _).
  destruct H as (rest & _ & _ & Hlt); [discriminate | exact Hlt].
Defined.

(** X2: when every answer of the kernel takes at least one byte, [Write]
    returns [(len(p), nil)] after at most [len(p)] calls; and while the
    kernel takes nothing (and reports no error) on a non-empty [p], it does
    not return. *)
Theorem detachedConn_Write_progress dfd p rs :
  (∀ r, r ∈ rs → ∃ k, r = WriteOk k ∧ (1 ≤ k)%nat) →
  (length p ≤ length rs)%nat →
  (∃ calls, detachedConn_Write dfd p rs = Some (len p, None, calls) ∧
            (length calls ≤ length p)%nat) ∧
  (p ≠ [] → ∀ m, detachedConn_Write dfd p (replicate m (WriteOk 0)) = None).
Proof.
  intros Hrs Hlen. split.
  - unfold detachedConn_Write.
    enough (∃ calls, detachedConn_Write_loop dfd p rs = Some (None, calls) ∧
                     (length calls ≤ length p)%nat) as (calls & -> & ?) by eauto.
    revert p Hlen. induction rs as [|r rs IH]; intros p Hlen.
    + destruct p; [|cbn in Hlen; lia]. exists []. by cbn.
    + destruct p as [|b p]; [exists []; by rewrite detachedConn_Write_loop_nil|].
      rewrite detachedConn_Write_loop_cons.
      destruct (Hrs r) as (k & -> & Hk); [by left|]. cbn [sys_write].
      rewrite Nat2Z.id.
      destruct (IH (λ r Hr, Hrs r (list_elem_of_further _ _ _ Hr))
                  (drop (k `min` length (b :: p)) (b :: p)))
        as (calls & Hrec & Hcalls).
      { rewrite length_drop. cbn [length] in *. lia. }
      rewrite Hrec. exists (SysWrite dfd (b :: p) :: calls). split; [done|].
      rewrite length_drop in Hcalls. cbn [length] in *. lia.
  - intros Hp m. unfold detachedConn_Write.
    enough (detachedConn_Write_loop dfd p (replicate m (WriteOk 0)) = None)
      as -> by done.
    destruct p as [|b p]; [done|]. clear. induction m as [|m IH]; [done|].
    cbn [replicate]. rewrite detachedConn_Write_loop_cons. cbn [sys_write].
    change (drop (Z.to_nat (Z.of_nat (0 `min` length (b :: p)))) (b :: p))
      with (b :: p). by rewrite IH.
Qed.

Lemma detachedConn_Write_progress_witness :
  ∃ calls,
    detachedConn_Write 7 [Byte.x68; Byte.x69] [WriteOk 1; WriteOk 5]
    = Some (2, None, calls) ∧ (length calls ≤ 2)%nat.
Proof.
  refine (proj1 (detachedConn_Write_progress 7 [Byte.x68; Byte.x69]
                   [WriteOk 1; WriteOk 5] _ _)).
  - intros r Hr. apply list_elem_of_In in Hr. cbn in Hr.
    destruct Hr as [<-|[<-|[]]]; eexists; (split; [reflexivity | lia]).
  - cbn. lia.
Defined.

(** X3: [Read] on a detached stream reports end of stream as [io.EOF],
    exactly when the kernel returns no byte for a non-empty buffer; with a
    nil error and a non-empty buffer it has read at least one byte and at
    most [len(p)], left at the front of [p]; an empty buffer gives [(0, nil)]
    when the kernel reports no error. *)
Theorem detachedConn_Read_result dfd p r :
  let '(n, err, p', calls) := detachedConn_Read dfd p r in
  calls = [SysRead dfd] ∧
  (err = Some EOF ↔ p ≠ [] ∧ r = ReadOk []) ∧
  (err = None → p ≠ [] →
     0 < n ≤ len p ∧
     ∃ data, r = ReadOk data ∧ take (Z.to_nat n) p' = take (length p) data) ∧
  (p = [] → ∀ data, r = ReadOk data → n = 0 ∧ err = None) ∧
  (∀ e, r = ReadErr e → err = Some (StreamErr (Errno e)) ∧ p' = p).
Proof.
  unfold detachedConn_Read. destruct r as [data|e]; cbn [sys_read].
  - destruct p as [|b p].
    + rewrite take_0. cbn [length]. change (Z.of_nat 0 =? 0) with true.
      change (len [] =? 0) with true. cbn match.
      split; [done|]. split; [split; [done | by intros [? _]]|].
      split; [done|]. split; [done|]. done.
    + destruct data as [|x data].
      * rewrite take_nil. cbn [length]. change (Z.of_nat 0 =? 0) with true.
        cbn match. unfold len.
        destruct (Z.eqb_spec (Z.of_nat (length (b :: p))) 0) as [Hp|_];
          [cbn [length] in Hp; lia|].
        split; [done|]. split; [done|]. split; [done|]. split; [done|]. done.
      * set (d := take (length (b :: p)) (x :: data)).
        assert (Hd : (0 < length d ≤ length (b :: p))%nat).
        { subst d. rewrite length_take. cbn [length]. lia. }
        destruct (Z.eqb_spec (Z.of_nat (length d)) 0) as [Hz|_]; [lia|].
        split; [done|].
        split; [split; [done | intros [_ [=]]]|].
        split; [|split; [done|done]].
        intros _ _. split; [unfold len; lia|].
        exists (x :: data). split; [done|]. rewrite Nat2Z.id.
        by rewrite take_app_length.
  - split; [done|]. split; [split; [done | by intros [_ ?]]|].
    split; [done|]. split; [done|]. by intros ? [= ->].
Qed.

Lemma stream_step_fd dfd op :
  ((stream_step dfd op).1 = dfd ∨ (stream_step dfd op).1 = -1) ∧
  ∀ ev, ev ∈ (stream_step dfd op).2 → syscall_fd ev = Some dfd.
Proof.
  destruct op as [r|p r|p rs]; cbn [stream_step].
  - destruct r; cbn; (split; [auto|]);
      by intros ev ->%list_elem_of_singleton.
  - unfold detachedConn_Read. destruct (sys_read p r) as [[n err] p'].
    destruct err; [|destruct (n =? 0); [destruct (len p =? 0)|]]; cbn;
      (split; [auto|]); by intros ev ->%list_elem_of_singleton.
  - unfold detachedConn_Write.
    destruct (detachedConn_Write_loop dfd p rs) as [[err calls]|] eqn:Hw; cbn.
    + split; [auto|]. intros ev He.
      destruct (detachedConn_Write_loop_taken _ _ _ _ _ Hw) as (_ & Hc & _).
      by destruct (Hc ev He) as (q & -> & _).
    + split; [auto|]. by intros ev He%elem_of_nil.
Qed.

Lemma stream_run_closed ops :
  (stream_run (-1) ops).1 = -1 ∧
  ∀ e, e ∈ (stream_run (-1) ops).2 → syscall_fd e = Some (-1).
Proof.
  induction ops as [|op ops IH]; cbn [stream_run].
  - split; [done|]. by intros e He%elem_of_nil.
  - destruct (stream_step_fd (-1) op) as [Hfd Hcalls].
    destruct (stream_step (-1) op) as [d1 c1]. cbn [fst snd] in *.
    assert (d1 = -1) as -> by (by destruct Hfd).
    destruct (stream_run (-1) ops) as [d2 c2]. cbn [fst snd] in *.
    destruct IH as [-> IH]. split; [done|].
    intros e [He|He]%elem_of_app; auto.
Qed.

Lemma stream_run_app dfd ops1 ops2 :
  stream_run dfd (ops1 ++ ops2) =
    (let '(d1, c1) := stream_run dfd ops1 in
     let '(d2, c2) := stream_run d1 ops2 in (d2, c1 ++ c2)).
Proof.
  revert dfd. induction ops1 as [|op ops1 IH]; intros dfd; cbn [stream_run app].
  - by destruct (stream_run dfd ops2).
  - destruct (stream_step dfd op) as [d1 c1]. rewrite IH.
    destruct (stream_run d1 ops1) as [d2 c2].
    destruct (stream_run d2 ops2) as [d3 c3]. by rewrite app_assoc.
Qed.

(** X4: once a [Close] of a detached stream has succeeded its fd field is
    [-1] for good: whatever the application calls afterwards ([Read],
    [Write], [Close] again), every later system call is made on [-1], none on
    the descriptor that was closed.  A [Close] that fails leaves the fd in
    place. *)
Theorem detachedConn_closed_for_good dfd ops1 ops2 :
  let '(d1, c1) := stream_run dfd ops1 in
  let '(d2, c2) := stream_run dfd (ops1 ++ OpClose None :: ops2) in
  d2 = -1 ∧
  (∃ c3, c2 = c1 ++ SysClose d1 :: c3 ∧
         ∀ e, e ∈ c3 → syscall_fd e = Some (-1)) ∧
  (∀ e, (detachedConn_Close d1 (Some e)).1.1 = d1).
Proof.
  rewrite stream_run_app. destruct (stream_run dfd ops1) as [d1 c1].
  cbn [stream_run stream_step detachedConn_Close].
  destruct (stream_run_closed ops2) as [Hfd Hcalls].
  destruct (stream_run (-1) ops2) as [d2 c2]. cbn [fst snd] in *.
  split; [done|]. split; [|done]. by exists c2.
Qed.

(** ** The shape of a step *)

Lemma cloop_installed r cv : cloop (installed r cv) = cloop cv.
Proof. unfold installed. by destruct (0 <? len r.1). Qed.

Lemma opened_installed r cv : opened (installed r cv) = opened cv.
Proof. unfold installed. by destruct (0 <? len r.1). Qed.

Lemma cloop_opened_conn s ln cv : cloop (opened_conn s ln cv) = cloop cv.
Proof.
  unfold opened_conn. destruct (Opened (events s)) as [f|]; [|done].
  destruct (f _) as [[o' opts] a']. by destruct (0 <? len o').
Qed.

Lemma lnidx_installed r cv : lnidx (installed r cv) = lnidx cv.
Proof. unfold installed. by destruct (0 <? len r.1). Qed.

Lemma lnidx_opened_conn s ln cv : lnidx (opened_conn s ln cv) = lnidx cv.
Proof.
  unfold opened_conn. destruct (Opened (events s)) as [f|]; [|done].
  destruct (f _) as [[o' opts] a']. by destruct (0 <? len o').
Qed.

Lemma opened_opened_conn s ln cv : opened (opened_conn s ln cv) = true.
Proof.
  unfold opened_conn. destruct (Opened (events s)) as [f|]; [|done].
  destruct (f _) as [[o' opts] a']. by destruct (0 <? len o').
Qed.

Lemma quiet_nil : quiet [].
Proof. by intros e He%elem_of_nil. Qed.

Lemma quiet_cons e t : callback_ptr e = None → quiet t → quiet (e :: t).
Proof. intros He Ht e' [->|Hin]%elem_of_cons; auto. Qed.

Lemma quiet_app t1 t2 : quiet t1 → quiet t2 → quiet (t1 ++ t2).
Proof. intros H1 H2 e [Hin|Hin]%elem_of_app; auto. Qed.

Lemma quiet_prewrite s : quiet (prewrite_call s).
Proof.
  unfold prewrite_call. destruct (PreWrite (events s)); [|apply quiet_nil].
  by apply quiet_cons; [|apply quiet_nil].
Qed.

Ltac quiet := repeat first [apply quiet_nil | apply quiet_prewrite
                            | apply quiet_app | apply quiet_cons; [reflexivity|]].

Lemma closed_call_cases s c err :
  closed_call s c err = [] ∨ closed_call s c err = [CallClosed c err].
Proof. unfold closed_call. destruct (Closed (events s)); auto. Qed.

Lemma loopCloseConn_shape s l c err w lp cv r w' :
  loops w !! l = Some lp →
  heap w !! c = Some cv →
  fdconns lp !! fd cv = Some c →
  loopCloseConn s l c err w = Some (r, w') →
  step_shape s l lp w w'.
Proof.
  intros Hl Hc Hk Hrun.
  destruct (loopCloseConn_run s l c err w lp cv Hl Hc)
    as (r1 & w1 & H1 & Hloops & Hheap & _ & Htr).
  rewrite H1 in Hrun. injection Hrun as <- <-.
  eapply (shape_gone s l lp w w1 _ c cv [SysClose (fd cv)] (closed_call s c err));
    try done.
  - quiet.
  - destruct (closed_call_cases s c err) as [->| ->]; eauto.
Qed.

Lemma loopDetachConn_shape s l c err o w lp cv r w' :
  loops w !! l = Some lp →
  heap w !! c = Some cv →
  fdconns lp !! fd cv = Some c →
  loopDetachConn s l c err o w = Some (r, w') →
  step_shape s l lp w w'.
Proof.
  intros Hl Hc Hk Hrun. destruct (Detached (events s)) as [f|] eqn:Hd.
  - destruct (loopDetachConn_run s l c err o w lp cv f Hd Hl Hc)
      as (r1 & w1 & H1 & Hloops & Hheap & _ & Htr).
    rewrite H1 in Hrun. injection Hrun as <- <-.
    eapply (shape_gone s l lp w w1 _ c cv [SysSetNonblock (fd cv) false]);
      try done.
    + quiet.
    + destruct (o_setnonblock o); eauto.
    + intros k Hne. cbn [poll set_fdconns set_count set_poll].
      unfold ModDetach. by apply lookup_delete_ne.
  - unfold loopDetachConn in Hrun. rewrite Hd in Hrun.
    by eapply loopCloseConn_shape.
Qed.

Lemma shape_same s l lp w w' t :
  loops w !! l = Some lp →
  loops w' = loops w → heap w' = heap w → trace w' = trace w ++ t → quiet t →
  step_shape s l lp w w'.
Proof.
  intros Hl Hloops Hheap Htr Hq.
  eapply (shape_quiet s l lp w w' lp t); try done.
  by rewrite Hloops, list_insert_id.
Qed.

Lemma idle_drop k cv :
  idle cv = true → idle (set_out (drop k (out cv)) cv) = true.
Proof.
  unfold idle. cbn [out action set_out]. intros [Hz Ha]%andb_true_iff.
  apply Z.eqb_eq in Hz. unfold len in Hz.
  assert (out cv = []) as -> by (apply nil_length_inv; lia).
  by rewrite drop_nil, Ha.
Qed.

(** The registration after [len(c.out) == 0 && c.action == None] has
    decided on [ModRead], for a connection [cv'] that is open. *)
Lemma opened_poll cv cv' lp :
  opened cv' = true →
  (idle cv' = false → pending cv) →
  let lp' := if idle cv' then set_poll (ModRead (fd cv)) lp else lp in
  (poll lp' = poll lp ∧ (pending cv' → pending cv)) ∨
  (poll lp' = ModRead (fd cv) (poll lp) ∧ ¬ pending cv') ∨
  poll lp' = ModReadWrite (fd cv) (poll lp).
Proof.
  intros Hop Hpre. cbv zeta. destruct (idle cv') eqn:Hid.
  - right. left. split; [done|]. intros [Hp|Hp]; congruence.
  - left. split; [done|]. intros _. by apply Hpre.
Qed.

(** The registration after [len(c.out) != 0 || c.action != None] has
    decided on [ModReadWrite]. *)
Lemma busy_poll cv cv' lp0 lp :
  poll lp0 = poll lp →
  opened cv' = opened cv →
  let lp' := if busy cv' then set_poll (ModReadWrite (fd cv)) lp0 else lp0 in
  (poll lp' = poll lp ∧ (pending cv' → pending cv)) ∨
  (poll lp' = ModRead (fd cv) (poll lp) ∧ ¬ pending cv') ∨
  poll lp' = ModReadWrite (fd cv) (poll lp).
Proof.
  intros Hp0 Hop. cbv zeta. destruct (busy cv') eqn:Hb.
  - right. right. cbn [poll set_poll]. by rewrite Hp0.
  - left. split; [done|]. intros [Hp|Hp]; [left; congruence|].
    rewrite busy_idle, Hp in Hb. done.
Qed.

Lemma loopWake_shape s l c w lp cv r w' :
  loops w !! l = Some lp →
  heap w !! c = Some cv →
  fdconns lp !! fd cv = Some c →
  loopWake s l c w = Some (r, w') →
  step_shape s l lp w w'.
Proof.
  intros Hl Hc Hk Hrun. destruct (Data (events s)) as [f|] eqn:Hd.
  - rewrite (loopWake_run s l c w lp cv f Hd Hl Hc) in Hrun.
    injection Hrun as <- <-.
    eapply (shape_conn s l lp w _ _ c cv (installed (f cv []) cv)
              [] [CallData c [] false] []);
      cbn [loops heap trace]; try reflexivity; try done; try quiet.
    + eauto.
    + by match goal with |- context [busy ?x] => destruct (busy x) end.
    + by match goal with |- context [busy ?x] => destruct (busy x) end.
    + by match goal with |- context [busy ?x] => destruct (busy x) end.
    + apply fd_installed.
    + apply cloop_installed.
    + apply lnidx_installed.
    + by rewrite opened_installed.
    + apply busy_poll; [done | apply opened_installed].
  - unfold loopWake in Hrun. rewrite Hd in Hrun. injection Hrun as <- <-.
    eapply (shape_same s l lp w w []); try done; [by rewrite app_nil_r | quiet].
Qed.

Lemma loopNote_shape s l n w lp r w' :
  conns_wf w →
  loops w !! l = Some lp →
  loopNote s l n w = Some (r, w') →
  step_shape s l lp w w'.
Proof.
  intros Hwf Hl. destruct n as [d|e|v|]; cbn [loopNote].
  - destruct (Tick (events s)) as [[delay a]|]; [|done]. mrun.
    destruct a; intros [= <- <-];
      (eapply (shape_same s l lp w _ [CallTick; SendTch delay]);
       [done | done | done | by normw | quiet]).
  - intros [= <- <-].
    eapply (shape_same s l lp w w []); try done; [by rewrite app_nil_r | quiet].
  - destruct (heap w !! v) as [cv|] eqn:Hv.
    + mrun. destruct (decide (fdconns lp !! fd cv = Some v)) as [Heq|Hne].
      * rewrite bool_decide_eq_false_2 by (intros H; by apply H).
        by eapply loopWake_shape.
      * rewrite bool_decide_eq_true_2 by done. intros [= <- <-].
        eapply (shape_same s l lp w w []); try done;
          [by rewrite app_nil_r | quiet].
    + unfold bind, load. by rewrite Hv.
  - intros [= <- <-].
    eapply (shape_same s l lp w w []); try done; [by rewrite app_nil_r | quiet].
Qed.

Lemma opened_calls_cases s ln c cv :
  (Opened (events s) = None ∧ opened_calls s ln c cv = []) ∨
  (∃ q, opened_calls s ln c cv = [CallOpened c] ++ q ∧ quiet q).
Proof.
  unfold opened_calls. destruct (Opened (events s)) as [f|]; [right|by left].
  destruct (f _) as [[o' opts] a'].
  destruct ((0 <? TCPKeepAlive opts) && is_TCPListener ln);
    eexists; (split; [reflexivity | quiet]).
Qed.

Lemma loopOpened_shape s l c w lp cv r w' :
  loops w !! l = Some lp →
  heap w !! c = Some cv →
  fdconns lp !! fd cv = Some c →
  opened cv = false →
  loopOpened s l c w = Some (r, w') →
  step_shape s l lp w w'.
Proof.
  intros Hl Hc Hk Hop Hrun.
  destruct (decide (0 ≤ lnidx cv)) as [Hi|Hi].
  - destruct (lns s !! Z.to_nat (lnidx cv)) as [ln|] eqn:Hln.
    + rewrite (loopOpened_run s l c w lp cv ln Hl Hc Hi Hln) in Hrun.
      injection Hrun as <- <-.
      destruct (opened_calls_cases s ln c cv) as [[_ Hcalls]|(q & Hcalls & Hq)].
      * eapply (shape_conn s l lp w _ _ c cv (opened_conn s ln cv) [] [] []);
          cbn [loops heap trace]; try reflexivity; try done; try quiet.
        -- by rewrite Hcalls.
        -- by left.
        -- by match goal with |- context [idle ?x] => destruct (idle x) end.
        -- by match goal with |- context [idle ?x] => destruct (idle x) end.
        -- by match goal with |- context [idle ?x] => destruct (idle x) end.
        -- apply fd_opened_conn.
        -- apply cloop_opened_conn.
        -- apply lnidx_opened_conn.
        -- intros _. apply opened_opened_conn.
        -- apply (opened_poll cv (opened_conn s ln cv) lp);
             [apply opened_opened_conn | intros _; by left].
      * eapply (shape_conn s l lp w _ _ c cv (opened_conn s ln cv)
                  [] [CallOpened c] q);
          cbn [loops heap trace]; try reflexivity; try done; try quiet.
        -- by rewrite Hcalls.
        -- right. left. split; [done|]. split; [done|]. apply opened_opened_conn.
        -- by match goal with |- context [idle ?x] => destruct (idle x) end.
        -- by match goal with |- context [idle ?x] => destruct (idle x) end.
        -- by match goal with |- context [idle ?x] => destruct (idle x) end.
        -- apply fd_opened_conn.
        -- apply cloop_opened_conn.
        -- apply lnidx_opened_conn.
        -- intros _. apply opened_opened_conn.
        -- apply (opened_poll cv (opened_conn s ln cv) lp);
             [apply opened_opened_conn | intros _; by left].
    + exfalso. revert Hrun. unfold loopOpened. mrun.
      change (lnidx (set_opened true cv)) with (lnidx cv).
      unfold index. unfold bind at 1.
      destruct (lnidx cv <? 0); [done|]. by rewrite Hln.
  - exfalso. revert Hrun. unfold loopOpened. mrun.
    change (lnidx (set_opened true cv)) with (lnidx cv).
    unfold index. unfold bind at 1.
    destruct (Z.ltb_spec (lnidx cv) 0); [done | lia].
Qed.

Lemma shape_closed s l lp w w' c cv q err :
  loops w !! l = Some lp →
  heap w !! c = Some cv → fdconns lp !! fd cv = Some c →
  quiet q →
  loops w' = <[l := set_fdconns (delete (fd cv))
                      (set_count (λ n, wrap32 (n + -1)) lp)]> (loops w) →
  heap w' = heap w →
  trace w' = trace w ++ q ++ closed_call s c err →
  step_shape s l lp w w'.
Proof.
  intros Hl Hc Hk Hq Hloops Hheap Htr.
  eapply (shape_gone s l lp w _ _ c cv q (closed_call s c err)); try done.
  destruct (closed_call_cases s c err) as [->| ->]; eauto.
Qed.

Lemma loopWrite_shape s l c o w lp cv r w' :
  loops w !! l = Some lp →
  heap w !! c = Some cv →
  fdconns lp !! fd cv = Some c →
  opened cv = true →
  loopWrite s l c o w = Some (r, w') →
  step_shape s l lp w w'.
Proof.
  intros Hl Hc Hk Hop Hrun. destruct (o_write o) as [k|e] eqn:Ho.
  - rewrite (loopWrite_ok s l c o w lp cv k Hl Hc Ho) in Hrun.
    injection Hrun as <- <-.
    eapply (shape_conn s l lp w _ _ c cv (set_out (drop k (out cv)) cv)
              (prewrite_call s ++ [SysWrite (fd cv) (out cv)]) [] []);
      cbn [loops heap trace]; try reflexivity; try done; try quiet.
    + by rewrite !app_nil_r.
    + by left.
    + by match goal with |- context [idle ?x] => destruct (idle x) end.
    + by match goal with |- context [idle ?x] => destruct (idle x) end.
    + by match goal with |- context [idle ?x] => destruct (idle x) end.
    + apply opened_poll; [done|]. intros Hid. right.
      destruct (idle cv) eqn:Hid0; [|done].
      by rewrite (idle_drop k cv Hid0) in Hid.
  - pose proof (loopWrite_err s l c o w lp cv e Hl Hc Ho) as H.
    destruct (decide (e = EAGAIN)).
    + rewrite H in Hrun. injection Hrun as <- <-.
      eapply (shape_same s l lp w _ (prewrite_call s ++ [SysWrite (fd cv) (out cv)]));
        try done. quiet.
    + destruct H as [r1 H]. rewrite H in Hrun. injection Hrun as <- <-.
      eapply (shape_closed s l lp w _ c cv
                (prewrite_call s ++ [SysWrite (fd cv) (out cv); SysClose (fd cv)])
                (Some (Errno e)));
        cbn [loops heap trace]; try done; [quiet|].
      by rewrite <- !app_assoc.
Qed.

Lemma loopAction_shape s l c o w lp cv r w' :
  loops w !! l = Some lp →
  heap w !! c = Some cv →
  fdconns lp !! fd cv = Some c →
  opened cv = true →
  loopAction s l c o w = Some (r, w') →
  step_shape s l lp w w'.
Proof.
  intros Hl Hc Hk Hop Hrun. destruct (action cv) eqn:Ha.
  - rewrite (loopAction_none s l c o w lp cv Hl Hc Ha) in Hrun.
    injection Hrun as <- <-.
    eapply (shape_conn s l lp w _ _ c cv (set_action ActNone cv) [] [] []);
      cbn [loops heap trace]; try reflexivity; try done; try quiet.
    + by rewrite app_nil_r.
    + by left.
    + by match goal with |- context [idle ?x] => destruct (idle x) end.
    + by match goal with |- context [idle ?x] => destruct (idle x) end.
    + by match goal with |- context [idle ?x] => destruct (idle x) end.
    + apply opened_poll; [done|]. intros Hid. right.
      unfold idle in *. cbn [out action set_action] in Hid. by rewrite Ha.
  - unfold loopAction in Hrun. revert Hrun. mrun. rewrite Ha.
    by eapply loopDetachConn_shape.
  - unfold loopAction in Hrun. revert Hrun. mrun. rewrite Ha.
    by eapply loopCloseConn_shape.
  - unfold loopAction in Hrun. revert Hrun. mrun. rewrite Ha.
    intros [= <- <-].
    eapply (shape_same s l lp w w []); try done; [by rewrite app_nil_r | quiet].
Qed.

Lemma loopRead_shape s l c o w lp cv r w' :
  loops w !! l = Some lp →
  heap w !! c = Some cv →
  fdconns lp !! fd cv = Some c →
  loopRead s l c o w = Some (r, w') →
  step_shape s l lp w w'.
Proof.
  intros Hl Hc Hk Hrun. destruct (o_read o) as [data|e] eqn:Ho.
  - destruct (decide (take (length (packet lp)) data = [])) as [Hd|Hd].
    + destruct (loopRead_eof s l c o w lp cv data Hl Hc Ho Hd) as [r1 H].
      rewrite H in Hrun. injection Hrun as <- <-.
      eapply (shape_closed s l lp w _ c cv [SysRead (fd cv); SysClose (fd cv)]
                None);
        cbn [loops heap trace]; try done; quiet.
    + rewrite (loopRead_data s l c o w lp cv data Hl Hc Ho Hd) in Hrun.
      destruct (Data (events s)) as [f|]; injection Hrun as <- <-.
      * eapply (shape_conn s l lp w _ _ c cv
                  (installed (f cv (take (length (packet lp)) data)) cv)
                  [SysRead (fd cv)]
                  [CallData c (take (length (packet lp)) data) (reuse cv)] []);
          cbn [loops heap trace]; try reflexivity; try done; try quiet.
        -- eauto.
        -- by match goal with |- context [busy ?x] => destruct (busy x) end.
        -- by match goal with |- context [busy ?x] => destruct (busy x) end.
        -- by match goal with |- context [busy ?x] => destruct (busy x) end.
        -- apply fd_installed.
        -- apply cloop_installed.
        -- apply lnidx_installed.
        -- by rewrite opened_installed.
        -- apply busy_poll; [done | apply opened_installed].
      * eapply (shape_conn s l lp w _ _ c cv cv [SysRead (fd cv)] [] []);
          cbn [loops heap trace]; try reflexivity; try done; try quiet.
        -- symmetry. by apply insert_id.
        -- by left.
        -- by match goal with |- context [busy ?x] => destruct (busy x) end.
        -- by match goal with |- context [busy ?x] => destruct (busy x) end.
        -- by match goal with |- context [busy ?x] => destruct (busy x) end.
        -- by apply busy_poll.
  - pose proof (loopRead_err s l c o w lp cv e Hl Hc Ho) as H.
    destruct (decide (e = EAGAIN)).
    + rewrite H in Hrun. injection Hrun as <- <-.
      eapply (shape_same s l lp w _ [SysRead (fd cv)]); try done. quiet.
    + destruct H as [r1 H]. rewrite H in Hrun. injection Hrun as <- <-.
      eapply (shape_closed s l lp w _ c cv [SysRead (fd cv); SysClose (fd cv)]
                (Some (Errno e)));
        cbn [loops heap trace]; try done; quiet.
Qed.

Lemma loopUDPRead_shape s l lnidx k o w lp r w' :
  loops w !! l = Some lp →
  loopUDPRead s l lnidx k o w = Some (r, w') →
  step_shape s l lp w w'.
Proof.
  intros Hl. unfold loopUDPRead. mrun.
  destruct (sys_recvfrom (packet lp) (o_recvfrom o)) as [[[n from] err] pk].
  mrun.
  destruct (bool_decide (err ≠ None) || (n =? 0)).
  { intros [= <- <-].
    eapply (shape_quiet s l lp w _ (set_packet pk lp) [SysRecvfrom k]);
      try done; [by normw | quiet]. }
  destruct (Data (events s)) as [f|].
  2:{ intros [= <- <-].
      eapply (shape_quiet s l lp w _ (set_packet pk lp) [SysRecvfrom k]);
        try done; [by normw | quiet]. }
  mrun. unfold index. unfold bind at 1.
  destruct (lnidx <? 0); [done|].
  destruct (lns s !! Z.to_nat lnidx) as [ln|]; [|done].
  mrun. unfold slice_to. destruct ((n <? 0) || (len pk <? n)); [done|].
  mrun.
  match goal with |- context [f ?a ?b] => destruct (f a b) as [o' a'] end.
  destruct (0 <? len o').
  - cbn [when]. rewrite bind_bind, bind_prewrite. mrun.
    intros H.
    eapply (shape_udp s l lp w w' (set_packet pk lp) (fresh (dom (heap w))) _
              [SysRecvfrom k] (take (Z.to_nat n) pk)
              (prewrite_call s ++ [SysSendto k o' from]));
      try (destruct a'; injection H as <- <-; normw; done);
      try quiet; try done.
    apply fresh_ptr_unused.
  - mrun. intros H.
    eapply (shape_udp s l lp w w' (set_packet pk lp) (fresh (dom (heap w))) _
              [SysRecvfrom k] (take (Z.to_nat n) pk) []);
      try (destruct a'; injection H as <- <-; normw; done);
      try quiet; try done.
    apply fresh_ptr_unused.
Qed.

Lemma loopAccept_take_shape s l i ln k o w lp r w' :
  loops w !! l = Some lp →
  lns s !! i = Some ln →
  accept_ok w l o →
  loopAccept_take s l i ln k o w = Some (r, w') →
  step_shape s l lp w w'.
Proof.
  intros Hl Hln Hok Hrun. destruct (has_pconn ln) eqn:Hu.
  - unfold loopAccept_take in Hrun. rewrite Hu in Hrun.
    by eapply loopUDPRead_shape.
  - destruct (o_accept o) as [nfd sa|e] eqn:Ha.
    + destruct (o_setnonblock o) as [e|] eqn:Hn.
      * revert Hrun. unfold loopAccept_take. rewrite Hu, Ha, Hn. mrun.
        intros [= <- <-].
        eapply (shape_same s l lp w _ [SysAccept k; SysSetNonblock nfd true]);
          try done; try (by normw); quiet.
      * rewrite (loopAccept_take_conn s l i ln k o w lp nfd sa Hu Hl Ha Hn)
          in Hrun. injection Hrun as <- <-.
        destruct (Hok nfd sa lp Ha Hl) as [Hr Hfree].
        eapply (shape_accept s l lp w _ _ (fresh (dom (heap w))) _
                  [SysAccept k; SysSetNonblock nfd true]);
          cbn [loops heap trace fd cloop opened lnidx]; try reflexivity;
          try done.
        -- apply fresh_ptr_unused.
        -- quiet.
        -- eauto.
    + revert Hrun. unfold loopAccept_take. rewrite Hu, Ha. mrun.
      destruct (bool_decide (e = EAGAIN)); intros [= <- <-];
        (eapply (shape_same s l lp w _ [SysAccept k]);
         try done; try (by normw); quiet).
Qed.

(** As [loopAccept_cases], with the listener found in [s.lns]. *)
Lemma loopAccept_cases_listed s l fd o w lp r w' :
  loops w !! l = Some lp →
  loopAccept s l fd o w = Some (r, w') →
  (r = None ∧ w' = w) ∨
  ∃ i ln f, lns s !! i = Some ln ∧
            loopAccept_take s l i ln fd o (set_accepted f w) = Some (r, w').
Proof.
  intros Hl. unfold loopAccept.
  destruct (find_listener fd 0 (lns s)) as [[i ln]|] eqn:Hfind.
  2:{ intros [= <- <-]. by left. }
  apply find_listener_lookup in Hfind as [_ Hln].
  rewrite Nat.sub_0_r in Hln.
  mrun.
  assert (Hid : set_accepted (λ a, a) w = w) by by destruct w.
  destruct (1 <? len (loops w)).
  - destruct (balance s).
    + intros H. right. exists i, ln, (λ a, a). by rewrite Hid.
    + destruct (negb _).
      * intros [= <- <-]. by left.
      * intros H. right. by exists i, ln, (λ a, wrap_uintptr (a + 1)).
    + destruct (existsb _ _).
      * intros [= <- <-]. by left.
      * intros H. right. exists i, ln, (λ a, a). by rewrite Hid.
  - intros H. right. exists i, ln, (λ a, a). by rewrite Hid.
Qed.

(** A step that only counts an accept attempt. *)
Lemma step_shape_accepted s l lp w w' f :
  step_shape s l lp (set_accepted f w) w' → step_shape s l lp w w'.
Proof.
  intros [lp' t H1 H2 H3 H4 H5 H6 H7 H8
         |lp' c cv cv' q1 cb q2 H1 H2 H3 H4 H5 H6 H7 H8 H9 H10 H11 H12 H13 H14
            H15 H16
         |lp' c cv q tl H1 H2 H3 H4 H5 H6 H7 H8 H9 H10 H11
         |lp' p cvn t H1 H2 H3 H4 H5 H6 H7 H8 H9 H10 H11 H12 H13 H14
         |lp' p cvu q1 input q2 H1 H2 H3 H4 H5 H6 H7 H8 H9 H10].
  - by eapply shape_quiet.
  - by eapply shape_conn.
  - by eapply shape_gone.
  - by eapply shape_accept.
  - by eapply shape_udp.
Qed.

Lemma loopAccept_shape s l k o w lp r w' :
  loops w !! l = Some lp →
  accept_ok w l o →
  loopAccept s l k o w = Some (r, w') →
  step_shape s l lp w w'.
Proof.
  intros Hl Hok Hrun.
  destruct (loopAccept_cases_listed s l k o w lp r w' Hl Hrun)
    as [[_ ->]|(i & ln & f & Hln & Htake)].
  - eapply (shape_same s l lp w w []); try done; [by rewrite app_nil_r | quiet].
  - apply (step_shape_accepted s l lp w w' f).
    exact (loopAccept_take_shape s l i ln k o (set_accepted f w) lp r w'
             Hl Hln Hok Htake).
Qed.

Lemma dispatch_shape s l k n o w lp r w' :
  conns_wf w →
  loops w !! l = Some lp →
  accept_ok w l o →
  dispatch s l k n o w = Some (r, w') →
  step_shape s l lp w w'.
Proof.
  intros Hwf Hl Hok. unfold dispatch. destruct (k =? 0).
  { by apply loopNote_shape. }
  mrun. destruct (fdconns lp !! k) as [c|] eqn:Hfd.
  2:{ by apply loopAccept_shape. }
  destruct (Hwf l lp k c Hl Hfd) as [_ (cv & Hc & Hcfd)].
  assert (Hk : fdconns lp !! fd cv = Some c) by by rewrite Hcfd.
  mrun. destruct (opened cv) eqn:Hop; cbn [negb].
  2:{ by eapply loopOpened_shape. }
  destruct (0 <? len (out cv)).
  { by eapply loopWrite_shape. }
  destruct (negb _).
  { by eapply loopAction_shape. }
  by eapply loopRead_shape.
Qed.

(** ** The monitor of the log *)

Lemma life_run_app st t1 t2 :
  life_run st (t1 ++ t2) =
    match life_run st t1 with
    | Some st' => life_run st' t2
    | None => None
    end.
Proof.
  revert st. induction t1 as [|e t1 IH]; intros st; cbn [life_run app]; [done|].
  destruct (life_step st e); [apply IH | done].
Qed.

Lemma life_run_quiet st t : quiet t → life_run st t = Some st.
Proof.
  revert st. induction t as [|e t IH]; intros st Hq; cbn [life_run]; [done|].
  assert (He : callback_ptr e = None) by (apply Hq; by left).
  assert (life_step st e = Some st) as -> by (by destruct e).
  apply IH. intros e' He'. apply Hq. by right.
Qed.

Lemma life_step_mono st e st' :
  life_step st e = Some st' → st.1 ⊆ st'.1 ∧ st.2 ⊆ st'.2.
Proof.
  destruct e; cbn [life_step]; try (intros [= <-]; done).
  - destruct (_ || _); [done|]. intros [= <-]. cbn. set_solver.
  - destruct (bool_decide _); [done|]. by intros [= <-].
  - destruct (bool_decide _); [done|]. intros [= <-]. cbn. set_solver.
  - destruct (bool_decide _); [done|]. intros [= <-]. cbn. set_solver.
Qed.

Lemma life_run_mono st t st' :
  life_run st t = Some st' → st.1 ⊆ st'.1 ∧ st.2 ⊆ st'.2.
Proof.
  revert st. induction t as [|e t IH]; intros st; cbn [life_run].
  - by intros [= <-].
  - destruct (life_step st e) as [st1|] eqn:He; [|done]. intros H.
    pose proof (life_step_mono _ _ _ He) as [H1 H2].
    pose proof (IH _ H) as [H3 H4]. split; etrans; eassumption.
Qed.

(** After the end of [p] the monitor lets no callback on [p] pass. *)
Lemma life_run_ended st t st' p :
  p ∈ st.2 → life_run st t = Some st' →
  ∀ e, e ∈ t → callback_ptr e ≠ Some p.
Proof.
  revert st. induction t as [|e t IH]; intros st Hp Hrun e' Hin.
  { by apply elem_of_nil in Hin. }
  cbn [life_run] in Hrun.
  destruct (life_step st e) as [st1|] eqn:He; [|done].
  apply elem_of_cons in Hin as [->|Hin].
  - intros Hcb. destruct e; cbn in Hcb; try done; injection Hcb as ->;
      cbn [life_step] in He;
      rewrite (bool_decide_eq_true_2 (p ∈ st.2)) in He by done; done.
  - eapply (IH st1); [|done..]. destruct (life_step_mono _ _ _ He). set_solver.
Qed.

(** Once [Opened] has been seen for [p] the monitor lets no other pass. *)
Lemma life_run_opened st t st' p :
  p ∈ st.1 → life_run st t = Some st' → CallOpened p ∉ t.
Proof.
  revert st. induction t as [|e t IH]; intros st Hp Hrun Hin.
  { by apply elem_of_nil in Hin. }
  cbn [life_run] in Hrun.
  destruct (life_step st e) as [st1|] eqn:He; [|done].
  apply elem_of_cons in Hin as [<-|Hin].
  - cbn [life_step] in He.
    rewrite (bool_decide_eq_true_2 (p ∈ st.1)) in He by done.
    by rewrite orb_true_r in He.
  - eapply (IH st1); [|done..]. destruct (life_step_mono _ _ _ He). set_solver.
Qed.

Lemma life_step_sees st e st' p :
  life_step st e = Some st' →
  (e = CallOpened p → p ∈ st'.1) ∧ (ends p e → p ∈ st'.2).
Proof.
  intros He. split.
  - intros ->. cbn [life_step] in He. destruct (_ || _); [done|].
    injection He as <-. cbn. set_solver.
  - intros [[err ->]|[k ->]]; cbn [life_step] in He;
      (destruct (bool_decide _); [done|]); injection He as <-; cbn; set_solver.
Qed.

Lemma life_run_around st q1 cb q2 :
  quiet q1 → quiet q2 → life_run st (q1 ++ cb ++ q2) = life_run st cb.
Proof.
  intros H1 H2. rewrite life_run_app, (life_run_quiet _ _ H1), life_run_app.
  destruct (life_run st cb); [by apply life_run_quiet | done].
Qed.

Lemma loops_after l lp lp' (w w' : World) l2 lp2 :
  loops w !! l = Some lp →
  loops w' = <[l := lp']> (loops w) →
  loops w' !! l2 = Some lp2 →
  (l2 = l ∧ lp2 = lp') ∨ (l2 ≠ l ∧ loops w !! l2 = Some lp2).
Proof.
  intros Hl Hw H2. rewrite Hw in H2. destruct (decide (l2 = l)) as [->|Hne].
  - left. rewrite (lookup_loop_insert _ _ _ _ Hl) in H2. by injection H2.
  - right. by rewrite list_lookup_insert_ne in H2.
Qed.

(** A mapped connection is mapped once: by its owner, under its fd. *)
Lemma mapped_once w l lp c cv l2 lp2 k :
  conns_wf w → owner_inv w →
  loops w !! l = Some lp → heap w !! c = Some cv → fdconns lp !! fd cv = Some c →
  loops w !! l2 = Some lp2 → fdconns lp2 !! k = Some c →
  l2 = l ∧ k = fd cv.
Proof.
  intros Hwf Hown Hl Hc Hk H2 Hk2.
  pose proof (Hown l lp _ c cv Hl Hk Hc) as Ho1.
  pose proof (Hown l2 lp2 _ c cv H2 Hk2 Hc) as Ho2.
  destruct (Hwf l2 lp2 k c H2 Hk2) as [_ (cv2 & Hc2 & Hfd)].
  split; [congruence|]. congruence.
Qed.

Lemma shape_preserves_life s l lp w w' :
  conns_wf w →
  loops w !! l = Some lp →
  step_shape s l lp w w' →
  life_inv w → life_inv w'.
Proof.
  intros Hwf Hl Hshape (Hown & O & E & Hrun & HO & HE).
  destruct Hshape
    as [lp' t Hloops Hheap Htr Hq Hidx Hf Hn _
       |lp' c cv cv' q1 cb q2 Hloops Hc Hk Hheap Htr Hq1 Hq2 Hcb Hidx Hf Hn
          Hfd Hcl _ Hop _
       |lp' c cv q tl Hloops Hc Hk Hheap Htr Hq Htl Hidx Hf Hn _
       |lp' p cvn t Hloops Hp Hheap Htr Hq Hidx Hfree Hr Hf Hn Hcl Hop _ _
       |lp' p cvu q1 input q2 Hloops Hp Hheap Htr Hq1 Hq2 Hidx Hf Hn _].
  - (* nothing happens to a connection *)
    assert (Hmap : ∀ l2 lp2 k p, loops w' !! l2 = Some lp2 →
              fdconns lp2 !! k = Some p →
              ∃ lp0, loops w !! l2 = Some lp0 ∧ fdconns lp0 !! k = Some p).
    { intros l2 lp2 k p H2 Hk2.
      destruct (loops_after _ _ _ _ _ _ _ Hl Hloops H2) as [[-> ->]|[_ H0]].
      - exists lp. by rewrite <- Hf.
      - by exists lp2. }
    split.
    + intros l2 lp2 k p cv H2 Hk2 Hcv. rewrite Hheap in Hcv.
      destruct (Hmap _ _ _ _ H2 Hk2) as (lp0 & H0 & Hk0). by eapply Hown.
    + exists O, E. rewrite Htr, life_run_app, Hrun, Hheap.
      split; [by apply life_run_quiet|]. split; [done|].
      intros p Hp. destruct (HE p Hp) as [Hin Hun]. split; [done|].
      intros l2 lp2 k H2 Hk2.
      destruct (Hmap _ _ _ _ H2 Hk2) as (lp0 & H0 & Hk0). by eapply Hun.
  - (* one connection is updated *)
    assert (Hmap : ∀ l2 lp2 k p, loops w' !! l2 = Some lp2 →
              fdconns lp2 !! k = Some p →
              ∃ lp0, loops w !! l2 = Some lp0 ∧ fdconns lp0 !! k = Some p).
    { intros l2 lp2 k p H2 Hk2.
      destruct (loops_after _ _ _ _ _ _ _ Hl Hloops H2) as [[-> ->]|[_ H0]].
      - exists lp. by rewrite <- Hf.
      - by exists lp2. }
    assert (HcE : c ∉ E).
    { intros Hin. destruct (HE c Hin) as [_ Hun]. by eapply Hun. }
    split.
    + intros l2 lp2 k p cv0 H2 Hk2 Hcv. rewrite Hheap in Hcv.
      destruct (Hmap _ _ _ _ H2 Hk2) as (lp0 & H0 & Hk0).
      destruct (decide (p = c)) as [->|Hne].
      * rewrite lookup_insert_eq in Hcv. injection Hcv as <-. rewrite Hcl.
        by eapply Hown.
      * rewrite lookup_insert_ne in Hcv by done. by eapply Hown.
    + assert (HO' : ∀ p, p ∈ O → ∃ cv0, heap w' !! p = Some cv0 ∧ opened cv0 = true).
      { intros p Hp. destruct (HO p Hp) as (cv0 & Hcv0 & Hop0). rewrite Hheap.
        destruct (decide (p = c)) as [->|Hne].
        - rewrite lookup_insert_eq. exists cv'. split; [done|].
          apply Hop. congruence.
        - rewrite lookup_insert_ne by done. eauto. }
      assert (HE' : ∀ p, p ∈ E → is_Some (heap w' !! p) ∧
                ∀ l2 lp2 k, loops w' !! l2 = Some lp2 → fdconns lp2 !! k ≠ Some p).
      { intros p Hp. destruct (HE p Hp) as [Hin Hun]. split.
        - rewrite Hheap. destruct (decide (p = c)) as [->|Hne].
          + by rewrite lookup_insert_eq.
          + by rewrite lookup_insert_ne.
        - intros l2 lp2 k H2 Hk2.
          destruct (Hmap _ _ _ _ H2 Hk2) as (lp0 & H0 & Hk0). by eapply Hun. }
      rewrite Htr, life_run_app, Hrun, (life_run_around _ _ _ _ Hq1 Hq2).
      destruct Hcb as [->|[(-> & Hop0 & Hop1)|(input & shared & ->)]].
      * exists O, E. done.
      * assert (HcO : c ∉ O).
        { intros Hin. destruct (HO c Hin) as (cv0 & Hcv0 & Hop2). congruence. }
        exists ({[c]} ∪ O), E. cbn [life_run life_step fst snd].
        rewrite (bool_decide_eq_false_2 (c ∈ E)) by done.
        rewrite (bool_decide_eq_false_2 (c ∈ O)) by done. cbn [orb].
        split; [done|]. split; [|done].
        intros p [->%elem_of_singleton|Hp]%elem_of_union; [|by apply HO'].
        exists cv'. rewrite Hheap, lookup_insert_eq. done.
      * exists O, E. cbn [life_run life_step fst snd].
        rewrite (bool_decide_eq_false_2 (c ∈ E)) by done. done.
  - (* one connection is removed *)
    assert (Hmap : ∀ l2 lp2 k p, loops w' !! l2 = Some lp2 →
              fdconns lp2 !! k = Some p →
              p ≠ c ∧ ∃ lp0, loops w !! l2 = Some lp0 ∧ fdconns lp0 !! k = Some p).
    { intros l2 lp2 k p H2 Hk2.
      destruct (loops_after _ _ _ _ _ _ _ Hl Hloops H2) as [[-> ->]|[Hne H0]].
      - rewrite Hf in Hk2. apply lookup_delete_Some in Hk2 as [Hkne Hk2].
        split; [|by exists lp]. intros ->.
        destruct (mapped_once w l lp c cv l lp k Hwf Hown Hl Hc Hk Hl Hk2).
        congruence.
      - split; [|by exists lp2]. intros ->.
        by destruct (mapped_once w l lp c cv l2 lp2 k Hwf Hown Hl Hc Hk H0 Hk2). }
    assert (HcE : c ∉ E).
    { intros Hin. destruct (HE c Hin) as [_ Hun]. by eapply Hun. }
    split.
    + intros l2 lp2 k p cv0 H2 Hk2 Hcv. rewrite Hheap in Hcv.
      destruct (Hmap _ _ _ _ H2 Hk2) as (_ & lp0 & H0 & Hk0). by eapply Hown.
    + assert (HE' : ∀ p, p ∈ E → is_Some (heap w' !! p) ∧
                ∀ l2 lp2 k, loops w' !! l2 = Some lp2 → fdconns lp2 !! k ≠ Some p).
      { intros p Hp. destruct (HE p Hp) as [Hin Hun]. split; [by rewrite Hheap|].
        intros l2 lp2 k H2 Hk2.
        destruct (Hmap _ _ _ _ H2 Hk2) as (_ & lp0 & H0 & Hk0). by eapply Hun. }
      assert (HcE' : is_Some (heap w' !! c) ∧
                ∀ l2 lp2 k, loops w' !! l2 = Some lp2 → fdconns lp2 !! k ≠ Some c).
      { split; [by rewrite Hheap, Hc|]. intros l2 lp2 k H2 Hk2.
        by destruct (Hmap _ _ _ _ H2 Hk2) as [? _]. }
      assert (HO' : ∀ p, p ∈ O →
                ∃ cv0, heap w' !! p = Some cv0 ∧ opened cv0 = true).
      { intros p Hp. rewrite Hheap. auto. }
      rewrite Htr, life_run_app, Hrun, life_run_app, (life_run_quiet _ _ Hq).
      destruct Htl as [->|[[err ->]| ->]].
      * exists O, E. done.
      * exists O, ({[c]} ∪ E). cbn [life_run life_step fst snd].
        rewrite (bool_decide_eq_false_2 (c ∈ E)) by done.
        split; [done|]. split; [done|].
        intros p [->%elem_of_singleton|Hp]%elem_of_union; auto.
      * exists O, ({[c]} ∪ E). cbn [life_run life_step fst snd].
        rewrite (bool_decide_eq_false_2 (c ∈ E)) by done.
        split; [done|]. split; [done|].
        intros p0 [->%elem_of_singleton|Hp0]%elem_of_union; auto.
  - (* a new connection *)
    assert (Hmap : ∀ l2 lp2 k q, loops w' !! l2 = Some lp2 →
              fdconns lp2 !! k = Some q →
              (l2 = l ∧ q = p) ∨
              (q ≠ p ∧ ∃ lp0, loops w !! l2 = Some lp0 ∧ fdconns lp0 !! k = Some q)).
    { assert (Hold : ∀ l0 lp0 k q, loops w !! l0 = Some lp0 →
                fdconns lp0 !! k = Some q → q ≠ p).
      { intros l0 lp0 k q H0 Hk0 ->.
        destruct (Hwf l0 lp0 k p H0 Hk0) as [_ (cv0 & Hcv0 & _)]. congruence. }
      intros l2 lp2 k q H2 Hk2.
      destruct (loops_after _ _ _ _ _ _ _ Hl Hloops H2) as [[-> ->]|[Hne H0]].
      - rewrite Hf in Hk2. apply lookup_insert_Some in Hk2 as [[_ <-]|[_ Hk2]].
        + by left.
        + right. split; [by eapply Hold|]. by exists lp.
      - right. split; [by eapply Hold|]. by exists lp2. }
    split.
    + intros l2 lp2 k q cv0 H2 Hk2 Hcv. rewrite Hheap in Hcv.
      destruct (Hmap _ _ _ _ H2 Hk2) as [[-> ->]|(Hne & lp0 & H0 & Hk0)].
      * rewrite lookup_insert_eq in Hcv. by injection Hcv as <-.
      * rewrite lookup_insert_ne in Hcv by done. by eapply Hown.
    + exists O, E. rewrite Htr, life_run_app, Hrun, Hheap.
      split; [by apply life_run_quiet|]. split.
      * intros q Hq0. destruct (HO q Hq0) as (cv0 & Hcv0 & Hop0).
        exists cv0. rewrite lookup_insert_ne by congruence. done.
      * intros q Hq0. destruct (HE q Hq0) as [[cv0 Hcv0] Hun]. split.
        -- rewrite lookup_insert_ne by congruence. eauto.
        -- intros l2 lp2 k H2 Hk2.
           destruct (Hmap _ _ _ _ H2 Hk2) as [[-> ->]|(Hne & lp0 & H0 & Hk0)];
             [congruence | by eapply Hun].
  - (* a datagram *)
    assert (Hmap : ∀ l2 lp2 k q, loops w' !! l2 = Some lp2 →
              fdconns lp2 !! k = Some q →
              q ≠ p ∧ ∃ lp0, loops w !! l2 = Some lp0 ∧ fdconns lp0 !! k = Some q).
    { assert (Hold : ∀ l0 lp0 k q, loops w !! l0 = Some lp0 →
                fdconns lp0 !! k = Some q → q ≠ p).
      { intros l0 lp0 k q H0 Hk0 ->.
        destruct (Hwf l0 lp0 k p H0 Hk0) as [_ (cv0 & Hcv0 & _)]. congruence. }
      intros l2 lp2 k q H2 Hk2.
      destruct (loops_after _ _ _ _ _ _ _ Hl Hloops H2) as [[-> ->]|[Hne H0]].
      - rewrite Hf in Hk2. split; [by eapply Hold|]. by exists lp.
      - split; [by eapply Hold|]. by exists lp2. }
    assert (HpE : p ∉ E).
    { intros Hin. destruct (HE p Hin) as [[cv0 Hcv0] _]. congruence. }
    split.
    + intros l2 lp2 k q cv0 H2 Hk2 Hcv. rewrite Hheap in Hcv.
      destruct (Hmap _ _ _ _ H2 Hk2) as (Hne & lp0 & H0 & Hk0).
      rewrite lookup_insert_ne in Hcv by done. by eapply Hown.
    + exists O, E.
      rewrite Htr, life_run_app, Hrun, (life_run_around _ _ _ _ Hq1 Hq2).
      cbn [life_run life_step fst snd].
      rewrite (bool_decide_eq_false_2 (p ∈ E)) by done.
      rewrite Hheap. split; [done|]. split.
      * intros q Hq0. destruct (HO q Hq0) as (cv0 & Hcv0 & Hop0).
        exists cv0. rewrite lookup_insert_ne by congruence. done.
      * intros q Hq0. destruct (HE q Hq0) as [[cv0 Hcv0] Hun]. split.
        -- rewrite lookup_insert_ne by congruence. eauto.
        -- intros l2 lp2 k H2 Hk2.
           destruct (Hmap _ _ _ _ H2 Hk2) as (Hne & lp0 & H0 & Hk0).
           by eapply Hun.
Qed.

Lemma dispatch_no_loop_trace s l k n o w r w' :
  loops w !! l = None →
  dispatch s l k n o w = Some (r, w') →
  ∃ t, trace w' = trace w ++ t ∧ quiet t.
Proof.
  intros Hl. unfold dispatch. destruct (k =? 0).
  - destruct n as [d|e|v|]; cbn [loopNote].
    + destruct (Tick (events s)) as [[delay a]|]; [|done]. mrun.
      destruct a; intros [= <- <-];
        (exists [CallTick; SendTch delay]; split; [by normw | quiet]).
    + intros [= <- <-]. exists []. split; [by rewrite app_nil_r | quiet].
    + unfold bind, load, get_loop. destruct (heap w !! v); [|done].
      by rewrite Hl.
    + intros [= <- <-]. exists []. split; [by rewrite app_nil_r | quiet].
  - unfold bind, get_loop. by rewrite Hl.
Qed.

Lemma serve_lookup s numLoops l lp :
  loops (serve s numLoops) !! l = Some lp → lp = new_loop s l.
Proof.
  cbn [serve loops]. intros H.
  apply list_lookup_fmap_Some in H as (i & -> & Hi).
  apply lookup_seq in Hi as [-> _]. done.
Qed.

Lemma reachable_life s numLoops w :
  reachable s numLoops w → life_inv w ∧ idx_inv w.
Proof.
  induction 1 as [|w l k n o r w' Hreach IH Hok Hrun
                   |w l lp k c r w' Hreach IH Hl Hfd Hrun].
  - split; [split|].
    + intros l lp k p cv Hl Hk. apply serve_lookup in Hl as ->.
      cbn [new_loop fdconns] in Hk. by rewrite lookup_empty in Hk.
    + exists ∅, ∅. cbn [serve trace life_run]. split; [done|].
      split; intros p Hp; by apply not_elem_of_empty in Hp.
    + intros l lp Hl. by apply serve_lookup in Hl as ->.
  - destruct (reachable_inv _ _ _ Hreach) as [Hwf _]. destruct IH as [IH Hidx].
    destruct (loops w !! l) as [lp|] eqn:Hl.
    + pose proof (dispatch_shape s l k n o w lp r w' Hwf Hl Hok Hrun) as Hsh.
      split; [by eapply shape_preserves_life|].
      assert (∃ lp', loops w' = <[l := lp']> (loops w) ∧ idx lp' = idx lp)
        as (lp' & Hloops & Hi) by (destruct Hsh; eauto).
      intros l2 lp2 H2.
      destruct (loops_after _ _ _ _ _ _ _ Hl Hloops H2) as [[-> ->]|[_ H0]];
        [rewrite Hi|]; by apply Hidx.
    + destruct (dispatch_no_loop s l k n o w r w' Hl Hrun) as [Hloops Hheap].
      destruct (dispatch_no_loop_trace s l k n o w r w' Hl Hrun)
        as (t & Htr & Hq).
      destruct IH as (Hown & O & E & Hlr & HO & HE).
      split; [split|].
      * unfold owner_inv. rewrite Hloops, Hheap. exact Hown.
      * exists O, E. rewrite Htr, life_run_app, Hlr, Hloops, Hheap.
        split; [by apply life_run_quiet | done].
      * unfold idx_inv. by rewrite Hloops.
  - destruct (reachable_inv _ _ _ Hreach) as [Hwf _]. destruct IH as [IH Hidx].
    destruct (Hwf l lp k c Hl Hfd) as [_ (cv & Hc & Hcfd)].
    assert (Hk : fdconns lp !! fd cv = Some c) by by rewrite Hcfd.
    pose proof (loopCloseConn_shape s l c None w lp cv r w' Hl Hc Hk Hrun) as Hsh.
    split; [by eapply shape_preserves_life|].
    assert (∃ lp', loops w' = <[l := lp']> (loops w) ∧ idx lp' = idx lp)
      as (lp' & Hloops & Hi) by (destruct Hsh; eauto).
    intros l2 lp2 H2.
    destruct (loops_after _ _ _ _ _ _ _ Hl Hloops H2) as [[-> ->]|[_ H0]];
      [rewrite Hi|]; by apply Hidx.
Qed.

Lemma life_run_sees st t st' p :
  life_run st t = Some st' → CallOpened p ∈ t → p ∈ st'.1.
Proof.
  revert st. induction t as [|e t IH]; intros st Hrun Hin.
  { by apply elem_of_nil in Hin. }
  cbn [life_run] in Hrun.
  destruct (life_step st e) as [st1|] eqn:He; [|done].
  apply elem_of_cons in Hin as [<-|Hin].
  - destruct (life_step_sees _ _ _ p He) as [Ho _].
    pose proof (life_run_mono _ _ _ Hrun) as [H1 _]. apply H1. by apply Ho.
  - by eapply IH.
Qed.

Lemma life_run_split st t1 e t2 st' :
  life_run st (t1 ++ e :: t2) = Some st' →
  ∃ st1 st2, life_run st t1 = Some st1 ∧ life_step st1 e = Some st2 ∧
             life_run st2 t2 = Some st'.
Proof.
  rewrite life_run_app. destruct (life_run st t1) as [st1|]; [|done].
  cbn [life_run]. destruct (life_step st1 e) as [st2|] eqn:He; [|done].
  eauto.
Qed.

(** ** The life of a connection *)

(** X5: in every world the server reaches, [Opened] has been called at most
    once on each connection object: a call [Opened(c)] in the log is neither
    preceded nor followed by another. *)
Theorem opened_at_most_once s numLoops w t1 p t2 :
  reachable s numLoops w →
  trace w = t1 ++ CallOpened p :: t2 →
  (CallOpened p ∉ t1) ∧ (CallOpened p ∉ t2).
Proof.
  intros Hreach Htr.
  destruct (reachable_life _ _ _ Hreach) as [(_ & O & E & Hrun & _) _].
  rewrite Htr in Hrun.
  destruct (life_run_split _ _ _ _ _ Hrun) as (st1 & st2 & H1 & He & H2).
  split.
  - intros Hin. pose proof (life_run_sees _ _ _ p H1 Hin) as Hp.
    cbn [life_step] in He.
    rewrite (bool_decide_eq_true_2 (p ∈ st1.1)) in He by done.
    by rewrite orb_true_r in He.
  - destruct (life_step_sees _ _ _ p He) as [Ho _].
    eapply life_run_opened; [|exact H2]. by apply Ho.
Qed.

(** X6: in every world the server reaches, the [Closed] or [Detached] call
    on a connection object is the last callback on it: no [Data], [Opened],
    [Closed] or [Detached] call on the same object follows in the log, also
    when its fd number has been given to a new connection since. *)
Theorem closed_is_last s numLoops w t1 e p t2 :
  reachable s numLoops w →
  trace w = t1 ++ e :: t2 →
  ends p e →
  ∀ e', e' ∈ t2 → callback_ptr e' ≠ Some p.
Proof.
  intros Hreach Htr Hend.
  destruct (reachable_life _ _ _ Hreach) as [(_ & O & E & Hrun & _) _].
  rewrite Htr in Hrun.
  destruct (life_run_split _ _ _ _ _ Hrun) as (st1 & st2 & H1 & He & H2).
  destruct (life_step_sees _ _ _ p He) as [_ Hp].
  eapply life_run_ended; [|exact H2]. by apply Hp.
Qed.

(** X7: in every world the server reaches, a connection that some loop's
    [fdconns] maps names that loop in its [loop] field, so that [Wake] on it
    triggers the poller of the loop that owns it, with the connection as the
    note; and that note, dispatched there, is not stale: it makes the call
    [Data(c, empty)] when [Data] is set. *)
Theorem wake_reaches_owner s numLoops w l lp k c o :
  reachable s numLoops w →
  loops w !! l = Some lp →
  fdconns lp !! k = Some c →
  Wake c w = Some (Some (l, NoteConn c)) ∧
  ∃ w', dispatch s l 0 (NoteConn c) o w = Some (None, w') ∧
        trace w' = trace w ++
                   match Data (events s) with
                   | Some _ => [CallData c [] false]
                   | None => []
                   end.
Proof.
  intros Hreach Hl Hk.
  destruct (reachable_inv _ _ _ Hreach) as [Hwf _].
  destruct (reachable_life _ _ _ Hreach) as [(Hown & _) _].
  destruct (Hwf l lp k c Hl Hk) as [_ (cv & Hc & Hfd)].
  split.
  - unfold Wake. rewrite Hc. by rewrite (Hown l lp k c cv Hl Hk Hc).
  - unfold dispatch. cbn [Z.eqb]. unfold loopNote. mrun. rewrite Hfd.
    rewrite bool_decide_eq_false_2 by (intros H; by apply H).
    destruct (Data (events s)) as [f|] eqn:Hd.
    + rewrite (loopWake_run s l c w lp cv f Hd Hl Hc). eexists. split; done.
    + unfold loopWake. rewrite Hd. exists w. split; [done|].
      by rewrite app_nil_r.
Qed.

Lemma ex_closed_reachable : reachable (ex_server Random) 1 ex_closed_world.
Proof.
  destruct (run_from_spec ex_quit_world
              (dispatch (ex_server Random) 0 6 NoteOther
                 (ex_io_oracle (WriteOk 0) (ReadOk []))))
    as [r Hr]; [by vm_compute|].
  eapply reach_dispatch;
    [apply ex_quit_reachable | apply ex_io_accept_ok | exact Hr].
Qed.

Lemma ex_reused_reachable : reachable (ex_server Random) 1 ex_reused_world.
Proof.
  destruct (run_from_spec ex_closed_world
              (dispatch (ex_server Random) 0 3 NoteOther
                 (ex_oracle (WriteOk 0) (ReadOk []))))
    as [r1 Hr1]; [by vm_compute|].
  destruct (run_from_spec
              (run_from ex_closed_world
                 (dispatch (ex_server Random) 0 3 NoteOther
                    (ex_oracle (WriteOk 0) (ReadOk []))))
              (dispatch (ex_server Random) 0 6 NoteOther
                 (ex_io_oracle (WriteOk 0) (ReadOk []))))
    as [r2 Hr2]; [by vm_compute|].
  eapply reach_dispatch; [|apply ex_io_accept_ok | exact Hr2].
  eapply reach_dispatch; [apply ex_closed_reachable | | exact Hr1].
  assert (Hm : mapped ex_closed_world 0 6 = None) by (by vm_compute).
  intros nfd sa lp [= <- <-] Hl. split; [lia|].
  unfold mapped in Hm. by rewrite Hl in Hm.
Qed.

Lemma opened_at_most_once_witness :
  reachable (ex_server Random) 1 ex_reused_world ∧
  trace ex_reused_world =
    [SysAccept 3; SysSetNonblock 6 true] ++ CallOpened 1 ::
    [SysRead 6; CallData 1 [Byte.x71] false; SysClose 6; CallClosed 1 None;
     SysAccept 3; SysSetNonblock 6 true; CallOpened 2] ∧
  (CallOpened 1%positive ∉ [SysAccept 3; SysSetNonblock 6 true]) ∧
  (CallOpened 1%positive ∉
     [SysRead 6; CallData 1 [Byte.x71] false; SysClose 6; CallClosed 1 None;
      SysAccept 3; SysSetNonblock 6 true; CallOpened 2]).
Proof.
  split; [apply ex_reused_reachable|]. split; [by vm_compute|].
  apply (opened_at_most_once (ex_server Random) 1 ex_reused_world);
    [apply ex_reused_reachable | by vm_compute].
Defined.

Lemma closed_is_last_witness :
  reachable (ex_server Random) 1 ex_reused_world ∧
  trace ex_reused_world =
    [SysAccept 3; SysSetNonblock 6 true; CallOpened 1; SysRead 6;
     CallData 1 [Byte.x71] false; SysClose 6] ++ CallClosed 1 None ::
    [SysAccept 3; SysSetNonblock 6 true; CallOpened 2] ∧
  ends 1 (CallClosed 1 None) ∧
  ∀ e', e' ∈ [SysAccept 3; SysSetNonblock 6 true; CallOpened 2] →
        callback_ptr e' ≠ Some 1%positive.
Proof.
  split; [apply ex_reused_reachable|]. split; [by vm_compute|].
  split; [left; by exists None|].
  apply (closed_is_last (ex_server Random) 1 ex_reused_world
           [SysAccept 3; SysSetNonblock 6 true; CallOpened 1; SysRead 6;
            CallData 1 [Byte.x71] false; SysClose 6] (CallClosed 1 None));
    [apply ex_reused_reachable | by vm_compute | left; by exists None].
Defined.

Lemma wake_reaches_owner_witness :
  reachable (ex_server Random) 1 ex_quit_world ∧
  mapped ex_quit_world 0 6 = Some 1%positive ∧
  Wake 1 ex_quit_world = Some (Some (0%nat, NoteConn 1)) ∧
  ∃ w', dispatch (ex_server Random) 0 0 (NoteConn 1)
          (ex_io_oracle (WriteOk 0) (ReadOk [])) ex_quit_world
        = Some (None, w') ∧
        trace w' = trace ex_quit_world ++
                   match Data (events (ex_server Random)) with
                   | Some _ => [CallData 1 [] false]
                   | None => []
                   end.
Proof.
  split; [apply ex_quit_reachable|]. split; [by vm_compute|].
  assert (Hm : mapped ex_quit_world 0 6 = Some 1%positive) by (by vm_compute).
  unfold mapped in Hm.
  destruct (loops ex_quit_world !! 0%nat) as [lp|] eqn:Hl; [|done].
  apply (wake_reaches_owner (ex_server Random) 1 ex_quit_world 0 lp 6 1
           (ex_io_oracle (WriteOk 0) (ReadOk [])));
    [apply ex_quit_reachable | exact Hl | exact Hm].
Defined.

(** ** No dispatch panics *)

Lemma shape_preserves_listed s l lp w w' :
  conns_wf w →
  loops w !! l = Some lp →
  step_shape s l lp w w' →
  listed_inv s w → listed_inv s w'.
Proof.
  intros Hwf Hl Hshape Hinv.
  destruct Hshape
    as [lp' t Hloops Hheap Htr Hq Hidx Hf Hn _
       |lp' c cv cv' q1 cb q2 Hloops Hc Hk Hheap Htr Hq1 Hq2 Hcb Hidx Hf Hn
          Hfd Hcl Hli Hop _
       |lp' c cv q tl Hloops Hc Hk Hheap Htr Hq Htl Hidx Hf Hn _
       |lp' p cvn t Hloops Hp Hheap Htr Hq Hidx Hfree Hr Hf Hn Hcl Hop Hli _
       |lp' p cvu q1 input q2 Hloops Hp Hheap Htr Hq1 Hq2 Hidx Hf Hn _];
    intros l2 lp2 k p2 cv2 H2 Hk2 Hcv2; rewrite Hheap in Hcv2.
  - destruct (loops_after _ _ _ _ _ _ _ Hl Hloops H2) as [[-> ->]|[_ H0]].
    + rewrite Hf in Hk2. by eapply Hinv.
    + by eapply Hinv.
  - assert (∃ lp0, loops w !! l2 = Some lp0 ∧ fdconns lp0 !! k = Some p2)
      as (lp0 & H0 & Hk0).
    { destruct (loops_after _ _ _ _ _ _ _ Hl Hloops H2) as [[-> ->]|[_ H0]].
      - exists lp. by rewrite <- Hf.
      - by exists lp2. }
    destruct (decide (p2 = c)) as [->|Hne].
    + rewrite lookup_insert_eq in Hcv2. injection Hcv2 as <-. rewrite Hli.
      by eapply Hinv.
    + rewrite lookup_insert_ne in Hcv2 by done. by eapply Hinv.
  - destruct (loops_after _ _ _ _ _ _ _ Hl Hloops H2) as [[-> ->]|[_ H0]].
    + rewrite Hf in Hk2. apply lookup_delete_Some in Hk2 as [_ Hk2].
      by eapply Hinv.
    + by eapply Hinv.
  - destruct (decide (p2 = p)) as [->|Hne].
    + rewrite lookup_insert_eq in Hcv2. by injection Hcv2 as <-.
    + rewrite lookup_insert_ne in Hcv2 by done.
      destruct (loops_after _ _ _ _ _ _ _ Hl Hloops H2) as [[-> ->]|[_ H0]].
      * rewrite Hf in Hk2. apply lookup_insert_Some in Hk2 as [[_ ?]|[_ Hk2]];
          [done|]. by eapply Hinv.
      * by eapply Hinv.
  - assert (∃ lp0, loops w !! l2 = Some lp0 ∧ fdconns lp0 !! k = Some p2)
      as (lp0 & H0 & Hk0).
    { destruct (loops_after _ _ _ _ _ _ _ Hl Hloops H2) as [[-> ->]|[_ H0]].
      - exists lp. by rewrite <- Hf.
      - by exists lp2. }
    destruct (decide (p2 = p)) as [->|Hne].
    + destruct (Hwf l2 lp0 k p H0 Hk0) as [_ (cv0 & Hcv0 & _)]. congruence.
    + rewrite lookup_insert_ne in Hcv2 by done. by eapply Hinv.
Qed.

Lemma reachable_listed s numLoops w :
  reachable s numLoops w → listed_inv s w.
Proof.
  induction 1 as [|w l k n o r w' Hreach IH Hok Hrun
                   |w l lp k c r w' Hreach IH Hl Hfd Hrun].
  - intros l lp k p cv Hl Hk. apply serve_lookup in Hl as ->.
    cbn [new_loop fdconns] in Hk. by rewrite lookup_empty in Hk.
  - destruct (reachable_inv _ _ _ Hreach) as [Hwf _].
    destruct (loops w !! l) as [lp|] eqn:Hl.
    + eapply shape_preserves_listed; [exact Hwf | exact Hl | | exact IH].
      by eapply dispatch_shape.
    + destruct (dispatch_no_loop s l k n o w r w' Hl Hrun) as [Hloops Hheap].
      unfold listed_inv. rewrite Hloops, Hheap. exact IH.
  - destruct (reachable_inv _ _ _ Hreach) as [Hwf _].
    destruct (Hwf l lp k c Hl Hfd) as [_ (cv & Hc & Hcfd)].
    assert (Hk : fdconns lp !! fd cv = Some c) by by rewrite Hcfd.
    eapply shape_preserves_listed; [exact Hwf | exact Hl | | exact IH].
    by eapply loopCloseConn_shape.
Qed.

Lemma loopDetachConn_total s l c err o w lp cv :
  loops w !! l = Some lp →
  heap w !! c = Some cv →
  ∃ r w', loopDetachConn s l c err o w = Some (r, w').
Proof.
  intros Hl Hc. destruct (Detached (events s)) as [f|] eqn:Hd.
  - destruct (loopDetachConn_run s l c err o w lp cv f Hd Hl Hc)
      as (r & w' & H & _). eauto.
  - unfold loopDetachConn. rewrite Hd.
    destruct (loopCloseConn_run s l c err w lp cv Hl Hc) as (r & w' & H & _).
    eauto.
Qed.

Lemma loopWake_total s l c w lp cv :
  loops w !! l = Some lp →
  heap w !! c = Some cv →
  ∃ r w', loopWake s l c w = Some (r, w').
Proof.
  intros Hl Hc. destruct (Data (events s)) as [f|] eqn:Hd.
  - rewrite (loopWake_run s l c w lp cv f Hd Hl Hc). eauto.
  - unfold loopWake. rewrite Hd. eauto.
Qed.

Lemma loopWrite_total s l c o w lp cv :
  loops w !! l = Some lp →
  heap w !! c = Some cv →
  ∃ r w', loopWrite s l c o w = Some (r, w').
Proof.
  intros Hl Hc. destruct (o_write o) as [k|e] eqn:Ho.
  - rewrite (loopWrite_ok s l c o w lp cv k Hl Hc Ho). eauto.
  - pose proof (loopWrite_err s l c o w lp cv e Hl Hc Ho) as H.
    destruct (decide (e = EAGAIN)); [rewrite H | destruct H as [r ->]]; eauto.
Qed.

Lemma loopAction_total s l c o w lp cv :
  loops w !! l = Some lp →
  heap w !! c = Some cv →
  ∃ r w', loopAction s l c o w = Some (r, w').
Proof.
  intros Hl Hc. destruct (action cv) eqn:Ha.
  - rewrite (loopAction_none s l c o w lp cv Hl Hc Ha). eauto.
  - unfold loopAction. mrun. rewrite Ha. by eapply loopDetachConn_total.
  - unfold loopAction. mrun. rewrite Ha.
    destruct (loopCloseConn_run s l c None w lp cv Hl Hc) as (r & w' & H & _).
    eauto.
  - unfold loopAction. mrun. rewrite Ha. eauto.
Qed.

Lemma loopRead_total s l c o w lp cv :
  loops w !! l = Some lp →
  heap w !! c = Some cv →
  ∃ r w', loopRead s l c o w = Some (r, w').
Proof.
  intros Hl Hc. destruct (o_read o) as [data|e] eqn:Ho.
  - destruct (decide (take (length (packet lp)) data = [])) as [Hd|Hd].
    + destruct (loopRead_eof s l c o w lp cv data Hl Hc Ho Hd) as [r ->].
      eauto.
    + rewrite (loopRead_data s l c o w lp cv data Hl Hc Ho Hd).
      destruct (Data (events s)); eauto.
  - pose proof (loopRead_err s l c o w lp cv e Hl Hc Ho) as H.
    destruct (decide (e = EAGAIN)); [rewrite H | destruct H as [r ->]]; eauto.
Qed.

Lemma loopAccept_total s l k o w lp :
  loops w !! l = Some lp →
  ∃ r w', loopAccept s l k o w = Some (r, w').
Proof.
  intros Hl. unfold loopAccept.
  destruct (find_listener k 0 (lns s)) as [[i ln]|] eqn:Hfind; [|eauto].
  apply find_listener_lookup in Hfind as [_ Hln].
  rewrite Nat.sub_0_r in Hln. mrun.
  destruct (1 <? len (loops w)).
  - destruct (balance s).
    + by eapply loopAccept_take_total.
    + destruct (negb _); [eauto|].
      by eapply (loopAccept_take_total s l i ln k o (set_accepted _ w) lp).
    + destruct (existsb _ _); [eauto|]. by eapply loopAccept_take_total.
  - by eapply loopAccept_take_total.
Qed.

Lemma loopNote_total s l n w lp :
  loops w !! l = Some lp →
  note_ok s w n →
  ∃ r w', loopNote s l n w = Some (r, w').
Proof.
  intros Hl Hn. destruct n as [d|e|v|]; cbn [loopNote note_ok] in *.
  - destruct (Tick (events s)) as [[delay a]|]; [|done]. mrun.
    destruct a; eauto.
  - eauto.
  - destruct Hn as [cv Hv]. mrun.
    destruct (bool_decide _); [eauto|]. by eapply loopWake_total.
  - eauto.
Qed.

(** X8: in every world the server reaches, a dispatch on an existing loop
    returns, whatever the kernel answers: it meets no nil connection, no
    listener index out of range in [loopOpened] and no slice out of range.
    For fd 0 the note has to be one the program posts. *)
Theorem dispatch_returns s numLoops w l lp k n o :
  reachable s numLoops w →
  loops w !! l = Some lp →
  (k = 0 → note_ok s w n) →
  ∃ r w', dispatch s l k n o w = Some (r, w').
Proof.
  intros Hreach Hl Hn.
  destruct (reachable_inv _ _ _ Hreach) as [Hwf _].
  pose proof (reachable_listed _ _ _ Hreach) as Hli.
  unfold dispatch. destruct (Z.eqb_spec k 0) as [Hk|Hk].
  { by eapply loopNote_total; [|apply Hn]. }
  mrun. destruct (fdconns lp !! k) as [c|] eqn:Hfd.
  2:{ by eapply loopAccept_total. }
  destruct (Hwf l lp k c Hl Hfd) as [_ (cv & Hc & Hcfd)].
  mrun. destruct (opened cv) eqn:Hop; cbn [negb].
  2:{ destruct (Hli l lp k c cv Hl Hfd Hc) as (i & ln & Hi & Hln).
      erewrite (loopOpened_run s l c w lp cv ln Hl Hc);
        [eauto | lia | by rewrite Hi, Nat2Z.id]. }
  destruct (0 <? len (out cv)).
  { by eapply loopWrite_total. }
  destruct (negb _).
  { by eapply loopAction_total. }
  by eapply loopRead_total.
Qed.

Lemma dispatch_returns_witness :
  reachable (ex_server Random) 1 ex_accepted_world ∧
  mapped ex_accepted_world 0 6 = Some 1%positive ∧
  ∃ r w', dispatch (ex_server Random) 0 6 NoteOther
            (ex_io_oracle (WriteOk 0) (ReadOk [])) ex_accepted_world
          = Some (r, w').
Proof.
  split; [apply ex_accepted_reachable|]. split; [by vm_compute|].
  assert (Hm : mapped ex_accepted_world 0 6 = Some 1%positive)
    by (by vm_compute).
  unfold mapped in Hm.
  destruct (loops ex_accepted_world !! 0%nat) as [lp|] eqn:Hl; [|done].
  apply (dispatch_returns (ex_server Random) 1 ex_accepted_world 0 lp 6
           NoteOther (ex_io_oracle (WriteOk 0) (ReadOk [])));
    [apply ex_accepted_reachable | exact Hl | intros H; discriminate H].
Defined.

(** ** Balancing by least connections *)

Lemma load_of_Some w l m :
  load_of w l = Some m ↔ ∃ lp, loops w !! l = Some lp ∧ size (fdconns lp) = m.
Proof.
  unfold load_of. destruct (loops w !! l) as [lp|]; cbn.
  - split; [intros [= <-]; eauto | intros (? & [= <-] & <-); done].
  - split; [done | by intros (? & ? & _)].
Qed.

(** X9: under [LeastConnections], in a world the server reaches, a loop
    declines a readable listener exactly when some loop maps strictly fewer
    connections than it does: then nothing at all happens, no [accept]
    either; otherwise it takes from the listener. *)
Theorem least_connections_choice s numLoops w l k i ln o m :
  reachable s numLoops w →
  balance s = LeastConnections →
  find_listener k 0 (lns s) = Some (i, ln) →
  load_of w l = Some m →
  ((∃ l2 m2, load_of w l2 = Some m2 ∧ (m2 < m)%nat) →
   loopAccept s l k o w = Some (None, w)) ∧
  ((∀ l2 m2, load_of w l2 = Some m2 → (m ≤ m2)%nat) →
   loopAccept s l k o w = loopAccept_take s l i ln k o w).
Proof.
  intros Hreach Hbal Hfind Hload.
  destruct (reachable_inv _ _ _ Hreach) as [_ Hcnt].
  destruct (reachable_life _ _ _ Hreach) as [_ Hidx].
  apply load_of_Some in Hload as (lp & Hl & Hm).
  unfold loopAccept. rewrite Hfind. mrun. rewrite Hbal.
  set (b := existsb _ (loops w)).
  assert (Hb : b = true ↔ ∃ l2 m2, load_of w l2 = Some m2 ∧ (m2 < m)%nat).
  { unfold b. rewrite existsb_exists. split.
    - intros (lp2 & Hin & Hc).
      apply list_elem_of_In, list_elem_of_lookup in Hin as [l2 H2].
      exists l2, (size (fdconns lp2)). split; [apply load_of_Some; eauto|].
      apply andb_true_iff in Hc as [_ Hc]. apply Z.ltb_lt in Hc.
      rewrite (Hcnt _ _ H2), (Hcnt _ _ Hl) in Hc. lia.
    - intros (l2 & m2 & H2 & Hlt).
      apply load_of_Some in H2 as (lp2 & H2 & Hm2).
      exists lp2. split.
      { apply list_elem_of_In, list_elem_of_lookup. eauto. }
      apply andb_true_iff. split.
      + apply negb_true_iff, Z.eqb_neq.
        rewrite (Hidx _ _ H2), (Hidx _ _ Hl). intros Heq.
        assert (l2 = l) as -> by lia.
        rewrite Hl in H2. injection H2 as <-. lia.
      + apply Z.ltb_lt. rewrite (Hcnt _ _ H2), (Hcnt _ _ Hl). lia. }
  split.
  - intros Hex. destruct (Z.ltb_spec 1 (len (loops w))) as [Hlen|Hlen].
    + apply Hb in Hex. by rewrite Hex.
    + exfalso. destruct Hex as (l2 & m2 & H2 & Hlt).
      apply load_of_Some in H2 as (lp2 & H2 & Hm2).
      apply lookup_lt_Some in Hl as Hlt1. apply lookup_lt_Some in H2 as Hlt2.
      unfold len in Hlen.
      assert (l2 = l) as -> by lia.
      rewrite Hl in H2. injection H2 as <-. lia.
  - intros Hall. destruct (1 <? len (loops w)); [|done].
    destruct b; [|done].
    destruct (proj1 Hb eq_refl) as (l2 & m2 & H2 & Hlt).
    specialize (Hall l2 m2 H2). lia.
Qed.

Lemma ex_lc_reachable : reachable (ex_server LeastConnections) 2 ex_lc_world.
Proof.
  destruct (run_from_spec (serve (ex_server LeastConnections) 2)
              (dispatch (ex_server LeastConnections) 0 3 NoteOther
                 (ex_oracle (WriteOk 0) (ReadOk []))))
    as [r Hr]; [by vm_compute|].
  eapply reach_dispatch; [apply reach_serve | | exact Hr].
  intros nfd sa lp [= <- <-] [= <-]. split; [lia | done].
Qed.

Lemma least_connections_choice_witness :
  reachable (ex_server LeastConnections) 2 ex_lc_world ∧
  load_of ex_lc_world 0 = Some 1%nat ∧
  load_of ex_lc_world 1 = Some 0%nat ∧
  loopAccept (ex_server LeastConnections) 0 3
    (ex_oracle (WriteOk 0) (ReadOk [])) ex_lc_world = Some (None, ex_lc_world).
Proof.
  split; [apply ex_lc_reachable|]. split; [by vm_compute|].
  split; [by vm_compute|].
  apply (least_connections_choice (ex_server LeastConnections) 2 ex_lc_world
           0 3 0 {| ln_fd := 3; ln_network := TCP; lnaddr := NetAddr [] [] |}
           (ex_oracle (WriteOk 0) (ReadOk [])) 1);
    [apply ex_lc_reachable | reflexivity | reflexivity | by vm_compute |].
  exists 1%nat, 0%nat. split; [by vm_compute | lia].
Defined.

(** ** Loops do not touch each other *)

(** X10: in a world the server reaches, a dispatch on loop [l] changes no
    other loop and no connection another loop maps: all it shares with them
    is the counter [accepted]. *)
Theorem dispatch_isolated s numLoops w l k n o r w' l2 :
  reachable s numLoops w →
  accept_ok w l o →
  dispatch s l k n o w = Some (r, w') →
  l2 ≠ l →
  loops w' !! l2 = loops w !! l2 ∧
  ∀ k2 p, mapped w l2 k2 = Some p → heap w' !! p = heap w !! p.
Proof.
  intros Hreach Hok Hrun Hne.
  destruct (reachable_inv _ _ _ Hreach) as [Hwf _].
  destruct (reachable_life _ _ _ Hreach) as [[Hown _] _].
  destruct (loops w !! l) as [lp|] eqn:Hl.
  2:{ destruct (dispatch_no_loop s l k n o w r w' Hl Hrun) as [-> ->]. done. }
  assert (Hin : ∀ k2 p, mapped w l2 k2 = Some p →
            ∃ lp2 cv2, loops w !! l2 = Some lp2 ∧ fdconns lp2 !! k2 = Some p ∧
                       heap w !! p = Some cv2).
  { intros k2 p. unfold mapped.
    destruct (loops w !! l2) as [lp2|] eqn:H2; [|done]. cbn. intros Hk2.
    destruct (Hwf l2 lp2 k2 p H2 Hk2) as [_ (cv2 & Hcv2 & _)]. eauto. }
  destruct (dispatch_shape s l k n o w lp r w' Hwf Hl Hok Hrun)
    as [lp' t Hloops Hheap _ _ _ _ _ _
       |lp' c cv cv' q1 cb q2 Hloops Hc Hk Hheap _ _ _ _ _ _ _ _ _ _ _ _
       |lp' c cv q tl Hloops _ _ Hheap _ _ _ _ _ _ _
       |lp' p cvn t Hloops Hp Hheap _ _ _ _ _ _ _ _ _ _ _
       |lp' p cvu q1 input q2 Hloops Hp Hheap _ _ _ _ _ _ _];
    rewrite Hloops, Hheap;
    (split; [by apply list_lookup_insert_ne|]); try done;
    intros k2 p2 Hm; destruct (Hin k2 p2 Hm) as (lp2 & cv2 & H2 & Hk2 & Hcv2);
    apply lookup_insert_ne; intros <-.
  - pose proof (Hown l lp (fd cv) _ cv Hl Hk Hc) as H1.
    rewrite Hc in Hcv2. injection Hcv2 as <-.
    pose proof (Hown l2 lp2 k2 _ cv H2 Hk2 Hc) as H3. congruence.
  - congruence.
  - congruence.
Qed.

Lemma dispatch_isolated_witness :
  reachable (ex_server LeastConnections) 2 ex_lc_world ∧
  returns ex_lc_world
    (dispatch (ex_server LeastConnections) 1 3 NoteOther
       (ex_oracle (WriteOk 0) (ReadOk []))) = true ∧
  mapped ex_lc_world 0 6 = Some 1%positive ∧
  1%nat ≠ 0%nat ∧
  let w' := run_from ex_lc_world
              (dispatch (ex_server LeastConnections) 1 3 NoteOther
                 (ex_oracle (WriteOk 0) (ReadOk []))) in
  loops w' !! 0%nat = loops ex_lc_world !! 0%nat ∧
  ∀ k2 p, mapped ex_lc_world 0 k2 = Some p →
          heap w' !! p = heap ex_lc_world !! p.
Proof.
  split; [apply ex_lc_reachable|]. split; [by vm_compute|].
  split; [by vm_compute|]. split; [done|].
  destruct (run_from_spec ex_lc_world
              (dispatch (ex_server LeastConnections) 1 3 NoteOther
                 (ex_oracle (WriteOk 0) (ReadOk []))))
    as [r Hr]; [by vm_compute|].
  apply (dispatch_isolated (ex_server LeastConnections) 2 ex_lc_world 1 3
           NoteOther (ex_oracle (WriteOk 0) (ReadOk [])) r _ 0);
    [apply ex_lc_reachable | | exact Hr | done].
  assert (Hm : mapped ex_lc_world 1 6 = None) by (by vm_compute).
  intros nfd sa lp [= <- <-] Hl. split; [lia|].
  unfold mapped in Hm. by rewrite Hl in Hm.
Defined.

(** ** Detach with a [Detached] callback *)

Lemma loopDetachConn_exact s l c err o w lp cv f :
  Detached (events s) = Some f →
  loops w !! l = Some lp →
  heap w !! c = Some cv →
  loopDetachConn s l c err o w =
    Some (match o_setnonblock o with
          | Some e => Some e
          | None => match f cv (fd cv) with
                    | Shutdown => Some errClosing
                    | _ => None
                    end
          end,
          {| loops := <[l := set_fdconns (delete (fd cv))
                              (set_count (λ n, wrap32 (n + -1))
                                 (set_poll (ModDetach (fd cv)) lp))]> (loops w);
             accepted := accepted w;
             heap := heap w;
             trace := trace w ++ SysSetNonblock (fd cv) false ::
                      match o_setnonblock o with
                      | Some _ => []
                      | None => [CallDetached c (fd cv)]
                      end |}).
Proof.
  intros Hd Hl Hc. unfold loopDetachConn. rewrite Hd. mrun.
  destruct (o_setnonblock o) as [e|].
  - wfinish.
  - mrun. destruct (f cv (fd cv)); wfinish.
Qed.

(** X11: with a [Detached] callback set, a pending [Detach] on an open
    connection with nothing to send takes the fd out of the poller and out of
    [fdconns] and makes it blocking, without closing it, and hands it to
    [Detached]; [Closed] is not called.  When the system refuses to make the
    fd blocking, that error is returned and [Detached] is not called either:
    the loop has let go of an fd that is neither closed nor handed over. *)
Theorem detach_hands_over_open_fd s l k n o w lp c cv f :
  Detached (events s) = Some f →
  loops w !! l = Some lp →
  fdconns lp !! k = Some c →
  heap w !! c = Some cv →
  fd cv = k → k ≠ 0 →
  opened cv = true → out cv = [] → action cv = Detach →
  ∃ w',
    dispatch s l k n o w =
      Some (match o_setnonblock o with
            | Some e => Some e
            | None => match f cv k with
                      | Shutdown => Some errClosing
                      | _ => None
                      end
            end, w') ∧
    mapped w' l k = None ∧
    mask w' l k = None ∧
    (count <$> loops w' !! l) = Some (wrap32 (count lp - 1)) ∧
    heap w' = heap w ∧
    trace w' = trace w ++ SysSetNonblock k false ::
               match o_setnonblock o with
               | Some _ => []
               | None => [CallDetached c k]
               end.
Proof.
  intros Hd Hl Hfd Hc Hk Hk0 Hop Hout Ha. subst k.
  assert (Hrun : dispatch s l (fd cv) n o w = loopDetachConn s l c None o w).
  { unfold dispatch. destruct (Z.eqb_spec (fd cv) 0) as [?|_]; [done|].
    mrun. rewrite Hfd. mrun. rewrite Hop, Hout.
    rewrite bool_decide_eq_false_2 by by rewrite Ha.
    cbn [negb]. change (0 <? len []) with false. cbn match.
    unfold loopAction. mrun. by rewrite Ha. }
  rewrite Hrun, (loopDetachConn_exact s l c None o w lp cv f Hd Hl Hc).
  eexists. split; [reflexivity|].
  assert (Hlt : (l < length (loops w))%nat) by by eapply lookup_lt_Some.
  unfold mapped, mask. cbn [loops heap trace].
  rewrite list_lookup_insert_eq by done. cbn.
  split; [apply lookup_delete_eq|]. split; [apply lookup_delete_eq|]. done.
Qed.

Lemma detach_hands_over_open_fd_witness :
  mapped (ex_world [] Detach ReadWrite) 0 5 = Some 1%positive ∧
  ∃ w',
    dispatch ex_detach_server 0 5 NoteOther ex_ebadf_oracle
      (ex_world [] Detach ReadWrite) = Some (Some (Errno 9), w') ∧
    mapped w' 0 5 = None ∧
    mask w' 0 5 = None ∧
    (count <$> loops w' !! 0%nat) = Some (wrap32 (1 - 1)) ∧
    heap w' = heap (ex_world [] Detach ReadWrite) ∧
    trace w' = [SysSetNonblock 5 false].
Proof.
  split; [reflexivity|].
  apply (detach_hands_over_open_fd ex_detach_server 0 5 NoteOther
           ex_ebadf_oracle (ex_world [] Detach ReadWrite)
           (ex_loop 0 ReadWrite) 1 (ex_conn [] Detach) (λ _ _, ActNone));
    try reflexivity. done.
Defined.

(** ** The connections left at shutdown *)

Lemma serve_close_conns_run s numLoops l cs :
  ∀ w lp,
    reachable s numLoops w →
    loops w !! l = Some lp →
    cs ≡ₚ (map_to_list (fdconns lp)).*2 →
    ∃ w' lp',
      serve_close_conns s l cs w = Some (tt, w') ∧
      reachable s numLoops w' ∧
      loops w' = <[l := lp']> (loops w) ∧
      fdconns lp' = ∅ ∧
      heap w' = heap w ∧
      trace w' = trace w ++ (cs ≫= close_log s (heap w)).
Proof.
  induction cs as [|c cs IH]; intros w lp Hreach Hl Hperm.
  - exists w, lp. split; [done|]. split; [done|].
    split; [by rewrite list_insert_id|]. split.
    + symmetry in Hperm. apply Permutation_nil_r in Hperm.
      apply fmap_nil_inv in Hperm. by apply map_to_list_empty_iff.
    + split; [done|]. by rewrite app_nil_r.
  - assert (Hin : c ∈ (map_to_list (fdconns lp)).*2).
    { rewrite <- Hperm. apply list_elem_of_here. }
    apply list_elem_of_fmap in Hin as ([k c'] & Hc' & Hin).
    cbn in Hc'. subst c'. apply elem_of_map_to_list in Hin.
    destruct (reachable_inv _ _ _ Hreach) as [Hwf _].
    destruct (Hwf l lp k c Hl Hin) as [_ (cv & Hc & Hcfd)].
    destruct (loopCloseConn_run s l c None w lp cv Hl Hc)
      as (r1 & w1 & H1 & Hloops & Hheap & _ & Htr).
    assert (Hl1 : loops w1 !! l = Some (set_fdconns (delete (fd cv))
                    (set_count (λ n, wrap32 (n + -1)) lp))).
    { rewrite Hloops. apply list_lookup_insert_eq. by eapply lookup_lt_Some. }
    destruct (IH w1 _ (reach_shutdown s numLoops w l lp k c r1 w1
                         Hreach Hl Hin H1) Hl1)
      as (w' & lp' & Hrun & Hreach' & Hloops' & Hempty & Hheap' & Htr').
    { cbn [fdconns set_fdconns]. rewrite Hcfd.
      apply (Permutation_cons_inv (a := c)). rewrite Hperm.
      pose proof (map_to_list_delete (fdconns lp) k c Hin) as Hd.
      apply (fmap_Permutation snd) in Hd. by rewrite <- Hd. }
    exists w', lp'. split.
    { cbn [serve_close_conns]. unfold bind. by rewrite H1. }
    split; [done|]. split.
    { by rewrite Hloops', Hloops, list_insert_insert_eq. }
    split; [done|]. split; [congruence|].
    rewrite Htr', Htr, Hheap. cbn [mbind list_bind].
    unfold close_log at 2. rewrite Hc. by rewrite <- !app_assoc.
Qed.

(** X12: the loop the function [serve] defers closes every connection a
    loop still maps, whatever the order in which the range over [fdconns]
    produces them: each is closed once by [loopCloseConn] with a nil error
    (its fd closed, [Closed] called when set), no [loopCloseConn] panics,
    and the loop is left with an empty [fdconns] and a [count] of zero; the
    other loops are left alone. *)
Theorem shutdown_closes_all s numLoops w l cs :
  reachable s numLoops w →
  cs ≡ₚ conns_of w l →
  ∃ w',
    serve_close_conns s l cs w = Some (tt, w') ∧
    reachable s numLoops w' ∧
    (∀ lp', loops w' !! l = Some lp' → fdconns lp' = ∅ ∧ count lp' = 0) ∧
    (∀ l2, l2 ≠ l → loops w' !! l2 = loops w !! l2) ∧
    heap w' = heap w ∧
    trace w' = trace w ++ (cs ≫= close_log s (heap w)).
Proof.
  intros Hreach Hperm. unfold conns_of in Hperm.
  destruct (loops w !! l) as [lp|] eqn:Hl.
  - destruct (serve_close_conns_run s numLoops l cs w lp Hreach Hl Hperm)
      as (w' & lp' & Hrun & Hreach' & Hloops & Hempty & Hheap & Htr).
    exists w'. split; [done|]. split; [done|]. split.
    + intros lp2 H2.
      assert (lp2 = lp') as ->.
      { rewrite Hloops, list_lookup_insert_eq in H2 by by eapply lookup_lt_Some.
        by injection H2. }
      split; [done|].
      destruct (reachable_inv _ _ _ Hreach') as [_ Hcnt].
      rewrite (Hcnt l lp' H2), Hempty. done.
    + split; [|done]. intros l2 Hne. rewrite Hloops.
      by apply list_lookup_insert_ne.
  - apply Permutation_nil_r in Hperm as ->. exists w.
    split; [done|]. split; [done|]. split; [by intros lp' H; rewrite Hl in H|].
    split; [done|]. split; [done|]. by rewrite app_nil_r.
Qed.

Lemma shutdown_closes_all_witness :
  reachable (ex_server Random) 1 ex_quit_world ∧
  conns_of ex_quit_world 0 = [1%positive] ∧
  ∃ w',
    serve_close_conns (ex_server Random) 0 [1%positive] ex_quit_world
      = Some (tt, w') ∧
    reachable (ex_server Random) 1 w' ∧
    (∀ lp', loops w' !! 0%nat = Some lp' → fdconns lp' = ∅ ∧ count lp' = 0) ∧
    (∀ l2, l2 ≠ 0%nat → loops w' !! l2 = loops ex_quit_world !! l2) ∧
    heap w' = heap ex_quit_world ∧
    trace w' = trace ex_quit_world ++
               ([1%positive] ≫= close_log (ex_server Random)
                                  (heap ex_quit_world)).
Proof.
  split; [apply ex_quit_reachable|]. split; [by vm_compute|].
  apply (shutdown_closes_all (ex_server Random) 1 ex_quit_world 0 [1%positive]);
    [apply ex_quit_reachable|].
  assert (H : conns_of ex_quit_world 0 = [1%positive]) by (by vm_compute).
  by rewrite H.
Defined.

(** ** From [accept] to [Opened] *)

Lemma addrs_opened_conn s ln cv :
  addrIndex (opened_conn s ln cv) = lnidx cv ∧
  localAddr (opened_conn s ln cv) = lnaddr ln ∧
  remoteAddr (opened_conn s ln cv) = SockaddrToAddr (sa cv).
Proof.
  unfold opened_conn. destruct (Opened (events s)) as [f|]; [|done].
  destruct (f _) as [[o' opts] a']. by destruct (0 <? len o').
Qed.

(** X13: a connection taken from listener [i] is mapped unopened and
    registered for reading and writing, and the next dispatch of its fd
    opens it, whatever the kernel would answer to a read or a write then:
    no system call is made on the fd before [Opened] has been called.  The
    connection [Opened] sees has the address of listener [i] as its local
    address and the peer address [accept] gave as its remote address, and
    afterwards the fd is registered for reading alone exactly when [Opened]
    left nothing to send and no action. *)
Theorem accepted_connection_opens s l i ln k o o' n w lp nfd peer :
  loops w !! l = Some lp →
  lns s !! i = Some ln →
  has_pconn ln = false →
  o_accept o = AcceptOk nfd peer →
  o_setnonblock o = None →
  nfd ≠ 0 →
  ∃ w1 w2 p cv q,
    loopAccept_take s l i ln k o w = Some (None, w1) ∧
    heap w !! p = None ∧
    mapped w1 l nfd = Some p ∧
    (opened <$> heap w1 !! p) = Some false ∧
    mask w1 l nfd = Some ReadWrite ∧
    dispatch s l nfd n o' w1 = Some (None, w2) ∧
    heap w2 !! p = Some cv ∧
    opened cv = true ∧
    addrIndex cv = Z.of_nat i ∧
    localAddr cv = lnaddr ln ∧
    remoteAddr cv = SockaddrToAddr (Some peer) ∧
    trace w2 = trace w ++ [SysAccept k; SysSetNonblock nfd true] ++
               match Opened (events s) with
               | Some _ => CallOpened p :: q
               | None => []
               end ∧
    quiet q ∧
    mapped w2 l nfd = Some p ∧
    mask w2 l nfd = Some (if idle cv then ReadOnly else ReadWrite).
Proof.
  intros Hl Hln Hu Ha Hn Hnfd.
  pose proof (loopAccept_take_conn s l i ln k o w lp nfd peer Hu Hl Ha Hn)
    as Htake. cbv zeta in Htake. revert Htake.
  set (p := fresh (dom (heap w))).
  set (cv0 := {| fd := nfd; lnidx := Z.of_nat i; out := []; sa := Some peer;
                 reuse := false; opened := false; action := ActNone;
                 ctx := None; addrIndex := 0; localAddr := AddrNil;
                 remoteAddr := AddrNil; cloop := Some l |}).
  set (lp1 := set_count (λ n, wrap32 (n + 1))
                (set_poll (AddReadWrite nfd) (set_fdconns <[nfd := p]> lp))).
  set (w1 := {| loops := <[l := lp1]> (loops w); accepted := accepted w;
                heap := <[p := cv0]> (heap w);
                trace := trace w ++ [SysAccept k; SysSetNonblock nfd true] |}).
  intros Htake.
  assert (Hlt : (l < length (loops w))%nat) by by eapply lookup_lt_Some.
  assert (Hl1 : loops w1 !! l = Some lp1) by by apply list_lookup_insert_eq.
  assert (Hp1 : heap w1 !! p = Some cv0) by apply lookup_insert_eq.
  assert (Hk1 : fdconns lp1 !! nfd = Some p) by apply lookup_insert_eq.
  assert (Hrun : dispatch s l nfd n o' w1 = loopOpened s l p w1).
  { unfold dispatch. destruct (Z.eqb_spec nfd 0) as [?|_]; [done|].
    mrun. rewrite Hk1. by mrun. }
  assert (Hi : lns s !! Z.to_nat (lnidx cv0) = Some ln).
  { cbn [lnidx cv0]. by rewrite Nat2Z.id. }
  rewrite (loopOpened_run s l p w1 lp1 cv0 ln Hl1 Hp1) in Hrun;
    [|cbn; lia|done].
  destruct (addrs_opened_conn s ln cv0) as (Hai & Hla & Hra).
  destruct (opened_calls_cases s ln p cv0) as [[Hno Hcalls]|(q & Hcalls & Hq)].
  - eexists w1, _, p, (opened_conn s ln cv0), [].
    split; [done|]. split; [apply fresh_ptr_unused|].
    split; [by unfold mapped; rewrite Hl1|].
    split; [by rewrite Hp1|].
    split; [unfold mask; rewrite Hl1; apply lookup_insert_eq|].
    split; [exact Hrun|]. cbn [heap loops trace].
    split; [apply lookup_insert_eq|].
    split; [apply opened_opened_conn|].
    split; [done|]. split; [done|]. split; [done|].
    split; [by rewrite Hcalls, Hno; unfold w1; cbn [trace];
              rewrite <- app_assoc|].
    split; [apply quiet_nil|].
    unfold mapped, mask. cbn [loops].
    rewrite list_lookup_insert_eq by by eapply lookup_lt_Some.
    destruct (idle (opened_conn s ln cv0)); cbn.
    + split; [apply lookup_insert_eq|]. unfold ModRead, AddReadWrite.
      by rewrite lookup_alter_eq, lookup_insert_eq.
    + split; apply lookup_insert_eq.
  - eexists w1, _, p, (opened_conn s ln cv0), q.
    split; [done|]. split; [apply fresh_ptr_unused|].
    split; [by unfold mapped; rewrite Hl1|].
    split; [by rewrite Hp1|].
    split; [unfold mask; rewrite Hl1; apply lookup_insert_eq|].
    split; [exact Hrun|]. cbn [heap loops trace].
    split; [apply lookup_insert_eq|].
    split; [apply opened_opened_conn|].
    split; [done|]. split; [done|]. split; [done|].
    split.
    { rewrite Hcalls. unfold w1. cbn [trace]. rewrite <- app_assoc.
      unfold opened_calls in Hcalls. by destruct (Opened (events s)). }
    split; [done|].
    unfold mapped, mask. cbn [loops].
    rewrite list_lookup_insert_eq by by eapply lookup_lt_Some.
    destruct (idle (opened_conn s ln cv0)); cbn.
    + split; [apply lookup_insert_eq|]. unfold ModRead, AddReadWrite.
      by rewrite lookup_alter_eq, lookup_insert_eq.
    + split; apply lookup_insert_eq.
Qed.

Lemma accepted_connection_opens_witness :
  loops (serve (ex_server Random) 1) !! 0%nat
    = Some (new_loop (ex_server Random) 0) ∧
  lns (ex_server Random) !! 0%nat
    = Some {| ln_fd := 3; ln_network := TCP; lnaddr := NetAddr [] [] |} ∧
  ∃ w1 w2 p cv q,
    loopAccept_take (ex_server Random) 0 0
      {| ln_fd := 3; ln_network := TCP; lnaddr := NetAddr [] [] |} 3
      (ex_oracle (WriteOk 0) (ReadOk [])) (serve (ex_server Random) 1)
      = Some (None, w1) ∧
    heap (serve (ex_server Random) 1) !! p = None ∧
    mapped w1 0 6 = Some p ∧
    (opened <$> heap w1 !! p) = Some false ∧
    mask w1 0 6 = Some ReadWrite ∧
    dispatch (ex_server Random) 0 6 NoteOther
      (ex_io_oracle (WriteOk 0) (ReadOk [Byte.x71])) w1 = Some (None, w2) ∧
    heap w2 !! p = Some cv ∧
    opened cv = true ∧
    addrIndex cv = Z.of_nat 0 ∧
    localAddr cv = NetAddr [] [] ∧
    remoteAddr cv = SockaddrToAddr
      (Some (SockaddrInet4 4243 (Byte.x7f, Byte.x00, Byte.x00, Byte.x01))) ∧
    trace w2 = trace (serve (ex_server Random) 1) ++
               [SysAccept 3; SysSetNonblock 6 true] ++ CallOpened p :: q ∧
    quiet q ∧
    mapped w2 0 6 = Some p ∧
    mask w2 0 6 = Some (if idle cv then ReadOnly else ReadWrite).
Proof.
  split; [reflexivity|]. split; [reflexivity|].
  apply (accepted_connection_opens (ex_server Random) 0 0
           {| ln_fd := 3; ln_network := TCP; lnaddr := NetAddr [] [] |} 3
           (ex_oracle (WriteOk 0) (ReadOk []))
           (ex_io_oracle (WriteOk 0) (ReadOk [Byte.x71])) NoteOther
           (serve (ex_server Random) 1) (new_loop (ex_server Random) 0) 6
           (SockaddrInet4 4243 (Byte.x7f, Byte.x00, Byte.x00, Byte.x01)));
    try reflexivity. done.
Defined.

(** ** The errors a dispatch returns *)

Lemma returns_only_ret {A} (P : A → Prop) a : P a → returns_only P (ret a).
Proof. intros H w a' w' [= <- <-]. exact H. Qed.

Lemma returns_only_bind {A B} (P : B → Prop) (m : M A) (k : A → M B) :
  (∀ a, returns_only P (k a)) → returns_only P (bind m k).
Proof.
  intros Hk w b w'. unfold bind. destruct (m w) as [[a w1]|]; [|done].
  apply Hk.
Qed.

Lemma returns_only_panic {A} (P : A → Prop) : returns_only P panic.
Proof. by intros w a w'. Qed.

Lemma conn_result_none o : conn_result o None.
Proof. by left. Qed.

Lemma conn_result_closing o : conn_result o (Some errClosing).
Proof. right. by left. Qed.

Ltac results :=
  repeat first
    [ apply returns_only_bind; intros ?
    | apply returns_only_panic
    | apply returns_only_ret; first [apply conn_result_none
                                    | apply conn_result_closing]
    | match goal with
      | |- returns_only _ (match ?x with _ => _ end) => destruct x eqn:?
      end ].

Lemma loopCloseConn_results s l c err o :
  returns_only (conn_result o) (loopCloseConn s l c err).
Proof. unfold loopCloseConn. results. Qed.

Lemma loopDetachConn_results s l c err o :
  returns_only (conn_result o) (loopDetachConn s l c err o).
Proof.
  unfold loopDetachConn. destruct (Detached (events s)) as [f|].
  2:{ apply loopCloseConn_results. }
  results. apply returns_only_ret. right. right. eauto.
Qed.

Lemma loopOpened_results s l c o :
  returns_only (conn_result o) (loopOpened s l c).
Proof. unfold loopOpened. results. Qed.

Lemma loopWrite_results s l c o :
  returns_only (conn_result o) (loopWrite s l c o).
Proof. unfold loopWrite. results. Qed.

Lemma loopAction_results s l c o :
  returns_only (conn_result o) (loopAction s l c o).
Proof.
  unfold loopAction. results. apply loopDetachConn_results.
Qed.

Lemma loopRead_results s l c o :
  returns_only (conn_result o) (loopRead s l c o).
Proof. unfold loopRead. results. Qed.

Lemma loopWake_results s l c o :
  returns_only (conn_result o) (loopWake s l c).
Proof. unfold loopWake. results. Qed.

Lemma loopUDPRead_results s l i k o :
  returns_only (conn_result o) (loopUDPRead s l i k o).
Proof. unfold loopUDPRead. results. Qed.

Lemma loopAccept_take_results s l i ln k o :
  returns_only (accept_result_ok o) (loopAccept_take s l i ln k o).
Proof.
  unfold loopAccept_take. destruct (has_pconn ln).
  { intros w r w' H. left. by eapply loopUDPRead_results. }
  apply returns_only_bind. intros _.
  destruct (o_accept o) as [nfd peer|z] eqn:Ha.
  - apply returns_only_bind. intros _.
    destruct (o_setnonblock o) as [e|] eqn:Hn.
    + apply returns_only_ret. left. right. right. eauto.
    + repeat (apply returns_only_bind; intros ?).
      apply returns_only_ret. left. by left.
  - destruct (bool_decide_reflect (z = EAGAIN)) as [->|Hne].
    + apply returns_only_ret. left. by left.
    + apply returns_only_ret. right. eauto.
Qed.

Lemma loopAccept_results s l k o :
  returns_only (accept_result_ok o) (loopAccept s l k o).
Proof.
  unfold loopAccept.
  destruct (find_listener k 0 (lns s)) as [[i ln]|].
  2:{ apply returns_only_ret. left. by left. }
  apply returns_only_bind. intros lp w r w'.
  destruct (1 <? len (loops w)).
  - destruct (balance s).
    + apply loopAccept_take_results.
    + destruct (negb _).
      * intros [= <- <-]. left. by left.
      * apply loopAccept_take_results.
    + destruct (existsb _ _).
      * intros [= <- <-]. left. by left.
      * apply loopAccept_take_results.
  - apply loopAccept_take_results.
Qed.

(** X14: the errors a dispatch can return, and so the only things that end
    a loop: the closing sentinel (a callback or a pending action asked for
    [Shutdown]), the error posted as a note, the failure of [SetNonblock],
    and, on a listener, the failure of [accept] other than [EAGAIN].  The
    error of a read or a write on a connection is never returned: it closes
    that connection and the loop goes on. *)
Theorem dispatch_errors s l k n o w e w' :
  dispatch s l k n o w = Some (Some e, w') →
  e = errClosing ∨
  (k = 0 ∧ n = NoteError e) ∨
  (k ≠ 0 ∧ o_setnonblock o = Some e) ∨
  (k ≠ 0 ∧ mapped w l k = None ∧
   ∃ z, o_accept o = AcceptErr z ∧ z ≠ EAGAIN ∧ e = Errno z).
Proof.
  unfold dispatch. destruct (Z.eqb_spec k 0) as [Hk|Hk].
  - destruct n as [d|v|v|]; cbn [loopNote].
    + destruct (Tick (events s)) as [[delay a]|]; [|done].
      unfold bind, emit. destruct a; intros [= <- <-]; by left.
    + intros [= <- <-]. right. by left.
    + unfold bind at 1, load. destruct (heap w !! v) as [cv|]; [|done].
      unfold bind at 1, get_loop. destruct (loops w !! l) as [lp|]; [|done].
      destruct (bool_decide _); [done|]. intros H.
      destruct (loopWake_results s l v o _ _ _ H)
        as [?|[[= ->]|(e0 & _ & _)]]; [done | by left |].
      revert H. unfold loopWake. destruct (Data (events s)) as [f|]; [|done].
      unfold bind, emit, store, when.
      repeat match goal with
             | |- context [match ?x with _ => _ end] => destruct x
             end; done.
    + done.
  - unfold bind at 1, get_loop, mapped.
    destruct (loops w !! l) as [lp|]; [|done]. cbn.
    destruct (fdconns lp !! k) as [c|].
    + intros H.
      assert (Hr : conn_result o (Some e)).
      { revert H. unfold bind at 1, load.
        destruct (heap w !! c) as [cv|]; [|done].
        destruct (negb (opened cv)); [apply loopOpened_results|].
        destruct (0 <? len (out cv)); [apply loopWrite_results|].
        destruct (negb _); [apply loopAction_results | apply loopRead_results]. }
      destruct Hr as [?|[[= ->]|(e0 & [= ->] & Hn)]]; [done | by left |].
      right. right. by left.
    + intros H.
      destruct (loopAccept_results s l k o _ _ _ H)
        as [[?|[[= ->]|(e0 & [= ->] & Hn)]]|(z & Ha & Hz & [= ->])].
      * done.
      * by left.
      * right. right. by left.
      * right. right. right. split; [done|]. split; [done|]. eauto.
Qed.

Lemma dispatch_errors_witness :
  dispatch ex_detach_server 0 5 NoteOther ex_ebadf_oracle
    (ex_world [] Detach ReadWrite)
  = Some (Some (Errno 9),
          run_from (ex_world [] Detach ReadWrite)
            (dispatch ex_detach_server 0 5 NoteOther ex_ebadf_oracle)) ∧
  (Errno 9 = errClosing ∨
   (5 = 0 ∧ NoteOther = NoteError (Errno 9)) ∨
   (5 ≠ 0 ∧ o_setnonblock ex_ebadf_oracle = Some (Errno 9)) ∨
   (5 ≠ 0 ∧ mapped (ex_world [] Detach ReadWrite) 0 5 = None ∧
    ∃ z, o_accept ex_ebadf_oracle = AcceptErr z ∧ z ≠ EAGAIN ∧
         Errno 9 = Errno z)).
Proof.
  split; [reflexivity|].
  apply (dispatch_errors ex_detach_server 0 5 NoteOther ex_ebadf_oracle
           (ex_world [] Detach ReadWrite) (Errno 9)
           (run_from (ex_world [] Detach ReadWrite)
              (dispatch ex_detach_server 0 5 NoteOther ex_ebadf_oracle))).
  reflexivity.
Defined.

(** ** Pending work keeps the write interest *)

Lemma shape_preserves_sched s l lp w w' :
  conns_wf w → owner_inv w →
  loops w !! l = Some lp →
  step_shape s l lp w w' →
  sched_inv w → sched_inv w'.
Proof.
  intros Hwf Hown Hl Hshape Hinv.
  destruct Hshape
    as [lp' t Hloops Hheap Htr Hq Hidx Hf Hn Hpoll
       |lp' c cv cv' q1 cb q2 Hloops Hc Hk Hheap Htr Hq1 Hq2 Hcb Hidx Hf Hn
          Hfd Hcl Hli Hop Hpoll
       |lp' c cv q tl Hloops Hc Hk Hheap Htr Hq Htl Hidx Hf Hn Hpoll
       |lp' p cvn t Hloops Hp Hheap Htr Hq Hidx Hfree Hr Hf Hn Hcl Hop Hli
          Hpoll
       |lp' p cvu q1 input q2 Hloops Hp Hheap Htr Hq1 Hq2 Hidx Hf Hn Hpoll];
    intros l2 lp2 k c2 cv2 H2 Hk2 Hcv2; rewrite Hheap in Hcv2.
  - destruct (loops_after _ _ _ _ _ _ _ Hl Hloops H2) as [[-> ->]|[_ H0]].
    + rewrite Hf in Hk2. rewrite Hpoll. by eapply Hinv.
    + by eapply Hinv.
  - destruct (loops_after _ _ _ _ _ _ _ Hl Hloops H2) as [[-> ->]|[Hne H0]].
    + rewrite Hf in Hk2. destruct (decide (c2 = c)) as [->|Hcc].
      * rewrite lookup_insert_eq in Hcv2. injection Hcv2 as <-.
        destruct (mapped_once w l lp c cv l lp k Hwf Hown Hl Hc Hk Hl Hk2)
          as [_ ->].
        destruct (Hinv l lp (fd cv) c cv Hl Hk Hc) as (m & Hm & Hpend).
        destruct Hpoll as [[-> Hpre]|[[-> Hnp]| ->]].
        -- exists m. split; [done|]. intros Hp. by apply Hpend, Hpre.
        -- exists ReadOnly. unfold ModRead. rewrite lookup_alter_eq, Hm.
           split; [done|]. by intros Hp.
        -- exists ReadWrite. unfold ModReadWrite.
           by rewrite lookup_alter_eq, Hm.
      * rewrite lookup_insert_ne in Hcv2 by done.
        assert (Hkk : k ≠ fd cv).
        { intros ->. rewrite Hk in Hk2. by injection Hk2. }
        destruct (Hinv l lp k c2 cv2 Hl Hk2 Hcv2) as (m & Hm & Hpend).
        exists m. split; [|done].
        destruct Hpoll as [[-> _]|[[-> _]| ->]]; [done| |];
          unfold ModRead, ModReadWrite; by rewrite lookup_alter_ne.
    + assert (c2 ≠ c).
      { intros ->.
        destruct (mapped_once w l lp c cv l2 lp2 k Hwf Hown Hl Hc Hk H0 Hk2)
          as [? _]. done. }
      rewrite lookup_insert_ne in Hcv2 by done. by eapply Hinv.
  - destruct (loops_after _ _ _ _ _ _ _ Hl Hloops H2) as [[-> ->]|[_ H0]].
    + rewrite Hf in Hk2. apply lookup_delete_Some in Hk2 as [Hkk Hk2].
      rewrite Hpoll by done. by eapply Hinv.
    + by eapply Hinv.
  - destruct (loops_after _ _ _ _ _ _ _ Hl Hloops H2) as [[-> ->]|[_ H0]].
    + rewrite Hf in Hk2. rewrite Hpoll. unfold AddReadWrite.
      apply lookup_insert_Some in Hk2 as [[<- <-]|[Hkk Hk2]].
      * rewrite lookup_insert_eq. by exists ReadWrite.
      * rewrite lookup_insert_ne by done.
        destruct (Hwf l lp k c2 Hl Hk2) as [_ (cv0 & Hcv0 & _)].
        assert (c2 ≠ p) by congruence.
        rewrite lookup_insert_ne in Hcv2 by done. by eapply Hinv.
    + destruct (Hwf l2 lp2 k c2 H0 Hk2) as [_ (cv0 & Hcv0 & _)].
      assert (c2 ≠ p) by congruence.
      rewrite lookup_insert_ne in Hcv2 by done. by eapply Hinv.
  - assert (∃ lp0, loops w !! l2 = Some lp0 ∧ fdconns lp0 !! k = Some c2 ∧
                   poll lp0 = poll lp2) as (lp0 & H0 & Hk0 & Hp0).
    { destruct (loops_after _ _ _ _ _ _ _ Hl Hloops H2) as [[-> ->]|[_ H0]].
      - exists lp. by rewrite <- Hf.
      - by exists lp2. }
    destruct (Hwf l2 lp0 k c2 H0 Hk0) as [_ (cv0 & Hcv0 & _)].
    assert (c2 ≠ p) by congruence.
    rewrite lookup_insert_ne in Hcv2 by done. rewrite <- Hp0. by eapply Hinv.
Qed.

Lemma reachable_sched s numLoops w :
  reachable s numLoops w → sched_inv w.
Proof.
  induction 1 as [|w l k n o r w' Hreach IH Hok Hrun
                   |w l lp k c r w' Hreach IH Hl Hfd Hrun].
  - intros l lp k p cv Hl Hk. apply serve_lookup in Hl as ->.
    cbn [new_loop fdconns] in Hk. by rewrite lookup_empty in Hk.
  - destruct (reachable_inv _ _ _ Hreach) as [Hwf _].
    destruct (reachable_life _ _ _ Hreach) as [[Hown _] _].
    destruct (loops w !! l) as [lp|] eqn:Hl.
    + eapply shape_preserves_sched; [exact Hwf | exact Hown | exact Hl | | exact IH].
      by eapply dispatch_shape.
    + destruct (dispatch_no_loop s l k n o w r w' Hl Hrun) as [Hloops Hheap].
      unfold sched_inv. rewrite Hloops, Hheap. exact IH.
  - destruct (reachable_inv _ _ _ Hreach) as [Hwf _].
    destruct (reachable_life _ _ _ Hreach) as [[Hown _] _].
    destruct (Hwf l lp k c Hl Hfd) as [_ (cv & Hc & Hcfd)].
    assert (Hk : fdconns lp !! fd cv = Some c) by by rewrite Hcfd.
    eapply shape_preserves_sched; [exact Hwf | exact Hown | exact Hl | | exact IH].
    by eapply loopCloseConn_shape.
Qed.

(** X15: in every world the server reaches, with the poller taken as the
    map of the registered fds, every mapped fd is registered, and it is
    registered for reading and writing whenever work is left on its
    connection: [Opened] not yet called, output not yet written, or an
    action not yet applied.  So pending work is never left behind a
    read-only registration. *)
Theorem pending_work_keeps_write_interest s numLoops w l k c cv :
  reachable s numLoops w →
  mapped w l k = Some c →
  heap w !! c = Some cv →
  is_Some (mask w l k) ∧
  (opened cv = false ∨ out cv ≠ [] ∨ action cv ≠ ActNone →
   mask w l k = Some ReadWrite).
Proof.
  intros Hreach Hm Hc. unfold mapped, mask in *.
  destruct (loops w !! l) as [lp|] eqn:Hl; [|done]. cbn in *.
  destruct (reachable_sched _ _ _ Hreach l lp k c cv Hl Hm Hc)
    as (m & Hmask & Hpend).
  rewrite Hmask. split; [eauto|]. intros Hwork. f_equal. apply Hpend.
  destruct Hwork as [Hop|[Hout|Hact]]; [by left| |]; right; unfold idle.
  - destruct (Z.eqb_spec (len (out cv)) 0) as [Hz|]; [|done].
    unfold len in Hz. destruct (out cv); [done | cbn in Hz; lia].
  - rewrite bool_decide_eq_false_2 by done. apply andb_false_r.
Qed.

Lemma pending_work_keeps_write_interest_witness :
  reachable (ex_server Random) 1 ex_quit_world ∧
  mapped ex_quit_world 0 6 = Some 1%positive ∧
  (action <$> heap ex_quit_world !! 1%positive) = Some Close ∧
  mask ex_quit_world 0 6 = Some ReadWrite.
Proof.
  split; [apply ex_quit_reachable|]. split; [by vm_compute|].
  split; [by vm_compute|].
  assert (Ha : (action <$> heap ex_quit_world !! 1%positive) = Some Close)
    by (by vm_compute).
  destruct (heap ex_quit_world !! 1%positive) as [cv|] eqn:Hc; [|done].
  injection Ha as Ha.
  apply (pending_work_keeps_write_interest (ex_server Random) 1 ex_quit_world
           0 6 1 cv);
    [apply ex_quit_reachable | by vm_compute | exact Hc |].
  right. right. by rewrite Ha.
Defined.

(** ** The connection of a datagram *)

Lemma loopUDPRead_object s l lnidx k o w lp r w' :
  loops w !! l = Some lp →
  loopUDPRead s l lnidx k o w = Some (r, w') →
  ∃ pk,
    loops w' = <[l := set_packet pk lp]> (loops w) ∧
    (heap w' = heap w ∨
     ∃ cvu, heap w' = <[fresh (dom (heap w)) := cvu]> (heap w) ∧
            cloop cvu = None).
Proof.
  intros Hl. unfold loopUDPRead. mrun.
  destruct (sys_recvfrom (packet lp) (o_recvfrom o)) as [[[n from] err] pk].
  mrun.
  destruct (bool_decide (err ≠ None) || (n =? 0)).
  { intros [= <- <-]. exists pk. normw. eauto. }
  destruct (Data (events s)) as [f|].
  2:{ intros [= <- <-]. exists pk. normw. eauto. }
  mrun. unfold index. unfold bind at 1.
  destruct (lnidx <? 0); [done|].
  destruct (lns s !! Z.to_nat lnidx) as [ln|]; [|done].
  mrun. unfold slice_to. destruct ((n <? 0) || (len pk <? n)); [done|].
  mrun.
  match goal with |- context [f ?a ?b] => destruct (f a b) as [o' a'] end.
  destruct (0 <? len o').
  - cbn [when]. rewrite bind_bind, bind_prewrite. mrun.
    intros H. exists pk.
    destruct a'; injection H as <- <-; normw; (split; [done|]); right;
      eexists; (split; [reflexivity|]); reflexivity.
  - mrun. intros H. exists pk.
    destruct a'; injection H as <- <-; normw; (split; [done|]); right;
      eexists; (split; [reflexivity|]); reflexivity.
Qed.

(** X16: the connection object [loopUDPRead] makes for a datagram belongs to
    no loop: its [loop] field is nil, so that [Wake] on it does nothing, and
    when the datagram was served from a world the server reaches, no
    [fdconns] maps it afterwards. *)
Theorem datagram_conn_has_no_loop s numLoops l i k o w r w' p cv :
  reachable s numLoops w →
  loopUDPRead s l i k o w = Some (r, w') →
  heap w !! p = None →
  heap w' !! p = Some cv →
  cloop cv = None ∧
  Wake p w' = Some None ∧
  ∀ l2 k2, mapped w' l2 k2 ≠ Some p.
Proof.
  intros Hreach Hrun Hnew Hp.
  destruct (reachable_inv _ _ _ Hreach) as [Hwf _].
  assert (Hl : ∃ lp, loops w !! l = Some lp).
  { revert Hrun. unfold loopUDPRead, bind at 1, get_loop.
    destruct (loops w !! l) as [lp|]; [eauto | done]. }
  destruct Hl as [lp Hl].
  destruct (loopUDPRead_object s l i k o w lp r w' Hl Hrun)
    as (pk & Hloops & Hheap).
  assert (Hcl : cloop cv = None).
  { destruct Hheap as [Hheap|(cvu & Hheap & Hcl)]; rewrite Hheap in Hp.
    - congruence.
    - destruct (decide (p = fresh (dom (heap w)))) as [->|Hne].
      + rewrite lookup_insert_eq in Hp. by injection Hp as <-.
      + rewrite lookup_insert_ne in Hp by done. congruence. }
  split; [done|]. split.
  { unfold Wake. by rewrite Hp, Hcl. }
  intros l2 k2 Hm. unfold mapped in Hm.
  destruct (loops w' !! l2) as [lp2|] eqn:H2; [|done]. cbn in Hm.
  assert (∃ lp0, loops w !! l2 = Some lp0 ∧ fdconns lp0 !! k2 = Some p)
    as (lp0 & H0 & Hk0).
  { destruct (loops_after _ _ _ _ _ _ _ Hl Hloops H2) as [[-> ->]|[_ H0]].
    - by exists lp.
    - by exists lp2. }
  destruct (Hwf l2 lp0 k2 p H0 Hk0) as [_ (cv0 & Hcv0 & _)]. congruence.
Qed.

Lemma datagram_conn_has_no_loop_witness :
  reachable (ex_server Random) 1 (serve (ex_server Random) 1) ∧
  returns (serve (ex_server Random) 1)
    (loopUDPRead (ex_server Random) 0 1 4
       (ex_oracle (WriteOk 0) (ReadOk []))) = true ∧
  heap (serve (ex_server Random) 1) !! 1%positive = None ∧
  let w' := run_from (serve (ex_server Random) 1)
              (loopUDPRead (ex_server Random) 0 1 4
                 (ex_oracle (WriteOk 0) (ReadOk []))) in
  (cloop <$> heap w' !! 1%positive) = Some None ∧
  Wake 1 w' = Some None ∧
  ∀ l2 k2, mapped w' l2 k2 ≠ Some 1%positive.
Proof.
  split; [apply reach_serve|]. split; [by vm_compute|].
  split; [reflexivity|]. cbv zeta.
  destruct (run_from_spec (serve (ex_server Random) 1)
              (loopUDPRead (ex_server Random) 0 1 4
                 (ex_oracle (WriteOk 0) (ReadOk []))))
    as [r Hr]; [by vm_compute|].
  assert (Hc : is_Some (heap (run_from (serve (ex_server Random) 1)
                 (loopUDPRead (ex_server Random) 0 1 4
                    (ex_oracle (WriteOk 0) (ReadOk [])))) !! 1%positive)).
  { assert (H : (fd <$> heap (run_from (serve (ex_server Random) 1)
                 (loopUDPRead (ex_server Random) 0 1 4
                    (ex_oracle (WriteOk 0) (ReadOk [])))) !! 1%positive)
                = Some 0) by (by vm_compute).
    by destruct (heap _ !! 1%positive). }
  destruct Hc as [cv Hc]. rewrite Hc. cbn [fmap option_fmap option_map].
  destruct (datagram_conn_has_no_loop (ex_server Random) 1 0 1 4
              (ex_oracle (WriteOk 0) (ReadOk []))
              (serve (ex_server Random) 1) r _ 1 cv
              (reach_serve _ _) Hr eq_refl Hc) as (H1 & H2 & H3).
  split; [by rewrite H1|]. split; [exact H2 | exact H3].
Defined.

(** ** Round-robin accepts: a turn lost to [EAGAIN] (C5) *)

Lemma ex_rr_second_reachable :
  reachable (ex_server RoundRobin) 2 ex_rr_second_world.
Proof.
  destruct (run_from_spec (serve (ex_server RoundRobin) 2)
              (dispatch (ex_server RoundRobin) 0 3 NoteOther
                 (ex_oracle (WriteOk 0) (ReadOk []))))
    as [r1 Hr1]; [by vm_compute|].
  destruct (run_from_spec ex_rr_first_world
              (dispatch (ex_server RoundRobin) 1 3 NoteOther ex_eagain_oracle))
    as [r2 Hr2]; [by vm_compute|].
  destruct (run_from_spec ex_rr_missed_world
              (dispatch (ex_server RoundRobin) 0 3 NoteOther ex_second_oracle))
    as [r3 Hr3]; [by vm_compute|].
  eapply reach_dispatch; [| | exact Hr3].
  - eapply reach_dispatch; [| | exact Hr2].
    + eapply reach_dispatch; [apply reach_serve | | exact Hr1].
      intros nfd peer lp [= <- <-] [= <-]. split; [lia | done].
    + intros nfd peer lp H. discriminate H.
  - assert (Hm : mapped ex_rr_missed_world 0 7 = None) by (by vm_compute).
    intros nfd peer lp [= <- <-] Hl. split; [lia|].
    unfold mapped in Hm. fold ex_rr_first_world ex_rr_missed_world in Hl.
    by rewrite Hl in Hm.
Qed.

(** C5 fails on the code, by the place of the increment.  Two loops share a
    TCP listener in round-robin mode.  A first connection wakes both: loop 0
    finds the counter at 0, counts and accepts fd 6; loop 1 then finds the
    counter at 1, its turn, counts, and [accept] answers [EAGAIN]: the
    counter is 2 and loop 1 has no connection.  A second connection wakes
    loop 0, which finds the counter at 2, its turn again, and accepts fd 7.
    The counter is 3 after two acceptances, and both connections are on
    loop 0. *)
Theorem round_robin_turn_lost_on_eagain :
  reachable (ex_server RoundRobin) 2 ex_rr_second_world ∧
  accepted (serve (ex_server RoundRobin) 2) = 0 ∧
  accepted ex_rr_first_world = 1 ∧
  mapped ex_rr_first_world 0 6 = Some 1%positive ∧
  (fst <$> dispatch (ex_server RoundRobin) 1 3 NoteOther ex_eagain_oracle
             ex_rr_first_world) = Some None ∧
  trace ex_rr_missed_world = trace ex_rr_first_world ++ [SysAccept 3] ∧
  load_of ex_rr_missed_world 1 = Some 0%nat ∧
  accepted ex_rr_missed_world = 2 ∧
  mapped ex_rr_second_world 0 6 = Some 1%positive ∧
  mapped ex_rr_second_world 0 7 = Some 2%positive ∧
  load_of ex_rr_second_world 0 = Some 2%nat ∧
  load_of ex_rr_second_world 1 = Some 0%nat ∧
  accepted ex_rr_second_world = 3.
Proof.
  split; [apply ex_rr_second_reachable|].
  repeat split; by vm_compute.
Qed.

(** ** The remote address of a datagram's connection (C7) *)


